(** * BOUT++ : derivative operators and the PETSc solver's state-vector codec

    A shallow embedding of
    - [src/sys/derivs.cxx]   (module [Derivs]) and
    - the PETSc time-integration driver, [PetscSolver] (module [Petsc]).

    [BoutReal] is the C++ [double]; it is modelled by Rocq's primitive
    binary64 floats, so "the same value" below always means the same
    floating-point number.  C++ [int]s are modelled by [Z]; the meshes and
    counters of a run stay far from the limits of [int], and no wrap-around
    is modelled. *)

From Stdlib Require Import ZArith List Bool Lia.
From Stdlib Require Import Floats.PrimFloat.
From Stdlib Require Strings.String.
Import ListNotations.

Set Implicit Arguments.
Open Scope Z_scope.

(** ** Types shared by both translation units *)

Module Bout.

Definition BoutReal : Set := float.

(** [enum CELL_LOC] and [enum DIFF_METHOD] are declared in [bout_types.hxx],
    which is not among the sources; the code under study names only
    [CELL_DEFAULT] and [DIFF_DEFAULT].  The other constructors are the
    staggered-grid locations and the differencing schemes of the library. *)
Inductive CELL_LOC : Set :=
  CELL_DEFAULT | CELL_CENTRE | CELL_XLOW | CELL_YLOW | CELL_ZLOW | CELL_VSHIFT.

Inductive DIFF_METHOD : Set :=
  DIFF_DEFAULT | DIFF_U1 | DIFF_U2 | DIFF_C2 | DIFF_W2 | DIFF_W3 | DIFF_C4
| DIFF_U3 | DIFF_FFT | DIFF_SPLIT.

Definition CELL_LOC_eqb (a b : CELL_LOC) : bool :=
  match a, b with
  | CELL_DEFAULT, CELL_DEFAULT | CELL_CENTRE, CELL_CENTRE
  | CELL_XLOW, CELL_XLOW | CELL_YLOW, CELL_YLOW
  | CELL_ZLOW, CELL_ZLOW | CELL_VSHIFT, CELL_VSHIFT => true
  | _, _ => false
  end.

(** A field is its backing storage, [getData()], which is [NULL] until the
    field is allocated, together with its staggered-grid location tag.
    The storage of a 2D field is indexed [d[jx][jy]], that of a 3D field
    [d[jx][jy][jz]].  It is modelled as a function of the indices, without
    bounds of its own: the code indexes it with what the mesh provides. *)
Record Field2D : Type := mkField2D
  { data2 : option (Z -> Z -> BoutReal);
    location2 : CELL_LOC }.

Record Field3D : Type := mkField3D
  { data3 : option (Z -> Z -> Z -> BoutReal);
    location3 : CELL_LOC }.

(** The value stored at a point, if the field is allocated. *)
Definition value2 (f : Field2D) (jx jy : Z) : option BoutReal :=
  option_map (fun d => d jx jy) (data2 f).

Definition value3 (f : Field3D) (jx jy jz : Z) : option BoutReal :=
  option_map (fun d => d jx jy jz) (data3 f).

(** Modelled from the spec: the constructors and assignment operators of
    [Field2D] ([field2d.cxx]) are missing.  A default-constructed field has
    no storage; [Field2D(val)] and [f = val] allocate and fill every point
    with [val].  A new field sits at the cell centre, the location of a
    field nobody has moved; assignment of a number keeps the location. *)
Definition Field2D_default : Field2D := mkField2D None CELL_CENTRE.

Definition Field2D_real (val : BoutReal) : Field2D :=
  mkField2D (Some (fun _ _ => val)) CELL_CENTRE.

Definition Field2D_assign_real (f : Field2D) (val : BoutReal) : Field2D :=
  mkField2D (Some (fun _ _ => val)) (location2 f).

Definition Field2D_setLocation (f : Field2D) (loc : CELL_LOC) : Field2D :=
  mkField2D (data2 f) loc.

Definition Field3D_setLocation (f : Field3D) (loc : CELL_LOC) : Field3D :=
  mkField3D (data3 f) loc.

(** [Vector2D] and [Vector3D]: three components and the basis flag. *)
Record Vector2D : Type := mkVector2D
  { v2x : Field2D; v2y : Field2D; v2z : Field2D; covariant2 : bool }.

Record Vector3D : Type := mkVector3D
  { v3x : Field3D; v3y : Field3D; v3z : Field3D; covariant3 : bool }.

(** [class Field], the common base of [Field2D] and [Field3D]. *)
Inductive Field : Type :=
| F2 (f : Field2D)
| F3 (f : Field3D).

End Bout.

(** ** [src/sys/derivs.cxx] *)

Module Derivs.
Import Bout.

(** The arithmetic of fields ([field3d.cxx], [field2d.cxx]) and
    [interp_to] ([interpolation.hxx]) are not among the sources.  The
    operators are taken as an interface without laws, so that an equation
    proved below is an equation between the very operations the code
    performs, not an identity of real arithmetic.  The names give the
    operand types: [div32 a b] is [a / b] for a [Field3D] [a] and a
    [Field2D] [b]; [r] stands for a [BoutReal]. *)
Record FieldOps : Type := mkFieldOps
  { add33 : Field3D -> Field3D -> Field3D;
    sub33 : Field3D -> Field3D -> Field3D;
    mul23 : Field2D -> Field3D -> Field3D;
    mul32 : Field3D -> Field2D -> Field3D;
    div32 : Field3D -> Field2D -> Field3D;
    div3r : Field3D -> BoutReal -> Field3D;
    add22 : Field2D -> Field2D -> Field2D;
    mul22 : Field2D -> Field2D -> Field2D;
    div22 : Field2D -> Field2D -> Field2D;
    interp_to : Field3D -> CELL_LOC -> Field3D }.

(** [mesh->coordinates()]: grid spacings, the non-uniform corrections
    [d1_dx = d(1/dx)/dx] and [d1_dy], the Christoffel symbols that enter the
    Z derivative of a vector, the shift torsion, and the 2D derivatives the
    coordinates object computes itself. *)
Record Coordinates : Type := mkCoordinates
  { dx : Field2D; dy : Field2D; dz : BoutReal;
    non_uniform : bool;
    d1_dx : Field2D; d1_dy : Field2D;
    G1_13 : Field2D; G1_23 : Field2D; G1_33 : Field2D;
    G2_13 : Field2D; G2_23 : Field2D; G2_33 : Field2D;
    G3_13 : Field2D; G3_23 : Field2D; G3_33 : Field2D;
    IntShiftTorsion : Field2D;
    coord_DDX : Field2D -> Field2D;
    coord_DDY : Field2D -> Field2D }.

(** The mesh: the index-space derivative primitives, one per axis, order
    and operand type, and the integrated-shear switch. *)
Record Mesh : Type := mkMesh
  { coordinates : Coordinates;
    IncIntShear : bool;
    indexDDX : Field3D -> CELL_LOC -> DIFF_METHOD -> Field3D;
    indexDDY : Field3D -> CELL_LOC -> DIFF_METHOD -> Field3D;
    indexDDZ : Field3D -> CELL_LOC -> DIFF_METHOD -> bool -> Field3D;
    indexDDX_2D : Field2D -> Field2D;
    indexDDY_2D : Field2D -> Field2D;
    indexD2DX2 : Field3D -> CELL_LOC -> DIFF_METHOD -> Field3D;
    indexD2DY2 : Field3D -> CELL_LOC -> DIFF_METHOD -> Field3D;
    indexD2DZ2 : Field3D -> CELL_LOC -> DIFF_METHOD -> bool -> Field3D;
    indexD2DX2_2D : Field2D -> Field2D;
    indexD2DY2_2D : Field2D -> Field2D;
    indexVDDX_2D : Field2D -> Field2D -> CELL_LOC -> DIFF_METHOD -> Field2D;
    indexVDDY_2D : Field2D -> Field2D -> CELL_LOC -> DIFF_METHOD -> Field2D;
    indexVDDX : Field -> Field -> CELL_LOC -> DIFF_METHOD -> Field3D;
    indexVDDY : Field -> Field -> CELL_LOC -> DIFF_METHOD -> Field3D;
    indexVDDZ : Field -> Field -> CELL_LOC -> DIFF_METHOD -> Field3D;
    indexFDDX_2D : Field2D -> Field2D -> CELL_LOC -> DIFF_METHOD -> Field2D;
    indexFDDY_2D : Field2D -> Field2D -> CELL_LOC -> DIFF_METHOD -> Field2D;
    indexFDDX : Field3D -> Field3D -> CELL_LOC -> DIFF_METHOD -> Field3D;
    indexFDDY : Field3D -> Field3D -> CELL_LOC -> DIFF_METHOD -> Field3D;
    indexFDDZ : Field3D -> Field3D -> CELL_LOC -> DIFF_METHOD -> Field3D }.

Section Operators.

Variable ops : FieldOps.
Variable mesh : Mesh.


(** [SQ(t)] of [utils.hxx] is [t*t]. *)
Definition SQ (t : Field2D) : Field2D := mul22 ops t t.

(** *** First derivatives *)

(** A default argument of an overload is written out at the call. *)
Definition DDZ (f : Field3D) (outloc : CELL_LOC) (method : DIFF_METHOD)
    (inc_xbndry : bool) : Field3D :=
  div3r ops (indexDDZ mesh f outloc method inc_xbndry) (dz (coordinates mesh)).

Definition DDZ_method_loc (f : Field3D) (method : DIFF_METHOD)
    (outloc : CELL_LOC) (inc_xbndry : bool) : Field3D :=
  DDZ f outloc method inc_xbndry.

Definition DDZ_method (f : Field3D) (method : DIFF_METHOD)
    (inc_xbndry : bool) : Field3D :=
  DDZ f CELL_DEFAULT method inc_xbndry.

Definition DDZ_xbndry (f : Field3D) (inc_xbndry : bool) : Field3D :=
  DDZ f CELL_DEFAULT DIFF_DEFAULT inc_xbndry.

(** [DDZ(const Field2D &UNUSED(f))] *)
Definition DDZ_2D (f : Field2D) : Field2D := Field2D_real 0%float.

(** [DDX]: in the body, [DDZ(f, outloc)] takes the defaults
    [method = DIFF_DEFAULT] and [inc_xbndry = false] of [derivs.hxx]. *)
Definition DDX (f : Field3D) (outloc : CELL_LOC) (method : DIFF_METHOD)
    : Field3D :=
  let result := div32 ops (indexDDX mesh f outloc method) (dx (coordinates mesh)) in
  if IncIntShear mesh
  then add33 ops result
         (mul23 ops (IntShiftTorsion (coordinates mesh)) (DDZ f outloc DIFF_DEFAULT false))
  else result.

Definition DDX_method_loc (f : Field3D) (method : DIFF_METHOD)
    (outloc : CELL_LOC) : Field3D :=
  DDX f outloc method.

Definition DDX_method (f : Field3D) (method : DIFF_METHOD) : Field3D :=
  DDX f CELL_DEFAULT method.

Definition DDX_2D (f : Field2D) : Field2D := coord_DDX (coordinates mesh) f.

Definition DDY (f : Field3D) (outloc : CELL_LOC) (method : DIFF_METHOD)
    : Field3D :=
  div32 ops (indexDDY mesh f outloc method) (dy (coordinates mesh)).

Definition DDY_method_loc (f : Field3D) (method : DIFF_METHOD)
    (outloc : CELL_LOC) : Field3D :=
  DDY f outloc method.

Definition DDY_method (f : Field3D) (method : DIFF_METHOD) : Field3D :=
  DDY f CELL_DEFAULT method.

Definition DDY_2D (f : Field2D) : Field2D := coord_DDY (coordinates mesh) f.

(** [DDZ(const Vector3D &v, CELL_LOC outloc, DIFF_METHOD method)].  The C++
    expression [a - b - c - d] groups to the left. *)
Definition DDZ_Vector3D (v : Vector3D) (outloc : CELL_LOC)
    (method : DIFF_METHOD) : Vector3D :=
  let metric := coordinates mesh in
  let ddz c := DDZ c outloc method false in
  let x := v3x v in let y := v3y v in let z := v3z v in
  let minus := sub33 ops in let plus := add33 ops in let times := mul32 ops in
  if covariant3 v then
    {| v3x := minus (minus (minus (ddz x) (times x (G1_13 metric)))
                      (times y (G2_13 metric))) (times z (G3_13 metric));
       v3y := minus (minus (minus (ddz y) (times x (G1_23 metric)))
                      (times y (G2_23 metric))) (times z (G3_23 metric));
       v3z := minus (minus (minus (ddz z) (times x (G1_33 metric)))
                      (times y (G2_33 metric))) (times z (G3_33 metric));
       covariant3 := true |}
  else
    {| v3x := plus (plus (plus (ddz x) (times x (G1_13 metric)))
                     (times y (G1_23 metric))) (times z (G1_33 metric));
       v3y := plus (plus (plus (ddz y) (times x (G2_13 metric)))
                     (times y (G2_23 metric))) (times z (G2_33 metric));
       v3z := plus (plus (plus (ddz z) (times x (G3_13 metric)))
                     (times y (G3_23 metric))) (times z (G3_33 metric));
       covariant3 := false |}.

Definition DDZ_Vector3D_method_loc (v : Vector3D) (method : DIFF_METHOD)
    (outloc : CELL_LOC) : Vector3D :=
  DDZ_Vector3D v outloc method.

(** Modelled from the spec: the default constructor of [Vector2D]
    ([vector2d.cxx]) is missing; its components are default fields and a
    new vector is covariant. *)
Definition Vector2D_default : Vector2D :=
  mkVector2D Field2D_default Field2D_default Field2D_default true.

(** [DDZ(const Vector2D &v)]: the flag is copied, then the three components
    are assigned the number zero. *)
Definition DDZ_Vector2D (v : Vector2D) : Vector2D :=
  let result := Vector2D_default in
  let result := mkVector2D (v2x result) (v2y result) (v2z result)
                           (covariant2 v) in
  let result := mkVector2D (Field2D_assign_real (v2x result) 0%float)
                           (v2y result) (v2z result) (covariant2 result) in
  let result := mkVector2D (v2x result)
                           (Field2D_assign_real (v2y result) 0%float)
                           (v2z result) (covariant2 result) in
  let result := mkVector2D (v2x result) (v2y result)
                           (Field2D_assign_real (v2z result) 0%float)
                           (covariant2 result) in
  result.

(** *** Second derivatives *)

Definition D2DX2 (f : Field3D) (outloc : CELL_LOC) (method : DIFF_METHOD)
    : Field3D :=
  let result := div32 ops (indexD2DX2 mesh f outloc method) (SQ (dx (coordinates mesh))) in
  let result :=
    if non_uniform (coordinates mesh)
    then add33 ops result
           (div32 ops (mul23 ops (d1_dx (coordinates mesh))
                                 (indexDDX mesh f outloc DIFF_DEFAULT))
                      (dx (coordinates mesh)))
    else result in
  result.

Definition D2DX2_method_loc (f : Field3D) (method : DIFF_METHOD)
    (outloc : CELL_LOC) : Field3D :=
  D2DX2 f outloc method.


Definition D2DY2 (f : Field3D) (outloc : CELL_LOC) (method : DIFF_METHOD)
    : Field3D :=
  let result := div32 ops (indexD2DY2 mesh f outloc method) (SQ (dy (coordinates mesh))) in
  let result :=
    if non_uniform (coordinates mesh)
    then add33 ops result
           (div32 ops (mul23 ops (d1_dy (coordinates mesh))
                                 (indexDDY mesh f outloc DIFF_DEFAULT))
                      (dy (coordinates mesh)))
    else result in
  interp_to ops result outloc.

Definition D2DY2_method_loc (f : Field3D) (method : DIFF_METHOD)
    (outloc : CELL_LOC) : Field3D :=
  D2DY2 f outloc method.


(** [SQ(mesh->coordinates()->dz)] squares a number. *)
Definition D2DZ2 (f : Field3D) (outloc : CELL_LOC) (method : DIFF_METHOD)
    (inc_xbndry : bool) : Field3D :=
  div3r ops (indexD2DZ2 mesh f outloc method inc_xbndry)
            (PrimFloat.mul (dz (coordinates mesh)) (dz (coordinates mesh))).

Definition D2DZ2_method_loc (f : Field3D) (method : DIFF_METHOD)
    (outloc : CELL_LOC) (inc_xbndry : bool) : Field3D :=
  D2DZ2 f outloc method inc_xbndry.

Definition D2DZ2_xbndry (f : Field3D) (inc_xbndry : bool) : Field3D :=
  D2DZ2 f CELL_DEFAULT DIFF_DEFAULT inc_xbndry.

(** [D2DZ2(const Field2D &UNUSED(f))] *)
Definition D2DZ2_2D (f : Field2D) : Field2D := Field2D_real 0%float.

(** [D4DZ4(const Field2D &f)]: the one Z operator on 2D fields that reads
    its argument, to carry the location over. *)
Definition D4DZ4_2D (f : Field2D) : Field2D :=
  let loc := location2 f in
  let result := Field2D_real 0%float in
  let result := Field2D_setLocation result loc in
  result.

(** *** Advection *)

Definition VDDX_2D (v f : Field2D) (outloc : CELL_LOC) (method : DIFF_METHOD)
    : Field2D :=
  div22 ops (indexVDDX_2D mesh v f outloc method) (dx (coordinates mesh)).

Definition VDDX_2D_method (v f : Field2D) (method : DIFF_METHOD) : Field2D :=
  VDDX_2D v f CELL_DEFAULT method.

Definition VDDX (v f : Field) (outloc : CELL_LOC) (method : DIFF_METHOD)
    : Field3D :=
  div32 ops (indexVDDX mesh v f outloc method) (dx (coordinates mesh)).

Definition VDDX_method_loc (v f : Field) (method : DIFF_METHOD)
    (outloc : CELL_LOC) : Field3D :=
  VDDX v f outloc method.

(** A call [VDDX(v, f, method, outloc)] with two [Field2D] arguments.  The
    special case for 2D fields has the overloads [(outloc, method)] and
    [(method)] and none for this order; a [DIFF_METHOD] does not convert to
    a [CELL_LOC]; the one overload that takes the call is the general one,
    each argument bound to its [const Field &]. *)
Definition VDDX_2D_method_loc (v f : Field2D) (method : DIFF_METHOD)
    (outloc : CELL_LOC) : Field3D :=
  VDDX_method_loc (F2 v) (F2 f) method outloc.

Definition VDDY_2D (v f : Field2D) (outloc : CELL_LOC) (method : DIFF_METHOD)
    : Field2D :=
  div22 ops (indexVDDY_2D mesh v f outloc method) (dy (coordinates mesh)).

Definition VDDY_2D_method (v f : Field2D) (method : DIFF_METHOD) : Field2D :=
  VDDY_2D v f CELL_DEFAULT method.

Definition VDDY (v f : Field) (outloc : CELL_LOC) (method : DIFF_METHOD)
    : Field3D :=
  div32 ops (indexVDDY mesh v f outloc method) (dy (coordinates mesh)).

Definition VDDY_method_loc (v f : Field) (method : DIFF_METHOD)
    (outloc : CELL_LOC) : Field3D :=
  VDDY v f outloc method.

(** A call [VDDY(v, f, method, outloc)] with two [Field2D] arguments, as
    for [VDDX]. *)
Definition VDDY_2D_method_loc (v f : Field2D) (method : DIFF_METHOD)
    (outloc : CELL_LOC) : Field3D :=
  VDDY_method_loc (F2 v) (F2 f) method outloc.

Definition VDDZ_2D (v f : Field2D) : Field2D := Field2D_real 0%float.

Definition VDDZ_3D_2D (v : Field3D) (f : Field2D) : Field2D :=
  Field2D_real 0%float.

Definition VDDZ (v f : Field) (outloc : CELL_LOC) (method : DIFF_METHOD)
    : Field3D :=
  div3r ops (indexVDDZ mesh v f outloc method) (dz (coordinates mesh)).

Definition VDDZ_method_loc (v f : Field) (method : DIFF_METHOD)
    (outloc : CELL_LOC) : Field3D :=
  VDDZ v f outloc method.

(** *** Flux-conserving schemes *)

Definition FDDX_2D (v f : Field2D) (outloc : CELL_LOC) (method : DIFF_METHOD)
    : Field2D :=
  div22 ops (indexFDDX_2D mesh v f outloc method) (dx (coordinates mesh)).

Definition FDDX_2D_method_loc (v f : Field2D) (method : DIFF_METHOD)
    (outloc : CELL_LOC) : Field2D :=
  FDDX_2D v f outloc method.

Definition FDDX_2D_default (v f : Field2D) : Field2D :=
  FDDX_2D_method_loc v f DIFF_DEFAULT CELL_DEFAULT.

Definition FDDX (v f : Field3D) (outloc : CELL_LOC) (method : DIFF_METHOD)
    : Field3D :=
  div32 ops (indexFDDX mesh v f outloc method) (dx (coordinates mesh)).

Definition FDDX_method_loc (v f : Field3D) (method : DIFF_METHOD)
    (outloc : CELL_LOC) : Field3D :=
  FDDX v f outloc method.

Definition FDDX_default (v f : Field3D) : Field3D :=
  FDDX_method_loc v f DIFF_DEFAULT CELL_DEFAULT.

Definition FDDY_2D (v f : Field2D) (outloc : CELL_LOC) (method : DIFF_METHOD)
    : Field2D :=
  div22 ops (indexFDDY_2D mesh v f outloc method) (dy (coordinates mesh)).

Definition FDDY_2D_method_loc (v f : Field2D) (method : DIFF_METHOD)
    (outloc : CELL_LOC) : Field2D :=
  FDDY_2D v f outloc method.

Definition FDDY_2D_default (v f : Field2D) : Field2D :=
  FDDY_2D_method_loc v f DIFF_DEFAULT CELL_DEFAULT.

Definition FDDY (v f : Field3D) (outloc : CELL_LOC) (method : DIFF_METHOD)
    : Field3D :=
  div32 ops (indexFDDY mesh v f outloc method) (dy (coordinates mesh)).

Definition FDDY_method_loc (v f : Field3D) (method : DIFF_METHOD)
    (outloc : CELL_LOC) : Field3D :=
  FDDY v f outloc method.

Definition FDDY_default (v f : Field3D) : Field3D :=
  FDDY_method_loc v f DIFF_DEFAULT CELL_DEFAULT.

(** For 2D operands the overload that takes the method first is the one
    with a body of its own; the other order forwards to it. *)
Definition FDDZ_2D_method_loc (v f : Field2D) (method : DIFF_METHOD)
    (outloc : CELL_LOC) : Field2D :=
  Field2D_real 0%float.

Definition FDDZ_2D (v f : Field2D) (outloc : CELL_LOC) (method : DIFF_METHOD)
    : Field2D :=
  FDDZ_2D_method_loc v f method outloc.

Definition FDDZ_2D_default (v f : Field2D) : Field2D :=
  FDDZ_2D_method_loc v f DIFF_DEFAULT CELL_DEFAULT.

Definition FDDZ (v f : Field3D) (outloc : CELL_LOC) (method : DIFF_METHOD)
    : Field3D :=
  div3r ops (indexFDDZ mesh v f outloc method) (dz (coordinates mesh)).

Definition FDDZ_method_loc (v f : Field3D) (method : DIFF_METHOD)
    (outloc : CELL_LOC) : Field3D :=
  FDDZ v f outloc method.

Definition FDDZ_default (v f : Field3D) : Field3D :=
  FDDZ_method_loc v f DIFF_DEFAULT CELL_DEFAULT.

End Operators.

(** *** The operators as the specification words them *)



Inductive Axis : Set := X | Y | Z3.

(** [Gamma c k i] is the Christoffel symbol with upper index [k] and lower
    indices [i] and 3: the member [Gk_i3] of the coordinates. *)
Definition Gamma (c : Coordinates) (upper lower : Axis) : Field2D :=
  match upper, lower with
  | X, X => G1_13 c | X, Y => G1_23 c | X, Z3 => G1_33 c
  | Y, X => G2_13 c | Y, Y => G2_23 c | Y, Z3 => G2_33 c
  | Z3, X => G3_13 c | Z3, Y => G3_23 c | Z3, Z3 => G3_33 c
  end.

Definition component (v : Vector3D) (i : Axis) : Field3D :=
  match i with
  | X => v3x v
  | Y => v3y v
  | Z3 => v3z v
  end.

(** Covariant differentiation as the specification words it: the
    component's own Z derivative, minus the components weighted with
    [Gamma k i] for a covariant vector, plus the components weighted with
    [Gamma i k], the transposed pattern, for a contravariant one. *)
Definition covariant_derivative (ops : FieldOps) (mesh : Mesh) (v : Vector3D)
    (outloc : CELL_LOC) (method : DIFF_METHOD) (i : Axis) : Field3D :=
  let c := coordinates mesh in
  let ddz := DDZ ops mesh (component v i) outloc method false in
  if covariant3 v then
    sub33 ops
      (sub33 ops (sub33 ops ddz (mul32 ops (v3x v) (Gamma c X i)))
                 (mul32 ops (v3y v) (Gamma c Y i)))
      (mul32 ops (v3z v) (Gamma c Z3 i))
  else
    add33 ops
      (add33 ops (add33 ops ddz (mul32 ops (v3x v) (Gamma c i X)))
                 (mul32 ops (v3y v) (Gamma c i Y)))
      (mul32 ops (v3z v) (Gamma c i Z3)).

End Derivs.

(** ** The PETSc solver: state-vector codec and output scheduling *)

Module Petsc.
Import Bout.

(** *** Running code that may dereference a [NULL] data pointer *)

(** [getData()] of an unallocated field is [NULL], and indexing it is a
    crash.  A run either finishes with a result or is a [Fault]. *)
Inductive Res (A : Type) : Type :=
| Ok (a : A)
| Fault.
Arguments Fault {A}.

Definition bind {A B : Type} (r : Res A) (k : A -> Res B) : Res B :=
  match r with
  | Ok a => k a
  | Fault => Fault
  end.

Declare Scope res_scope.
Delimit Scope res_scope with res.
Notation "x <- e ;; k" := (bind e (fun x => k))
  (at level 61, e at next level, right associativity) : res_scope.
Open Scope res_scope.

(** A [for] loop whose body threads the state [S]: the body runs once for
    each element, in order, and a fault ends the run. *)
Fixpoint for_each {A S : Type} (body : A -> S -> Res S) (l : list A) (s : S)
    : Res S :=
  match l with
  | [] => Ok s
  | a :: l' => s' <- body a s ;; for_each body l' s'
  end.

(** The values [lo, lo+1, ..., hi-1] of the counter of
    [for(j = lo; j < hi; j++)]; none when [hi <= lo]. *)
Definition zrange (lo hi : Z) : list Z :=
  map (fun k => lo + Z.of_nat k) (seq 0 (Z.to_nat (hi - lo))).

(** *** Fields in memory *)

(** The solver holds pointers to the fields it evolves.  A pointer to a
    scalar field points either to a field of its own or to a component of
    a vector; the components of a registered vector are registered as
    scalar fields too, so both kinds occur and they alias the vectors. *)
Inductive Field2D_ptr : Set :=
| Ptr2 (a : nat)
| Ptr2_x (v : nat) | Ptr2_y (v : nat) | Ptr2_z (v : nat).

Inductive Field3D_ptr : Set :=
| Ptr3 (a : nat)
| Ptr3_x (v : nat) | Ptr3_y (v : nat) | Ptr3_z (v : nat).

Record Memory : Type := mkMemory
  { fields2 : nat -> Field2D;
    fields3 : nat -> Field3D;
    vectors2 : nat -> Vector2D;
    vectors3 : nat -> Vector3D }.

Definition update {A : Type} (h : nat -> A) (a : nat) (x : A) : nat -> A :=
  fun b => if Nat.eqb b a then x else h b.

Definition deref2 (m : Memory) (q : Field2D_ptr) : Field2D :=
  match q with
  | Ptr2 a => fields2 m a
  | Ptr2_x v => v2x (vectors2 m v)
  | Ptr2_y v => v2y (vectors2 m v)
  | Ptr2_z v => v2z (vectors2 m v)
  end.

Definition deref3 (m : Memory) (q : Field3D_ptr) : Field3D :=
  match q with
  | Ptr3 a => fields3 m a
  | Ptr3_x v => v3x (vectors3 m v)
  | Ptr3_y v => v3y (vectors3 m v)
  | Ptr3_z v => v3z (vectors3 m v)
  end.

Definition set_vectors2 (m : Memory) (v : nat) (w : Vector2D) : Memory :=
  mkMemory (fields2 m) (fields3 m) (update (vectors2 m) v w) (vectors3 m).

Definition set_vectors3 (m : Memory) (v : nat) (w : Vector3D) : Memory :=
  mkMemory (fields2 m) (fields3 m) (vectors2 m) (update (vectors3 m) v w).

Definition store2 (m : Memory) (q : Field2D_ptr) (f : Field2D) : Memory :=
  match q with
  | Ptr2 a => mkMemory (update (fields2 m) a f) (fields3 m)
                       (vectors2 m) (vectors3 m)
  | Ptr2_x v => let w := vectors2 m v in
      set_vectors2 m v (mkVector2D f (v2y w) (v2z w) (covariant2 w))
  | Ptr2_y v => let w := vectors2 m v in
      set_vectors2 m v (mkVector2D (v2x w) f (v2z w) (covariant2 w))
  | Ptr2_z v => let w := vectors2 m v in
      set_vectors2 m v (mkVector2D (v2x w) (v2y w) f (covariant2 w))
  end.

Definition store3 (m : Memory) (q : Field3D_ptr) (f : Field3D) : Memory :=
  match q with
  | Ptr3 a => mkMemory (fields2 m) (update (fields3 m) a f)
                       (vectors2 m) (vectors3 m)
  | Ptr3_x v => let w := vectors3 m v in
      set_vectors3 m v (mkVector3D f (v3y w) (v3z w) (covariant3 w))
  | Ptr3_y v => let w := vectors3 m v in
      set_vectors3 m v (mkVector3D (v3x w) f (v3z w) (covariant3 w))
  | Ptr3_z v => let w := vectors3 m v in
      set_vectors3 m v (mkVector3D (v3x w) (v3y w) f (covariant3 w))
  end.

(** One cell of backing storage: [d2d[jx][jy]] of the field at [q], or
    [d3d[jx][jy][jz]]. *)
Inductive Address : Set :=
| At2 (q : Field2D_ptr) (jx jy : Z)
| At3 (q : Field3D_ptr) (jx jy jz : Z).

(** Reading a cell: [d = q->getData(); ... d[jx][jy]]. *)
Definition peek (m : Memory) (a : Address) : Res BoutReal :=
  match a with
  | At2 q jx jy =>
      match data2 (deref2 m q) with
      | Some d => Ok (d jx jy)
      | None => Fault
      end
  | At3 q jx jy jz =>
      match data3 (deref3 m q) with
      | Some d => Ok (d jx jy jz)
      | None => Fault
      end
  end.

(** A cell that can be read holds a value: its field is allocated. *)
Definition allocated (m : Memory) (a : Address) : Prop :=
  exists x, peek m a = Ok x.

(** Writing a cell: [d = q->getData(); d[jx][jy] = val]. *)
Definition poke (m : Memory) (a : Address) (val : BoutReal) : Res Memory :=
  match a with
  | At2 q jx jy =>
      let f := deref2 m q in
      match data2 f with
      | Some d =>
          Ok (store2 m q
                (mkField2D
                   (Some (fun x y => if (x =? jx) && (y =? jy) then val
                                     else d x y))
                   (location2 f)))
      | None => Fault
      end
  | At3 q jx jy jz =>
      let f := deref3 m q in
      match data3 f with
      | Some d =>
          Ok (store3 m q
                (mkField3D
                   (Some (fun x y z =>
                            if (x =? jx) && (y =? jy) && (z =? jz) then val
                            else d x y z))
                   (location3 f)))
      | None => Fault
      end
  end.

(** *** The registry and the mesh *)

(** [VarStr<T>] of [solver.hxx] (not among the sources), with the members
    the code reads: the evolving variable, its time derivative, the declared
    location and the declared basis.  [T*] is the pointer type [P]; a vector
    is pointed to by its index in [vectors2] or [vectors3]. *)
Record VarStr (P : Type) : Type := mkVarStr
  { var : P;
    F_var : P;
    location : CELL_LOC;
    covariant : bool }.

Record Registry : Type := mkRegistry
  { f2d : list (VarStr Field2D_ptr);
    f3d : list (VarStr Field3D_ptr);
    v2d : list (VarStr nat);
    v3d : list (VarStr nat) }.

(** The members of [mesh] the codec reads.  [iterateBndryLowerY] and
    [iterateBndryUpperY] stand for the sequence of [xi->ind] the two range
    iterators go through from [first()] until [isDone()]. *)
Record Mesh : Type := mkMesh
  { xstart : Z; xend : Z; ystart : Z; yend : Z;
    ngx : Z; ngy : Z; ngz : Z;
    firstX : bool; lastX : bool;
    iterateBndryLowerY : list Z;
    iterateBndryUpperY : list Z }.

Inductive SOLVER_VAR_OP : Set := LOAD_VARS | SAVE_VARS | SAVE_DERIVS.

(** The flat array [BoutReal *udata], as long as its owner has made it: a
    function of the position. *)
Definition Buffer : Type := Z -> BoutReal.

Definition buffer_set (u : Buffer) (p : Z) (val : BoutReal) : Buffer :=
  fun k => if k =? p then val else u k.

(** What [loop_vars_op] works on: the position [p] in the array, passed by
    reference, the array, and the fields. *)
Record Cursor : Type := mkCursor
  { c_p : Z;
    c_udata : Buffer;
    c_mem : Memory }.

(** What the codec needs from the rest of the library, none of it among the
    sources.
    - [fresh2 q], [fresh3 q]: the contents of the block [allocate()] obtains
      for the field at [q]; they are whatever the allocator hands out.
    - [lower2], [lower3], [raise2], [raise3]: the arithmetic of
      [toCovariant()] and [toContravariant()] on the three components
      (contraction with the metric tensor, [vector2d.cxx], [vector3d.cxx]).
    - [interp_to] ([interpolation.hxx]).
    - [run_rhs] ([solver.cxx]): calls the user's residual function on the
      unpacked fields and accounts for the call in the two performance
      counters [rhs_ncalls] and [rhs_wtime]; it has no access to the output
      schedule. *)
Record Library : Type := mkLibrary
  { fresh2 : Field2D_ptr -> Z -> Z -> BoutReal;
    fresh3 : Field3D_ptr -> Z -> Z -> Z -> BoutReal;
    lower2 : Field2D * Field2D * Field2D -> Field2D * Field2D * Field2D;
    raise2 : Field2D * Field2D * Field2D -> Field2D * Field2D * Field2D;
    lower3 : Field3D * Field3D * Field3D -> Field3D * Field3D * Field3D;
    raise3 : Field3D * Field3D * Field3D -> Field3D * Field3D * Field3D;
    interp_to : Field3D -> CELL_LOC -> Field3D;
    run_rhs : BoutReal -> Z * BoutReal -> Memory -> Z * (Z * BoutReal) * Memory }.

(** The scalar members of [PetscSolver] that [rhs], [run] and [PreStep]
    read or write. *)
Record PetscSolver : Type := mkPetscSolver
  { simtime : BoutReal;
    next_time : BoutReal;
    tstep : BoutReal;
    nout : Z;
    iteration : Z;
    rhs_ncalls : Z;
    rhs_wtime : BoutReal;
    outputnext : bool }.

(** The part of a PETSc [TS] that [TSGetTime] and [TSGetTimeStep] read; only
    [TSSetTimeStep], which the code never calls, writes [ts_time_step]. *)
Record TS : Type := mkTS
  { ts_time : BoutReal;
    ts_time_step : BoutReal }.

Section Codec.

Variable lib : Library.
Variable mesh : Mesh.
Variable reg : Registry.

(** **** [PetscSolver::loop_vars_op] *)

(** The body of the innermost loops: one cell is copied and [p] advances.
    [udata[p] = d[..]] for the two saving operations, [d[..] = udata[p]] for
    loading. *)
Definition copy_in (a : Address) (c : Cursor) : Res Cursor :=
  m <- poke (c_mem c) a (c_udata c (c_p c)) ;;
  Ok (mkCursor (c_p c + 1) (c_udata c) m).

Definition copy_out (a : Address) (c : Cursor) : Res Cursor :=
  x <- peek (c_mem c) a ;;
  Ok (mkCursor (c_p c + 1) (buffer_set (c_udata c) (c_p c) x) (c_mem c)).

Definition loop_vars_op (jx jy : Z) (op : SOLVER_VAR_OP) (c : Cursor)
    : Res Cursor :=
  match op with
  | LOAD_VARS =>
      c <- for_each (fun v => copy_in (At2 (var v) jx jy)) (f2d reg) c ;;
      for_each
        (fun jz => for_each (fun v => copy_in (At3 (var v) jx jy jz)) (f3d reg))
        (zrange 0 (ngz mesh - 1)) c
  | SAVE_VARS =>
      c <- for_each (fun v => copy_out (At2 (var v) jx jy)) (f2d reg) c ;;
      for_each
        (fun jz => for_each (fun v => copy_out (At3 (var v) jx jy jz)) (f3d reg))
        (zrange 0 (ngz mesh - 1)) c
  | SAVE_DERIVS =>
      c <- for_each (fun v => copy_out (At2 (F_var v) jx jy)) (f2d reg) c ;;
      for_each
        (fun jz => for_each (fun v => copy_out (At3 (F_var v) jx jy jz)) (f3d reg))
        (zrange 0 (ngz mesh - 1)) c
  end.

(** **** [PetscSolver::loop_vars] *)

Definition loop_vars (udata : Buffer) (op : SOLVER_VAR_OP) (m : Memory)
    : Res (Buffer * Memory) :=
  let c := mkCursor 0 udata m in
  let MYSUB := yend mesh - ystart mesh + 1 in
  (* Inner X boundary *)
  c <- (if firstX mesh then
          for_each
            (fun jx => for_each
               (fun jy => loop_vars_op jx (jy + ystart mesh) op)
               (zrange 0 MYSUB))
            (zrange 0 (xstart mesh)) c
        else Ok c) ;;
  (* Lower Y boundary region *)
  c <- for_each
         (fun ind => for_each (fun jy => loop_vars_op ind jy op)
                       (zrange 0 (ystart mesh)))
         (iterateBndryLowerY mesh) c ;;
  (* Bulk of points *)
  c <- for_each
         (fun jx => for_each (fun jy => loop_vars_op jx jy op)
                      (zrange (ystart mesh) (yend mesh + 1)))
         (zrange (xstart mesh) (xend mesh + 1)) c ;;
  (* Upper Y boundary condition *)
  c <- for_each
         (fun ind => for_each (fun jy => loop_vars_op ind jy op)
                       (zrange (yend mesh + 1) (ngy mesh)))
         (iterateBndryUpperY mesh) c ;;
  (* Outer X boundary *)
  c <- (if lastX mesh then
          for_each
            (fun jx => for_each (fun jy => loop_vars_op jx jy op)
                         (zrange (ystart mesh) (yend mesh + 1)))
            (zrange (xend mesh + 1) (ngx mesh)) c
        else Ok c) ;;
  Ok (c_udata c, c_mem c).

(** **** Field and vector methods the codec calls *)

(** [allocate()] does nothing to a field that has storage. *)
Definition allocate2 (q : Field2D_ptr) (m : Memory) : Memory :=
  let f := deref2 m q in
  match data2 f with
  | Some _ => m
  | None => store2 m q (mkField2D (Some (fresh2 lib q)) (location2 f))
  end.

Definition allocate3 (q : Field3D_ptr) (m : Memory) : Memory :=
  let f := deref3 m q in
  match data3 f with
  | Some _ => m
  | None => store3 m q (mkField3D (Some (fresh3 lib q)) (location3 f))
  end.

Definition setLocation3 (q : Field3D_ptr) (loc : CELL_LOC) (m : Memory)
    : Memory :=
  store3 m q (Field3D_setLocation (deref3 m q) loc).

(** [v->covariant = flag] *)
Definition set_covariant2 (v : nat) (flag : bool) (m : Memory) : Memory :=
  let w := vectors2 m v in
  set_vectors2 m v (mkVector2D (v2x w) (v2y w) (v2z w) flag).

Definition set_covariant3 (v : nat) (flag : bool) (m : Memory) : Memory :=
  let w := vectors3 m v in
  set_vectors3 m v (mkVector3D (v3x w) (v3y w) (v3z w) flag).

(** Modelled from the spec: [toCovariant()] and [toContravariant()] are
    missing.  They reconcile the components with the requested basis: a
    vector already in that basis is not touched, another one has its
    components converted and its flag set. *)
Definition toCovariant2 (v : nat) (m : Memory) : Memory :=
  let w := vectors2 m v in
  if covariant2 w then m
  else let '(gx, gy, gz) := lower2 lib (v2x w, v2y w, v2z w) in
       set_vectors2 m v (mkVector2D gx gy gz true).

Definition toContravariant2 (v : nat) (m : Memory) : Memory :=
  let w := vectors2 m v in
  if covariant2 w
  then let '(gx, gy, gz) := raise2 lib (v2x w, v2y w, v2z w) in
       set_vectors2 m v (mkVector2D gx gy gz false)
  else m.

Definition toCovariant3 (v : nat) (m : Memory) : Memory :=
  let w := vectors3 m v in
  if covariant3 w then m
  else let '(gx, gy, gz) := lower3 lib (v3x w, v3y w, v3z w) in
       set_vectors3 m v (mkVector3D gx gy gz true).

Definition toContravariant3 (v : nat) (m : Memory) : Memory :=
  let w := vectors3 m v in
  if covariant3 w
  then let '(gx, gy, gz) := raise3 lib (v3x w, v3y w, v3z w) in
       set_vectors3 m v (mkVector3D gx gy gz false)
  else m.

(** [if(declared) v->toCovariant(); else v->toContravariant();] *)
Definition to_basis2 (declared : bool) (v : nat) (m : Memory) : Memory :=
  if declared then toCovariant2 v m else toContravariant2 v m.

Definition to_basis3 (declared : bool) (v : nat) (m : Memory) : Memory :=
  if declared then toCovariant3 v m else toContravariant3 v m.

(** **** [PetscSolver::load_vars] *)

Definition load_vars (udata : Buffer) (m : Memory) : Res Memory :=
  (* Make sure data is allocated *)
  let m := fold_left (fun m v => allocate2 (var v) m) (f2d reg) m in
  let m := fold_left
             (fun m v => setLocation3 (var v) (location v)
                           (allocate3 (var v) m))
             (f3d reg) m in
  r <- loop_vars udata LOAD_VARS m ;;
  let m := snd r in
  (* Mark each vector as either co- or contra-variant *)
  let m := fold_left (fun m v => set_covariant2 (var v) (covariant v) m)
                     (v2d reg) m in
  let m := fold_left (fun m v => set_covariant3 (var v) (covariant v) m)
                     (v3d reg) m in
  Ok m.

(** **** [PetscSolver::save_vars] *)

Definition is_null {A : Type} (d : option A) : bool :=
  match d with
  | Some _ => false
  | None => true
  end.

(** The result is the returned [int] with the array and the fields as the
    call leaves them. *)
Definition save_vars (udata : Buffer) (m : Memory)
    : Res (Z * (Buffer * Memory)) :=
  if existsb (fun v => is_null (data2 (deref2 m (var v)))) (f2d reg)
  then Ok (1, (udata, m))
  else if existsb (fun v => is_null (data3 (deref3 m (var v)))) (f3d reg)
  then Ok (1, (udata, m))
  else
    (* Make sure vectors in correct basis *)
    let m := fold_left (fun m v => to_basis2 (covariant v) (var v) m)
                       (v2d reg) m in
    let m := fold_left (fun m v => to_basis3 (covariant v) (var v) m)
                       (v3d reg) m in
    r <- loop_vars udata SAVE_VARS m ;;
    Ok (0, r).

(** **** [PetscSolver::save_derivs] *)

Definition save_derivs (dudata : Buffer) (m : Memory)
    : Res (Buffer * Memory) :=
  (* Make sure vectors in correct basis *)
  let m := fold_left (fun m v => to_basis2 (covariant v) (F_var v) m)
                     (v2d reg) m in
  let m := fold_left (fun m v => to_basis3 (covariant v) (F_var v) m)
                     (v3d reg) m in
  (* Make sure 3D fields are at the correct cell location *)
  let m := fold_left
             (fun m it =>
                if CELL_LOC_eqb (location it)
                                (location3 (deref3 m (F_var it)))
                then m
                else store3 m (F_var it)
                       (interp_to lib (deref3 m (F_var it)) (location it)))
             (f3d reg) m in
  loop_vars dudata SAVE_DERIVS m.

(** **** [PetscSolver::rhs] *)

(** [t >= next_time] on [double]s. *)
Definition geb (a b : BoutReal) : bool := PrimFloat.leb b a.

(** The range of an [int], 32 bits in two's complement, and the [int] the
    machine holds for a result [z] of [int] arithmetic: [z] itself in the
    range, and [z] brought back into the range by a multiple of [2^32]
    out of it, so that [INT_MAX + 1] comes back as [INT_MIN]. *)
Definition INT_MIN : Z := -2147483648.
Definition INT_MAX : Z := 2147483647.

Definition int_wrap (z : Z) : Z := (z + 2 ^ 31) mod 2 ^ 32 - 2 ^ 31.

(** The two [Vec]s are their arrays.  The result is the returned error code
    with [dudata], the solver and the fields as the call leaves them.  The
    [flag] of [run_rhs] is assigned and not read again. *)
Definition rhs (t : BoutReal) (udata dudata : Buffer) (s : PetscSolver)
    (m : Memory) : Res (Z * Buffer * PetscSolver * Memory) :=
  (* Load state from PETSc *)
  m <- load_vars udata m ;;
  (* Call RHS function *)
  let '(flag, (ncalls, wtime), m) :=
    run_rhs lib t (rhs_ncalls s, rhs_wtime s) m in
  (* Save derivatives to PETSc *)
  r <- save_derivs dudata m ;;
  let '(dudata, m) := r in
  (* Update the simulation time *)
  let s := mkPetscSolver t (next_time s) (tstep s) (nout s) (iteration s)
                         ncalls wtime (outputnext s) in
  (* Decide whether to call the monitor *)
  if geb t (next_time s) then
    let s := mkPetscSolver (simtime s) (next_time s) (tstep s) (nout s)
                           (int_wrap (iteration s + 1))   (* iteration++ *)
                           0 0%float            (* rhs_ncalls, rhs_wtime *)
                           false                (* outputnext *) in
    let s := mkPetscSolver (simtime s)
                           (PrimFloat.add (simtime s) (tstep s))
                           (tstep s) (nout s) (iteration s)
                           (rhs_ncalls s) (rhs_wtime s) (outputnext s) in
    Ok (0, dudata, s, m)
  else Ok (0, dudata, s, m).

End Codec.

(** *** [PreStep] *)

(** [PreStep] reads the time and the step of [ts] into locals, and finds the
    solver through the application context.  The result is the returned
    error code with [ts] and the solver as the call leaves them; the clamped
    step is assigned to the local [dt] only. *)
Definition PreStep (ts : TS) (s : PetscSolver) : Z * TS * PetscSolver :=
  let t := ts_time ts in
  let dt := ts_time_step ts in
  if geb (PrimFloat.add t dt) (next_time s) then
    (* Going past next output time *)
    let dt := PrimFloat.sub (next_time s) t in
    (0, ts, mkPetscSolver (simtime s) (next_time s) (tstep s) (nout s)
                          (iteration s) (rhs_ncalls s) (rhs_wtime s) true)
  else
    (0, ts, mkPetscSolver (simtime s) (next_time s) (tstep s) (nout s)
                          (iteration s) (rhs_ncalls s) (rhs_wtime s) false).

(** *** The codec as the specification words it *)

(** One value in the flat vector: a registered 2D variable at a point of
    the poloidal plane, or a registered 3D variable at a point and a
    toroidal plane. *)
Inductive Slot : Type :=
| Slot2D (v : VarStr Field2D_ptr) (jx jy : Z)
| Slot3D (v : VarStr Field3D_ptr) (jx jy jz : Z).

(** The cell a slot stands for: of the variable itself when loading and
    saving, of its time derivative when saving derivatives. *)
Definition slot_address (op : SOLVER_VAR_OP) (s : Slot) : Address :=
  match s with
  | Slot2D v jx jy =>
      At2 (match op with SAVE_DERIVS => F_var v | _ => var v end) jx jy
  | Slot3D v jx jy jz =>
      At3 (match op with SAVE_DERIVS => F_var v | _ => var v end) jx jy jz
  end.

(** The innermost loop body, told by the slot it copies. *)
Definition slot_step (op : SOLVER_VAR_OP) (s : Slot) (c : Cursor)
    : Res Cursor :=
  match op with
  | LOAD_VARS => copy_in (slot_address op s) c
  | _ => copy_out (slot_address op s) c
  end.

(** The copy between position [k] of the flat vector and a slot. *)
Definition transfer (op : SOLVER_VAR_OP) (k : Z) (s : Slot)
    (st : Buffer * Memory) : Res (Buffer * Memory) :=
  let '(u, m) := st in
  match op with
  | LOAD_VARS => m' <- poke m (slot_address op s) (u k) ;; Ok (u, m')
  | _ => x <- peek m (slot_address op s) ;; Ok (buffer_set u k x, m)
  end.

(** The slots of a list go to consecutive positions from [k] on. *)
Fixpoint transfer_all (op : SOLVER_VAR_OP) (k : Z) (l : list Slot)
    (st : Buffer * Memory) : Res (Buffer * Memory) :=
  match l with
  | [] => Ok st
  | s :: l' => st' <- transfer op k s st ;; transfer_all op (k + 1) l' st'
  end.

(** Points [(a, jy)], the first index outer and the Y index inner. *)
Definition grid (outer ys : list Z) : list (Z * Z) :=
  flat_map (fun a => map (pair a) ys) outer.

Section Layout.

Variable mesh : Mesh.
Variable reg : Registry.

Definition inner_x_stripe : list (Z * Z) :=
  if firstX mesh
  then grid (zrange 0 (xstart mesh)) (zrange (ystart mesh) (yend mesh + 1))
  else [].

Definition lower_y_region : list (Z * Z) :=
  grid (iterateBndryLowerY mesh) (zrange 0 (ystart mesh)).

Definition bulk : list (Z * Z) :=
  grid (zrange (xstart mesh) (xend mesh + 1))
       (zrange (ystart mesh) (yend mesh + 1)).

Definition upper_y_region : list (Z * Z) :=
  grid (iterateBndryUpperY mesh) (zrange (yend mesh + 1) (ngy mesh)).

Definition outer_x_stripe : list (Z * Z) :=
  if lastX mesh
  then grid (zrange (xend mesh + 1) (ngx mesh))
            (zrange (ystart mesh) (yend mesh + 1))
  else [].

(** The canonical traversal order, items 1 to 5. *)
Definition traversal : list (Z * Z) :=
  inner_x_stripe ++ lower_y_region ++ bulk ++ upper_y_region
  ++ outer_x_stripe.

(** The toroidal planes are [0 .. planes-1]; the last of the [ngz] points
    in Z repeats the first and is not evolved. *)
Definition planes : Z := ngz mesh - 1.

(** Within a point: the 2D variables, then plane by plane the 3D ones. *)
Definition point_slots (pt : Z * Z) : list Slot :=
  let '(jx, jy) := pt in
  map (fun v => Slot2D v jx jy) (f2d reg)
  ++ flat_map (fun jz => map (fun v => Slot3D v jx jy jz) (f3d reg))
              (zrange 0 planes).

Definition layout : list Slot := flat_map point_slots traversal.

(** The number of values per point: one for each 2D variable and [planes]
    for each 3D variable. *)
Definition point_size : nat :=
  (length (f2d reg) + Z.to_nat planes * length (f3d reg))%nat.

(** The registered variables all have storage. *)
Definition all_allocated (m : Memory) : Prop :=
  (forall v, In v (f2d reg) -> data2 (deref2 m (var v)) <> None)
  /\ (forall v, In v (f3d reg) -> data3 (deref3 m (var v)) <> None).

Definition some_unallocated (m : Memory) : Prop :=
  (exists v, In v (f2d reg) /\ data2 (deref2 m (var v)) = None)
  \/ (exists v, In v (f3d reg) /\ data3 (deref3 m (var v)) = None).

(** Every registered vector is in the basis it was declared in. *)
Definition declared_basis (m : Memory) : Prop :=
  (forall v, In v (v2d reg) -> covariant2 (vectors2 m (var v)) = covariant v)
  /\ (forall v, In v (v3d reg) ->
        covariant3 (vectors3 m (var v)) = covariant v).

End Layout.

End Petsc.

(** ** A small world to run the code in *)

Module Example.
Import Bout.

(** Small whole numbers as [double]s. *)
Fixpoint real_of_nat (n : nat) : BoutReal :=
  match n with
  | O => 0%float
  | S k => PrimFloat.add (real_of_nat k) 1%float
  end.

Definition real_of_Z (z : Z) : BoutReal :=
  if z <? 0 then PrimFloat.opp (real_of_nat (Z.to_nat (- z)))
  else real_of_nat (Z.to_nat z).

(** *** Fields that are uniform in space, on a unit grid *)

Definition uniform3 (val : BoutReal) (loc : CELL_LOC) : Field3D :=
  mkField3D (Some (fun _ _ _ => val)) loc.

Definition lift33 (op : BoutReal -> BoutReal -> BoutReal) (a b : Field3D)
    : Field3D :=
  mkField3D
    (match data3 a, data3 b with
     | Some f, Some g => Some (fun x y z => op (f x y z) (g x y z))
     | _, _ => None
     end)
    (location3 a).

Definition lift32 (op : BoutReal -> BoutReal -> BoutReal) (a : Field3D)
    (b : Field2D) : Field3D :=
  mkField3D
    (match data3 a, data2 b with
     | Some f, Some g => Some (fun x y z => op (f x y z) (g x y))
     | _, _ => None
     end)
    (location3 a).

Definition lift23 (op : BoutReal -> BoutReal -> BoutReal) (a : Field2D)
    (b : Field3D) : Field3D :=
  mkField3D
    (match data2 a, data3 b with
     | Some f, Some g => Some (fun x y z => op (f x y) (g x y z))
     | _, _ => None
     end)
    (location3 b).

Definition lift22 (op : BoutReal -> BoutReal -> BoutReal) (a b : Field2D)
    : Field2D :=
  mkField2D
    (match data2 a, data2 b with
     | Some f, Some g => Some (fun x y => op (f x y) (g x y))
     | _, _ => None
     end)
    (location2 a).

(** Interpolating a field that is uniform in space to another location
    leaves its values and moves its tag; a field already there, or a request
    for the default location, is returned as it is. *)
Definition relocate (f : Field3D) (loc : CELL_LOC) : Field3D :=
  if CELL_LOC_eqb loc CELL_DEFAULT || CELL_LOC_eqb (location3 f) loc then f
  else mkField3D (data3 f) loc.

(** Point by point arithmetic of [double]s. *)
Definition pointwise : Derivs.FieldOps :=
  Derivs.mkFieldOps
    (lift33 PrimFloat.add) (lift33 PrimFloat.sub)
    (lift23 PrimFloat.mul) (lift32 PrimFloat.mul)
    (lift32 PrimFloat.div)
    (fun a r => lift32 PrimFloat.div a (Field2D_real r))
    (lift22 PrimFloat.add) (lift22 PrimFloat.mul) (lift22 PrimFloat.div)
    relocate.

(** The index-space derivatives of a field that is uniform in space vanish;
    the result sits where the operand is. *)
Definition zero_like3 (f : Field3D) : Field3D :=
  mkField3D (option_map (fun _ => fun _ _ _ => 0%float) (data3 f))
            (location3 f).

Definition zero_like2 (f : Field2D) : Field2D :=
  mkField2D (option_map (fun _ => fun _ _ => 0%float) (data2 f))
            (location2 f).

Definition Field_zero3 (f : Field) : Field3D :=
  match f with
  | F2 g => mkField3D (option_map (fun _ => fun _ _ _ => 0%float) (data2 g))
                      (location2 g)
  | F3 g => zero_like3 g
  end.

(** Unit spacing, uniform grid, and nine different Christoffel symbols
    [Gk_i3 = 10*k + i]. *)
Definition unit_coordinates : Derivs.Coordinates :=
  Derivs.mkCoordinates
    (Field2D_real 1%float) (Field2D_real 1%float) 1%float
    false
    (Field2D_real 0%float) (Field2D_real 0%float)
    (Field2D_real (real_of_Z 11)) (Field2D_real (real_of_Z 12))
    (Field2D_real (real_of_Z 13))
    (Field2D_real (real_of_Z 21)) (Field2D_real (real_of_Z 22))
    (Field2D_real (real_of_Z 23))
    (Field2D_real (real_of_Z 31)) (Field2D_real (real_of_Z 32))
    (Field2D_real (real_of_Z 33))
    (Field2D_real 0%float)
    zero_like2 zero_like2.

Definition uniform_mesh : Derivs.Mesh :=
  Derivs.mkMesh unit_coordinates false
    (fun f _ _ => zero_like3 f) (fun f _ _ => zero_like3 f)
    (fun f _ _ _ => zero_like3 f)
    zero_like2 zero_like2
    (fun f _ _ => zero_like3 f) (fun f _ _ => zero_like3 f)
    (fun f _ _ _ => zero_like3 f)
    zero_like2 zero_like2
    (fun _ f _ _ => zero_like2 f) (fun _ f _ _ => zero_like2 f)
    (fun _ f _ _ => Field_zero3 f) (fun _ f _ _ => Field_zero3 f)
    (fun _ f _ _ => Field_zero3 f)
    (fun _ f _ _ => zero_like2 f) (fun _ f _ _ => zero_like2 f)
    (fun _ f _ _ => zero_like3 f) (fun _ f _ _ => zero_like3 f)
    (fun _ f _ _ => zero_like3 f).


(** A 2D field on the lower X faces. *)
Definition f_xlow : Field2D := mkField2D (Some (fun _ _ => 1%float)) CELL_XLOW.

(** *** A registry on a small mesh *)

Import Petsc.

(** One interior block of 2 by 2 points with one guard cell on each side,
    two toroidal planes, on the only process in X. *)
Definition mesh : Mesh :=
  mkMesh 1 2 1 2 4 4 3 true true [1; 2] [1; 2].

(** One scalar 2D variable, one 2D vector declared covariant, whose three
    components are registered as scalars too, and one 3D variable.  The
    time derivatives live at the next index. *)
Definition reg : Registry :=
  mkRegistry
    [ mkVarStr (Ptr2 0) (Ptr2 1) CELL_CENTRE false;
      mkVarStr (Ptr2_x 0) (Ptr2_x 1) CELL_CENTRE false;
      mkVarStr (Ptr2_y 0) (Ptr2_y 1) CELL_CENTRE false;
      mkVarStr (Ptr2_z 0) (Ptr2_z 1) CELL_CENTRE false ]
    [ mkVarStr (Ptr3 0) (Ptr3 1) CELL_CENTRE false ]
    [ mkVarStr 0%nat 1%nat CELL_CENTRE true ]
    [].

Definition field2 (tag : Z) : Field2D :=
  mkField2D (Some (fun x y => real_of_Z (tag + 10 * x + y))) CELL_CENTRE.

Definition field3 (tag : Z) : Field3D :=
  mkField3D (Some (fun x y z => real_of_Z (tag + 100 * x + 10 * y + z)))
            CELL_CENTRE.

(** Every field has storage and a value of its own at each point; the
    vectors are covariant or not as [basis] says. *)
Definition fields (basis : bool) : Memory :=
  mkMemory
    (fun a => field2 (1000 * Z.of_nat a))
    (fun a => field3 (1000 * Z.of_nat a))
    (fun v => mkVector2D (field2 (100 + 1000 * Z.of_nat v))
                         (field2 (200 + 1000 * Z.of_nat v))
                         (field2 (300 + 1000 * Z.of_nat v)) basis)
    (fun v => mkVector3D (field3 (100 + 1000 * Z.of_nat v))
                         (field3 (200 + 1000 * Z.of_nat v))
                         (field3 (300 + 1000 * Z.of_nat v)) basis).

Definition scale2 (c : BoutReal) (f : Field2D) : Field2D :=
  lift22 PrimFloat.mul f (Field2D_real c).

Definition scale3 (c : BoutReal) (f : Field3D) : Field3D :=
  lift32 PrimFloat.mul f (Field2D_real c).

(** A metric [g_ij = 2 delta_ij]: lowering an index doubles a component,
    raising one halves it.  The user's residual function leaves the fields
    alone; a call costs a quarter of a second. *)
Definition lib : Library :=
  mkLibrary
    (fun _ _ _ => 0%float)
    (fun _ _ _ _ => 0%float)
    (fun '(x, y, z) => (scale2 2%float x, scale2 2%float y, scale2 2%float z))
    (fun '(x, y, z) =>
       (scale2 0.5%float x, scale2 0.5%float y, scale2 0.5%float z))
    (fun '(x, y, z) => (scale3 2%float x, scale3 2%float y, scale3 2%float z))
    (fun '(x, y, z) =>
       (scale3 0.5%float x, scale3 0.5%float y, scale3 0.5%float z))
    relocate
    (fun _ counters m =>
       (0, (fst counters + 1, PrimFloat.add (snd counters) 0.25%float), m)).

Definition zeros : Buffer := fun _ => 0%float.

(** A solver that is to write its next output at time 2, every 1. *)
Definition solver : PetscSolver :=
  mkPetscSolver 0%float 2%float 1%float 10 0 5 0.75%float false.

(** What a run leaves behind. *)
Definition res_map {A B : Type} (f : A -> B) (r : Res A) : Res B :=
  bind r (fun a => Ok (f a)).

Definition solver_of (r : Z * Buffer * PetscSolver * Memory) : PetscSolver :=
  snd (fst r).

(** One residual evaluation at time 3, past the output time 2. *)
Definition rhs_result : Z * Buffer * PetscSolver * Memory :=
  match rhs lib mesh reg 3%float zeros zeros solver (fields true) with
  | Ok r => r
  | Fault => (1, zeros, solver, fields true)
  end.

(** The fields with the 3D time derivative left on the lower X faces. *)
Definition fields_moved : Memory :=
  store3 (fields true) (Ptr3 1) (Field3D_setLocation (field3 1000) CELL_XLOW).

(** SAVE, then LOAD from the vector SAVE has filled. *)
Definition save_then_load (m : Memory) : Res Memory :=
  r <- save_vars lib mesh reg zeros m ;;
  load_vars lib mesh reg (fst (snd r)) (snd (snd r)).

End Example.

(** ** [src/sys/derivs.cxx]: fourth and mixed derivatives *)

Module Mixed.
Import Bout Derivs.
Import Petsc.
Open Scope res_scope.

(** What these operators need from the mesh beyond [Derivs.Mesh]: the
    index-space fourth derivatives, the exchange of guard cells
    ([mesh->communicate], which returns the field with its guard cells
    filled), the interior index ranges and the number of points in Z. *)
Record MeshMore : Type := mkMeshMore
  { indexD4DX4 : Field3D -> Field3D;
    indexD4DY4 : Field3D -> Field3D;
    indexD4DZ4 : Field3D -> Field3D;
    indexD4DX4_2D : Field2D -> Field2D;
    indexD4DY4_2D : Field2D -> Field2D;
    communicate : Field3D -> Field3D;
    communicate_2D : Field2D -> Field2D;
    xstart : Z; xend : Z; ystart : Z; yend : Z;
    LocalNz : Z }.

Section MoreOperators.

Variable ops : FieldOps.
Variable mesh : Derivs.Mesh.
Variable more : MeshMore.

(** *** Fourth derivatives *)

Definition D4DX4 (f : Field3D) : Field3D :=
  div32 ops (indexD4DX4 more f) (SQ ops (SQ ops (dx (coordinates mesh)))).

Definition D4DX4_2D (f : Field2D) : Field2D :=
  div22 ops (indexD4DX4_2D more f) (SQ ops (SQ ops (dx (coordinates mesh)))).

Definition D4DY4 (f : Field3D) : Field3D :=
  div32 ops (indexD4DY4 more f) (SQ ops (SQ ops (dy (coordinates mesh)))).

Definition D4DY4_2D (f : Field2D) : Field2D :=
  div22 ops (indexD4DY4_2D more f) (SQ ops (SQ ops (dy (coordinates mesh)))).

(** [SQ(SQ(dz))] on a number. *)
Definition D4DZ4 (f : Field3D) : Field3D :=
  let dz2 := PrimFloat.mul (dz (coordinates mesh)) (dz (coordinates mesh)) in
  div3r ops (indexD4DZ4 more f) (PrimFloat.mul dz2 dz2).

(** *** Mixed derivatives *)

(** The calls of [DDY] and [DDX] with one argument take the defaults
    [CELL_DEFAULT] and [DIFF_DEFAULT]. *)
Definition D2DXDY_2D (f : Field2D) : Field2D :=
  let dfdy := DDY_2D mesh f in
  let dfdy := communicate_2D more dfdy in
  DDX_2D mesh dfdy.

Definition D2DXDY (f : Field3D) : Field3D :=
  let dfdy := DDY ops mesh f CELL_DEFAULT DIFF_DEFAULT in
  let dfdy := communicate more dfdy in
  DDX ops mesh dfdy CELL_DEFAULT DIFF_DEFAULT.

Definition D2DXDZ_2D (f : Field2D) : Field2D := Field2D_real 0%float.

(** [DDX(DDZ(f, true))]: the Z derivative includes the X boundaries. *)
Definition D2DXDZ (f : Field3D) : Field3D :=
  DDX ops mesh (DDZ_xbndry ops mesh f true) CELL_DEFAULT DIFF_DEFAULT.

Definition D2DYDZ_2D (f : Field2D) : Field2D := Field2D_real 0%float.

(** *** [D2DYDZ] on 3D fields: the four-point stencil *)

(** [f(i,j,k)] and [dy(i,j)]: indexing a field without storage is a
    fault. *)
Definition read3 (f : Field3D) (i j k : Z) : Res BoutReal :=
  match data3 f with
  | Some d => Ok (d i j k)
  | None => Fault
  end.

Definition read2 (f : Field2D) (i j : Z) : Res BoutReal :=
  match data2 f with
  | Some d => Ok (d i j)
  | None => Fault
  end.

(** [result(i,j,k) = val] on the storage of the result. *)
Definition set3 (r : Z -> Z -> Z -> BoutReal) (i j k : Z) (val : BoutReal)
    : Z -> Z -> Z -> BoutReal :=
  fun x y z => if (x =? i) && (y =? j) && (z =? k) then val else r x y z.

(** The body of the innermost loop.  [%] on [int]s is [Z.rem]. *)
Definition D2DYDZ_point (f : Field3D) (i j k : Z)
    (result : Z -> Z -> Z -> BoutReal) : Res (Z -> Z -> Z -> BoutReal) :=
  let kp := Z.rem (k + 1) (LocalNz more) in
  let km := Z.rem (k - 1 + LocalNz more) (LocalNz more) in
  f_jp_kp <- read3 f i (j + 1) kp ;;
  f_jm_kp <- read3 f i (j - 1) kp ;;
  dy_jp <- read2 (dy (coordinates mesh)) i (j + 1) ;;
  f_jp_km <- read3 f i (j + 1) km ;;
  f_jm_km <- read3 f i (j - 1) km ;;
  dy_jm <- read2 (dy (coordinates mesh)) i (j - 1) ;;
  Ok (set3 result i j k
        (PrimFloat.div
           (PrimFloat.mul 0.25%float
              (PrimFloat.sub
                 (PrimFloat.div (PrimFloat.sub f_jp_kp f_jm_kp) dy_jp)
                 (PrimFloat.div (PrimFloat.sub f_jp_km f_jm_km) dy_jm)))
           (dz (coordinates mesh)))).

(** Modelled from the spec: the default constructor of [Field3D]
    ([field3d.cxx]) is missing; a new field has no storage and sits at the
    cell centre.  [fresh] is what the block [result.allocate()] obtains
    holds before the loops write to it. *)
Definition Field3D_default : Field3D := mkField3D None CELL_CENTRE.

Definition D2DYDZ (fresh : Z -> Z -> Z -> BoutReal) (f : Field3D)
    : Res Field3D :=
  let result := Field3D_default in
  let result := mkField3D (Some fresh) (location3 result) in
  r <- for_each
         (fun i => for_each
            (fun j => for_each (fun k => D2DYDZ_point f i j k)
                        (zrange 0 (LocalNz more)))
            (zrange (ystart more) (yend more + 1)))
         (zrange (xstart more) (xend more + 1)) fresh ;;
  Ok (mkField3D (Some r) (location3 result)).

End MoreOperators.

(** *** The stencil as a formula *)

(** The Z neighbours of plane [k], with the wrap-around written out. *)
Definition z_next (Nz k : Z) : Z := if k + 1 <? Nz then k + 1 else 0.
Definition z_prev (Nz k : Z) : Z := if k =? 0 then Nz - 1 else k - 1.

(** [0.25 * ((f(j+1,k+) - f(j-1,k+)) / dy(j+1)
            - (f(j+1,k-) - f(j-1,k-)) / dy(j-1)) / dz] *)
Definition stencil (d : Z -> Z -> Z -> BoutReal) (h : Z -> Z -> BoutReal)
    (dz : BoutReal) (Nz i j k : Z) : BoutReal :=
  PrimFloat.div
    (PrimFloat.mul 0.25%float
       (PrimFloat.sub
          (PrimFloat.div
             (PrimFloat.sub (d i (j + 1) (z_next Nz k))
                            (d i (j - 1) (z_next Nz k)))
             (h i (j + 1)))
          (PrimFloat.div
             (PrimFloat.sub (d i (j + 1) (z_prev Nz k))
                            (d i (j - 1) (z_prev Nz k)))
             (h i (j - 1)))))
    dz.

(** The points the loops go through. *)
Definition interior (more : MeshMore) (i j k : Z) : Prop :=
  xstart more <= i <= xend more
  /\ ystart more <= j <= yend more
  /\ 0 <= k < LocalNz more.

End Mixed.

(** A 2 x 2 interior with three planes on the unit grid of [Example], and a
    field whose value at [(i, j, k)] is [j * k]. *)
Module MixedExample.
Import Bout Mixed.

Definition more : MeshMore :=
  mkMeshMore (fun f => f) (fun f => f) (fun f => f) (fun f => f) (fun f => f)
             (fun f => f) (fun f => f) 1 2 1 2 3.

Definition values (i j k : Z) : BoutReal := Example.real_of_Z (j * k).

Definition f : Field3D := mkField3D (Some values) CELL_XLOW.

Definition spacing (i j : Z) : BoutReal := 1%float.

Definition fresh (i j k : Z) : BoutReal := 0%float.

(** The same values on the interior X range and the planes 0, 1 and 2, other
    values in the X guard cells and on the planes out of that range, and
    another location. *)
Definition values' (i j k : Z) : BoutReal :=
  if (i <? 1) || (2 <? i) || (k <? 0) || (3 <=? k) then 7%float
  else Example.real_of_Z (j * k).

Definition f' : Field3D := mkField3D (Some values') CELL_CENTRE.

End MixedExample.

(** ** [field_data.cxx]: boundary operations and generators of a field *)

Module Boundary.
Import Petsc.
Import String.StringSyntax.
Delimit Scope string_scope with string.
Open Scope res_scope.

(** What is written to [output]: texts and [endl]. *)
Inductive Token : Type :=
  | Text (s : String.string)
  | Endl.

Definition Output : Type := list Token.

(** The classes of the headers, which are not part of this file.  The
    types stand for pointers to live objects ([NULL] is [None] wherever the
    code tests for it); [getBoundaries] and [getBoundariesPar] are the
    regions of the mesh, [location] is [reg->location], [bndry] is
    [op->bndry], [createFromOptions] is the factory's method on a region
    and on a parallel region, [FieldFunction] is
    [new FieldFunction(userfunc)]. *)
Record Interface : Type := mkInterface
  { BoundaryRegion : Type;
    BoundaryRegionPar : Type;
    BoundaryOp : Type;
    BoundaryOpPar : Type;
    FieldGenerator : Type;
    FuncPtr : Type;
    BndryLoc : Type;
    BNDRY_ALL : BndryLoc;
    BndryLoc_eqb : BndryLoc -> BndryLoc -> bool;
    BoundaryRegion_eqb : BoundaryRegion -> BoundaryRegion -> bool;
    getBoundaries : list BoundaryRegion;
    getBoundariesPar : list BoundaryRegionPar;
    location : BoundaryRegion -> BndryLoc;
    bndry : BoundaryOp -> BoundaryRegion;
    createFromOptions : String.string -> BoundaryRegion -> option BoundaryOp;
    createFromOptions_par :
      String.string -> BoundaryRegionPar -> option BoundaryOpPar;
    FieldFunction : FuncPtr -> FieldGenerator }.

(** The members of [FieldData] this file uses.  [bndry_generator] is a
    [std::map<BndryLoc, FieldGenerator*>]: a location has no entry, or an
    entry that holds a pointer, which may be null. *)
Record FieldData (w : Interface) : Type := mkFieldData
  { bndry_op : list (BoundaryOp w);
    bndry_op_par : list (BoundaryOpPar w);
    boundaryIsCopy : bool;
    boundaryIsSet : bool;
    bndry_generator : BndryLoc w -> option (option (FieldGenerator w)) }.

Section Methods.

Variable w : Interface.

(** [FieldData::FieldData()] *)
Definition FieldData_new : FieldData w :=
  mkFieldData w [] [] false true (fun _ => None).

(** [FieldData::~FieldData()]: the pointers handed to [delete], in
    order. *)
Definition FieldData_delete (fd : FieldData w) : list (BoundaryOp w) :=
  if negb (boundaryIsCopy fd) then bndry_op fd else [].

(** [setBoundary(const string &name)] *)
Definition setBoundary (name : String.string) (fd : FieldData w)
    (output : Output) : FieldData w * Output :=
  let output :=
    output ++ [Text "Setting boundary for variable "%string; Text name; Endl] in
  let '(ops, output) :=
    fold_left
      (fun '(ops, output) reg =>
         let op := createFromOptions w name reg in
         let ops := match op with
                    | Some o => ops ++ [o]
                    | None => ops
                    end in
         (ops, output ++ [Endl]))
      (getBoundaries w) (bndry_op fd, output) in
  let '(ops_par, output) :=
    fold_left
      (fun '(ops, output) reg =>
         let op := createFromOptions_par w name reg in
         let ops := match op with
                    | Some o => ops ++ [o]
                    | None => ops
                    end in
         (ops, output ++ [Endl]))
      (getBoundariesPar w) (bndry_op_par fd, output) in
  (mkFieldData w ops ops_par false true (bndry_generator fd), output).

(** [setBoundary(const string &region, BoundaryOp *op)]: [op->bndry] is
    read once for each operation the field has. *)
Definition setBoundary_op (region : String.string)
    (op : option (BoundaryOp w)) (fd : FieldData w) (output : Output)
    : Res (FieldData w * Output) :=
  output <- for_each
              (fun b output =>
                 match op with
                 | None => Fault
                 | Some o =>
                     if BoundaryRegion_eqb w (bndry w b) (bndry w o)
                     then Ok (output ++ [Text "Replacing "%string])
                     else Ok output
                 end)
              (bndry_op fd) output ;;
  Ok (fd, output).

(** [copyBoundary(const FieldData &f)] *)
Definition copyBoundary (f : FieldData w) (fd : FieldData w) : FieldData w :=
  mkFieldData w (bndry_op f) (bndry_op_par f) true true (bndry_generator fd).

(** [bndry_generator[key] = gen] *)
Definition assign_generator (key : BndryLoc w)
    (gen : option (FieldGenerator w)) (fd : FieldData w) : FieldData w :=
  mkFieldData w (bndry_op fd) (bndry_op_par fd)
    (boundaryIsCopy fd) (boundaryIsSet fd)
    (fun k => if BndryLoc_eqb w k key then Some gen
              else bndry_generator fd k).

(** [addBndryGenerator(FieldGenerator* gen, BndryLoc location)] *)
Definition addBndryGenerator (gen : option (FieldGenerator w))
    (loc : BndryLoc w) (fd : FieldData w) : FieldData w :=
  if BndryLoc_eqb w loc (BNDRY_ALL w)
  then fold_left (fun fd reg => assign_generator (location w reg) gen fd)
         (getBoundaries w) fd
  else assign_generator loc gen fd.

(** [addBndryFunction(FuncPtr userfunc, BndryLoc location)] *)
Definition addBndryFunction (userfunc : FuncPtr w) (loc : BndryLoc w)
    (fd : FieldData w) : FieldData w :=
  addBndryGenerator (Some (FieldFunction w userfunc)) loc fd.

(** [getBndryGenerator(BndryLoc location)]; [None] is the null pointer. *)
Definition getBndryGenerator (loc : BndryLoc w) (fd : FieldData w)
    : option (FieldGenerator w) :=
  match bndry_generator fd loc with
  | None => None
  | Some second => second
  end.

(** *** For the statements *)

(** The operations the factory makes for a list of regions, in the order
    of the regions; a region for which it returns [NULL] gives none. *)
Definition created {R O : Type} (create : R -> option O) (regs : list R)
    : list O :=
  flat_map (fun reg => match create reg with
                       | Some o => [o]
                       | None => []
                       end) regs.

(** The comparison of locations decides equality. *)
Definition BndryLoc_eqb_decides : Prop :=
  forall a b : BndryLoc w, BndryLoc_eqb w a b = true <-> a = b.

End Methods.

End Boundary.

(** Three regions at the locations 1, 2 and 4, the factory having nothing
    for the second; pointers are numbers. *)
Module BoundaryExample.
Import Boundary.

Definition w : Interface :=
  mkInterface (BoundaryRegion := Z) (BoundaryRegionPar := Z) (BoundaryOp := Z)
    (BoundaryOpPar := Z) (FieldGenerator := Z) (FuncPtr := Z) (BndryLoc := Z)
    15 Z.eqb Z.eqb
    [1; 2; 4] [16]
    (fun reg => reg)
    (fun op => op / 10)
    (fun _ reg => if reg =? 2 then None else Some (10 * reg))
    (fun _ reg => Some (10 * reg))
    (fun userfunc => userfunc + 100).

(** A field that owns the operations 10 and 40. *)
Definition donor : FieldData w :=
  mkFieldData w [10; 40] [160] false true (fun _ => None).

End BoundaryExample.

(** ** Conditions on the mesh and on the registry *)

Module Conditions.
Import Bout Petsc.

(** The index ranges of the mesh, [xstart .. xend] and [ystart .. yend],
    lie in the local grid of [ngx] by [ngy] points, and so do the indices
    the two boundary iterators give. *)
Definition mesh_in_grid (mesh : Mesh) : Prop :=
  0 <= xstart mesh <= xend mesh + 1 /\ xend mesh < ngx mesh
  /\ 0 <= ystart mesh <= yend mesh + 1 /\ yend mesh < ngy mesh
  /\ Forall (fun ind => 0 <= ind < ngx mesh) (iterateBndryLowerY mesh)
  /\ Forall (fun ind => 0 <= ind < ngx mesh) (iterateBndryUpperY mesh).

(** The interior ranges are not reversed, and a boundary iterator gives no
    index twice. *)
Definition regions_separate (mesh : Mesh) : Prop :=
  xstart mesh <= xend mesh + 1 /\ ystart mesh <= yend mesh + 1
  /\ NoDup (iterateBndryLowerY mesh) /\ NoDup (iterateBndryUpperY mesh).

(** No field is registered twice. *)
Definition registered_once (reg : Registry) : Prop :=
  NoDup (map (@var Field2D_ptr) (f2d reg))
  /\ NoDup (map (@var Field3D_ptr) (f3d reg)).

(** A variable that is registered more than once is declared the same way
    each time. *)
Definition declared_consistently (reg : Registry) : Prop :=
  (forall v w, In v (f3d reg) -> In w (f3d reg) ->
     var v = var w -> location v = location w)
  /\ (forall v w, In v (v2d reg) -> In w (v2d reg) ->
        var v = var w -> covariant v = covariant w)
  /\ (forall v w, In v (v3d reg) -> In w (v3d reg) ->
        var v = var w -> covariant v = covariant w).

(** The time derivatives all have storage. *)
Definition derivs_allocated (reg : Registry) (m : Memory) : Prop :=
  (forall v, In v (f2d reg) -> data2 (deref2 m (F_var v)) <> None)
  /\ (forall v, In v (f3d reg) -> data3 (deref3 m (F_var v)) <> None).

(** The time derivatives are as declared: the vectors in their basis, the
    3D fields at their location. *)
Definition derivs_as_declared (reg : Registry) (m : Memory) : Prop :=
  (forall v, In v (v2d reg) ->
     covariant2 (vectors2 m (F_var v)) = covariant v)
  /\ (forall v, In v (v3d reg) ->
        covariant3 (vectors3 m (F_var v)) = covariant v)
  /\ (forall it, In it (f3d reg) ->
        location3 (deref3 m (F_var it)) = location it).

(** A time derivative that is registered more than once is declared at the
    same location each time. *)
Definition derivs_declared_consistently (reg : Registry) : Prop :=
  forall v w, In v (f3d reg) -> In w (f3d reg) ->
    F_var v = F_var w -> location v = location w.

(** [interp_to] returns a field at the location it is asked for, for the
    locations the registry declares. *)
Definition interp_to_delivers (lib : Library) (reg : Registry) : Prop :=
  forall it f, In it (f3d reg) ->
    location3 (interp_to lib f (location it)) = location it.

(** The number of points of the traversal, region by region. *)
Definition traversal_size (mesh : Mesh) : nat :=
  let MYSUB := Z.to_nat (yend mesh + 1 - ystart mesh) in
  ((if firstX mesh then Z.to_nat (xstart mesh) * MYSUB else 0)
   + length (iterateBndryLowerY mesh) * Z.to_nat (ystart mesh)
   + Z.to_nat (xend mesh + 1 - xstart mesh) * MYSUB
   + length (iterateBndryUpperY mesh) * Z.to_nat (ngy mesh - (yend mesh + 1))
   + (if lastX mesh then Z.to_nat (ngx mesh - (xend mesh + 1)) * MYSUB
      else 0))%nat.

End Conditions.

(** * Properties of the shared types *)

Module BoutTheory.
Import Bout.

Lemma CELL_LOC_eqb_spec (a b : CELL_LOC) : reflect (a = b) (CELL_LOC_eqb a b).
Proof. destruct a, b; constructor; congruence. Qed.

(** Two floats are different numbers when the float comparison separates
    them and the second one is not a NaN. *)
Lemma float_neq (a b : float) :
  PrimFloat.eqb a b = false -> PrimFloat.eqb b b = true -> a <> b.
Proof. intros Hab Hbb Heq. subst a. congruence. Qed.

End BoutTheory.

(** * Properties of the codec and of the driver *)

Module PetscTheory.
Import Bout BoutTheory Petsc.

(** ** Loops *)

Lemma bind_Ok {A : Type} (r : Res A) : bind r (@Ok A) = r.
Proof. destruct r; reflexivity. Qed.

Lemma bind_assoc {A B C : Type} (r : Res A) (f : A -> Res B) (g : B -> Res C) :
  bind (bind r f) g = bind r (fun a => bind (f a) g).
Proof. destruct r; reflexivity. Qed.

Lemma bind_congr {A B : Type} (r r' : Res A) (f f' : A -> Res B) :
  r = r' -> (forall a, f a = f' a) -> bind r f = bind r' f'.
Proof. intros -> Hf. destruct r'; simpl; [apply Hf | reflexivity]. Qed.

Lemma for_each_app {A S : Type} (body : A -> S -> Res S) (l1 l2 : list A) (s : S) :
  for_each body (l1 ++ l2) s
  = bind (for_each body l1 s) (for_each body l2).
Proof.
  revert s. induction l1 as [|a l1 IH]; intros s; simpl.
  - reflexivity.
  - destruct (body a s) as [s'|]; simpl; [apply IH | reflexivity].
Qed.

Lemma for_each_ext {A S : Type} (body body' : A -> S -> Res S) (l : list A) :
  (forall a s, body a s = body' a s) ->
  forall s, for_each body l s = for_each body' l s.
Proof.
  intros Hext. induction l as [|a l IH]; intros s; simpl.
  - reflexivity.
  - rewrite Hext. destruct (body' a s); simpl; [apply IH | reflexivity].
Qed.

Lemma for_each_map {A B S : Type} (f : A -> B) (body : B -> S -> Res S)
    (l : list A) (s : S) :
  for_each body (map f l) s = for_each (fun a => body (f a)) l s.
Proof.
  revert s. induction l as [|a l IH]; intros s; simpl.
  - reflexivity.
  - destruct (body (f a) s); simpl; [apply IH | reflexivity].
Qed.

(** A nested loop is one loop over the flattened index list. *)
Lemma for_each_flat_map {A B S : Type} (g : A -> list B)
    (body : B -> S -> Res S) (l : list A) (s : S) :
  for_each body (flat_map g l) s
  = for_each (fun a => for_each body (g a)) l s.
Proof.
  revert s. induction l as [|a l IH]; intros s; simpl.
  - reflexivity.
  - rewrite for_each_app.
    destruct (for_each body (g a) s); simpl; [apply IH | reflexivity].
Qed.

(** ** Counters *)

Lemma zrange_shift (lo hi : Z) :
  map (fun j => j + lo) (zrange 0 (hi - lo)) = zrange lo hi.
Proof.
  unfold zrange. rewrite map_map. rewrite Z.sub_0_r.
  apply map_ext. intros k. lia.
Qed.

Lemma length_zrange (lo hi : Z) : length (zrange lo hi) = Z.to_nat (hi - lo).
Proof. unfold zrange. now rewrite length_map, length_seq. Qed.

Lemma In_zrange (lo hi j : Z) : In j (zrange lo hi) <-> lo <= j < hi.
Proof.
  unfold zrange. rewrite in_map_iff. split.
  - intros [k [Hk Hin]]. apply in_seq in Hin. lia.
  - intros Hj. exists (Z.to_nat (j - lo)). split; [lia|].
    apply in_seq. lia.
Qed.

Lemma nth_error_zrange (lo hi : Z) (k : nat) :
  Z.of_nat k < hi - lo -> nth_error (zrange lo hi) k = Some (lo + Z.of_nat k).
Proof.
  intros Hk. unfold zrange. rewrite nth_error_map, nth_error_seq.
  destruct (Nat.ltb_spec k (Z.to_nat (hi - lo))); [reflexivity | lia].
Qed.

(** In a list of blocks of the same length [n], element [k] of block [i] is
    at index [i * n + k]. *)
Lemma nth_error_flat_map_blocks {A B : Type} (g : A -> list B) (n : nat)
    (l : list A) :
  (forall a, length (g a) = n) ->
  forall (i : nat) (a : A) (k : nat),
  nth_error l i = Some a -> (k < n)%nat ->
  nth_error (flat_map g l) (i * n + k) = nth_error (g a) k.
Proof.
  intros Hlen. induction l as [|x l IH]; intros i a k Hi Hk.
  - destruct i; discriminate.
  - destruct i as [|i]; simpl in Hi |- *.
    + injection Hi as ->. apply nth_error_app1. now rewrite Hlen.
    + rewrite nth_error_app2 by (rewrite Hlen; lia).
      rewrite Hlen. replace (n + i * n + k - n)%nat with (i * n + k)%nat by lia.
      now apply IH.
Qed.

(** ** Memory *)

Lemma Field2D_ptr_eq_dec (q q' : Field2D_ptr) : {q = q'} + {q <> q'}.
Proof. decide equality; apply Nat.eq_dec. Defined.

Lemma Field3D_ptr_eq_dec (q q' : Field3D_ptr) : {q = q'} + {q <> q'}.
Proof. decide equality; apply Nat.eq_dec. Defined.

Lemma Address_eq_dec (a a' : Address) : {a = a'} + {a <> a'}.
Proof.
  decide equality;
    solve [apply Z.eq_dec | apply Field2D_ptr_eq_dec | apply Field3D_ptr_eq_dec].
Defined.

Lemma update_same {A : Type} (h : nat -> A) (a : nat) (x : A) :
  update h a x a = x.
Proof. unfold update. now rewrite Nat.eqb_refl. Qed.

Lemma update_other {A : Type} (h : nat -> A) (a b : nat) (x : A) :
  a <> b -> update h a x b = h b.
Proof.
  intros Hne. unfold update.
  destruct (Nat.eqb_spec b a); [congruence | reflexivity].
Qed.

Ltac case_update :=
  repeat match goal with
  | |- context [update _ ?a _ ?b] =>
      destruct (Nat.eq_dec a b) as [->|?];
      [rewrite update_same | rewrite update_other by assumption]
  end.

Lemma deref2_store2_same (m : Memory) (q : Field2D_ptr) (f : Field2D) :
  deref2 (store2 m q f) q = f.
Proof. destruct q; simpl; now rewrite update_same. Qed.

Lemma deref2_store2_other (m : Memory) (q q' : Field2D_ptr) (f : Field2D) :
  q <> q' -> deref2 (store2 m q f) q' = deref2 m q'.
Proof.
  intros Hne. destruct q, q'; simpl; try reflexivity;
    case_update; solve [reflexivity | congruence].
Qed.

Lemma deref3_store3_same (m : Memory) (q : Field3D_ptr) (f : Field3D) :
  deref3 (store3 m q f) q = f.
Proof. destruct q; simpl; now rewrite update_same. Qed.

Lemma deref3_store3_other (m : Memory) (q q' : Field3D_ptr) (f : Field3D) :
  q <> q' -> deref3 (store3 m q f) q' = deref3 m q'.
Proof.
  intros Hne. destruct q, q'; simpl; try reflexivity;
    case_update; solve [reflexivity | congruence].
Qed.

Lemma deref3_store2 (m : Memory) (q : Field2D_ptr) (f : Field2D)
    (q' : Field3D_ptr) :
  deref3 (store2 m q f) q' = deref3 m q'.
Proof. destruct q, q'; reflexivity. Qed.

Lemma deref2_store3 (m : Memory) (q : Field3D_ptr) (f : Field3D)
    (q' : Field2D_ptr) :
  deref2 (store3 m q f) q' = deref2 m q'.
Proof. destruct q, q'; reflexivity. Qed.

Lemma allocated_At2 (m : Memory) (q : Field2D_ptr) (jx jy : Z) :
  allocated m (At2 q jx jy) <-> data2 (deref2 m q) <> None.
Proof.
  unfold allocated; simpl. destruct (data2 (deref2 m q)) as [d|]; split.
  - congruence.
  - intros _. now exists (d jx jy).
  - intros [x Hx]. discriminate.
  - congruence.
Qed.

Lemma allocated_At3 (m : Memory) (q : Field3D_ptr) (jx jy jz : Z) :
  allocated m (At3 q jx jy jz) <-> data3 (deref3 m q) <> None.
Proof.
  unfold allocated; simpl. destruct (data3 (deref3 m q)) as [d|]; split.
  - congruence.
  - intros _. now exists (d jx jy jz).
  - intros [x Hx]. discriminate.
  - congruence.
Qed.

Lemma poke_allocated (m : Memory) (a : Address) (x : BoutReal) :
  allocated m a -> exists m', poke m a x = Ok m'.
Proof.
  intros [y Hy]. destruct a; simpl in *.
  - destruct (data2 (deref2 m q)); [eexists; reflexivity | discriminate].
  - destruct (data3 (deref3 m q)); [eexists; reflexivity | discriminate].
Qed.

Lemma peek_poke_same (m m' : Memory) (a : Address) (x : BoutReal) :
  poke m a x = Ok m' -> peek m' a = Ok x.
Proof.
  destruct a; simpl.
  - destruct (data2 (deref2 m q)); [|discriminate].
    intros [= <-]. rewrite deref2_store2_same; simpl.
    now rewrite !Z.eqb_refl.
  - destruct (data3 (deref3 m q)); [|discriminate].
    intros [= <-]. rewrite deref3_store3_same; simpl.
    now rewrite !Z.eqb_refl.
Qed.

Lemma peek_poke_other (m m' : Memory) (a a' : Address) (x : BoutReal) :
  poke m a x = Ok m' -> a <> a' -> peek m' a' = peek m a'.
Proof.
  destruct a as [q jx jy|q jx jy jz], a' as [q' jx' jy'|q' jx' jy' jz']; simpl.
  - destruct (data2 (deref2 m q)) as [d|] eqn:Hd; [|discriminate].
    intros [= <-] Hne.
    destruct (Field2D_ptr_eq_dec q q') as [<-|Hq].
    + rewrite deref2_store2_same, Hd; simpl.
      destruct (Z.eqb_spec jx' jx) as [->|]; [|reflexivity].
      destruct (Z.eqb_spec jy' jy) as [->|]; [congruence | reflexivity].
    + now rewrite deref2_store2_other.
  - destruct (data2 (deref2 m q)); [|discriminate].
    intros [= <-] _. now rewrite deref3_store2.
  - destruct (data3 (deref3 m q)); [|discriminate].
    intros [= <-] _. now rewrite deref2_store3.
  - destruct (data3 (deref3 m q)) as [d|] eqn:Hd; [|discriminate].
    intros [= <-] Hne.
    destruct (Field3D_ptr_eq_dec q q') as [<-|Hq].
    + rewrite deref3_store3_same, Hd; simpl.
      destruct (Z.eqb_spec jx' jx) as [->|]; [|reflexivity].
      destruct (Z.eqb_spec jy' jy) as [->|]; [|reflexivity].
      destruct (Z.eqb_spec jz' jz) as [->|]; [congruence | reflexivity].
    + now rewrite deref3_store3_other.
Qed.

Lemma poke_keeps_allocated (m m' : Memory) (a a' : Address) (x : BoutReal) :
  poke m a x = Ok m' -> allocated m a' -> allocated m' a'.
Proof.
  intros Hpoke Ha'. destruct (Address_eq_dec a a') as [<-|Hne].
  - exists x. eapply peek_poke_same; eassumption.
  - unfold allocated. now rewrite (peek_poke_other _ _ Hpoke Hne).
Qed.

(** ** Saving and loading a list of slots *)

Lemma buffer_set_same (u : Buffer) (k : Z) (x : BoutReal) :
  buffer_set u k x k = x.
Proof. unfold buffer_set. now rewrite Z.eqb_refl. Qed.

Lemma buffer_set_other (u : Buffer) (k j : Z) (x : BoutReal) :
  j <> k -> buffer_set u k x j = u j.
Proof.
  intros Hne. unfold buffer_set.
  destruct (Z.eqb_spec j k); [congruence | reflexivity].
Qed.

Lemma transfer_all_cons (op : SOLVER_VAR_OP) (k : Z) (s : Slot)
    (l : list Slot) (st : Buffer * Memory) :
  transfer_all op k (s :: l) st
  = bind (transfer op k s st) (transfer_all op (k + 1) l).
Proof. reflexivity. Qed.

Lemma transfer_save (op : SOLVER_VAR_OP) (k : Z) (s : Slot) (u : Buffer)
    (m : Memory) :
  op <> LOAD_VARS ->
  transfer op k s (u, m)
  = bind (peek m (slot_address op s)) (fun x => Ok (buffer_set u k x, m)).
Proof. destruct op; [congruence | reflexivity | reflexivity]. Qed.

(** Saving leaves the fields alone, puts the value of the [i]-th slot at
    position [k + i] and writes nowhere else. *)
Lemma transfer_all_save (op : SOLVER_VAR_OP) (l : list Slot) :
  op <> LOAD_VARS ->
  forall (k : Z) (u u' : Buffer) (m m' : Memory),
  transfer_all op k l (u, m) = Ok (u', m') ->
  m' = m
  /\ (forall i s, nth_error l i = Some s ->
        peek m (slot_address op s) = Ok (u' (k + Z.of_nat i)))
  /\ (forall j, j < k \/ k + Z.of_nat (length l) <= j -> u' j = u j).
Proof.
  intros Hop. induction l as [|s l IH]; intros k u u' m m' Hrun.
  - simpl in Hrun. injection Hrun as <- <-.
    split; [reflexivity | split]; [|reflexivity].
    intros [|i] s'; discriminate.
  - rewrite transfer_all_cons, transfer_save in Hrun by assumption.
    destruct (peek m (slot_address op s)) as [x|] eqn:Hx; [|discriminate].
    simpl in Hrun. destruct (IH _ _ _ _ _ Hrun) as (-> & Hval & Hout).
    split; [reflexivity | split].
    + intros [|i] s' Hnth; simpl in Hnth.
      * injection Hnth as <-. rewrite Z.add_0_r.
        rewrite Hout by lia. now rewrite buffer_set_same.
      * rewrite (Hval _ _ Hnth). do 2 f_equal. lia.
    + intros j Hj. simpl length in Hj.
      rewrite Hout by lia. apply buffer_set_other. lia.
Qed.

Lemma transfer_all_save_total (op : SOLVER_VAR_OP) (l : list Slot) :
  op <> LOAD_VARS ->
  forall (k : Z) (u : Buffer) (m : Memory),
  (forall s, In s l -> allocated m (slot_address op s)) ->
  exists u', transfer_all op k l (u, m) = Ok (u', m).
Proof.
  intros Hop. induction l as [|s l IH]; intros k u m Hall.
  - now exists u.
  - destruct (Hall s (or_introl eq_refl)) as [x Hx].
    rewrite transfer_all_cons, transfer_save, Hx by assumption.
    simpl. apply IH. intros s' Hs'. apply Hall. now right.
Qed.

(** Loading leaves the flat vector alone.  When the vector holds at
    position [k + i] the value [g] gives for the cell of the [i]-th slot,
    every cell of the list ends up with its value under [g], and the cells
    outside the list keep theirs. *)
Lemma transfer_all_load (g : Address -> Res BoutReal) (l : list Slot) :
  forall (k : Z) (u u' : Buffer) (m m' : Memory),
  transfer_all LOAD_VARS k l (u, m) = Ok (u', m') ->
  (forall i s, nth_error l i = Some s ->
     g (slot_address LOAD_VARS s) = Ok (u (k + Z.of_nat i))) ->
  u' = u
  /\ (forall s, In s l ->
        peek m' (slot_address LOAD_VARS s) = g (slot_address LOAD_VARS s))
  /\ (forall a, (forall s, In s l -> slot_address LOAD_VARS s <> a) ->
        peek m' a = peek m a).
Proof.
  induction l as [|s l IH]; intros k u u' m m' Hrun Hg.
  - simpl in Hrun. injection Hrun as <- <-.
    split; [reflexivity | split]; [intros s [] | reflexivity].
  - simpl in Hrun.
    destruct (poke m (slot_address LOAD_VARS s) (u k)) as [m1|] eqn:Hpoke;
      [|discriminate].
    simpl in Hrun.
    destruct (IH _ _ _ _ _ Hrun) as (-> & Hin & Hout).
    { intros i s' Hnth. rewrite (Hg (S i) s' Hnth). do 2 f_equal. lia. }
    split; [reflexivity | split].
    + intros s' [<-|Hs']; [|now apply Hin].
      destruct (in_dec Address_eq_dec (slot_address LOAD_VARS s)
                       (map (slot_address LOAD_VARS) l)) as [Hlater|Hlast].
      * apply in_map_iff in Hlater. destruct Hlater as (s2 & Heq & Hs2).
        rewrite <- Heq. now apply Hin.
      * rewrite Hout.
        -- rewrite (peek_poke_same _ _ _ Hpoke).
           rewrite (Hg 0%nat s eq_refl). do 2 f_equal. lia.
        -- intros s2 Hs2 Heq. apply Hlast. rewrite <- Heq. now apply in_map.
    + intros a Hnot. rewrite Hout.
      * apply (peek_poke_other _ _ Hpoke). apply Hnot. now left.
      * intros s' Hs'. apply Hnot. now right.
Qed.

(** Loading changes no cell outside the list. *)
Lemma transfer_all_load_frame (l : list Slot) :
  forall (k : Z) (u u' : Buffer) (m m' : Memory),
  transfer_all LOAD_VARS k l (u, m) = Ok (u', m') ->
  u' = u
  /\ (forall a, (forall s, In s l -> slot_address LOAD_VARS s <> a) ->
        peek m' a = peek m a).
Proof.
  induction l as [|s l IH]; intros k u u' m m' Hrun.
  - simpl in Hrun. injection Hrun as <- <-. split; reflexivity.
  - simpl in Hrun.
    destruct (poke m (slot_address LOAD_VARS s) (u k)) as [m1|] eqn:Hpoke;
      [|discriminate].
    simpl in Hrun. destruct (IH _ _ _ _ _ Hrun) as (-> & Hout).
    split; [reflexivity|].
    intros a Hnot. rewrite Hout.
    + apply (peek_poke_other _ _ Hpoke). apply Hnot. now left.
    + intros s' Hs'. apply Hnot. now right.
Qed.

(** When no two slots of the list stand for the same cell, the cell of the
    [i]-th slot ends up with the value at position [k + i]. *)
Lemma transfer_all_load_distinct (l : list Slot) :
  NoDup (map (slot_address LOAD_VARS) l) ->
  forall (k : Z) (u u' : Buffer) (m m' : Memory),
  transfer_all LOAD_VARS k l (u, m) = Ok (u', m') ->
  forall i s, nth_error l i = Some s ->
    peek m' (slot_address LOAD_VARS s) = Ok (u (k + Z.of_nat i)).
Proof.
  induction l as [|s0 l IH]; intros Hnodup k u u' m m' Hrun i s Hi.
  - destruct i; discriminate.
  - simpl in Hnodup. apply NoDup_cons_iff in Hnodup.
    destruct Hnodup as [Hfresh Hnodup].
    simpl in Hrun.
    destruct (poke m (slot_address LOAD_VARS s0) (u k)) as [m1|] eqn:Hpoke;
      [|discriminate].
    simpl in Hrun. destruct i as [|i]; simpl in Hi.
    + injection Hi as <-.
      destruct (transfer_all_load_frame _ _ _ _ Hrun) as (_ & Hout).
      rewrite Hout.
      * rewrite (peek_poke_same _ _ _ Hpoke). do 2 f_equal. lia.
      * intros s' Hs' Heq. apply Hfresh. rewrite <- Heq. now apply in_map.
    + rewrite (IH Hnodup _ _ _ _ _ Hrun i s Hi). do 2 f_equal. lia.
Qed.

Lemma transfer_all_load_total (l : list Slot) :
  forall (k : Z) (u : Buffer) (m : Memory),
  (forall s, In s l -> allocated m (slot_address LOAD_VARS s)) ->
  exists m', transfer_all LOAD_VARS k l (u, m) = Ok (u, m').
Proof.
  induction l as [|s l IH]; intros k u m Hall; simpl.
  - now exists m.
  - destruct (poke_allocated (u k) (Hall s (or_introl eq_refl))) as [m1 Hm1].
    rewrite Hm1; simpl. apply IH.
    intros s' Hs'. eapply poke_keeps_allocated; [eassumption|].
    apply Hall. now right.
Qed.

(** ** The loops of [loop_vars] against the layout *)

Section Refinement.

Variable mesh : Mesh.
Variable reg : Registry.

Lemma loop_vars_op_slots (jx jy : Z) (op : SOLVER_VAR_OP) (c : Cursor) :
  loop_vars_op mesh reg jx jy op c
  = for_each (slot_step op) (point_slots mesh reg (jx, jy)) c.
Proof.
  unfold point_slots, planes. rewrite for_each_app, for_each_map.
  destruct op; simpl;
    (destruct (for_each _ (f2d reg) c) as [c'|]; simpl; [|reflexivity]);
    rewrite for_each_flat_map;
    apply for_each_ext; intros jz s; now rewrite for_each_map.
Qed.

(** A region: the outer index, then the Y index, then the slots of the
    point. *)
Lemma region_slots (op : SOLVER_VAR_OP) (outer ys : list Z) (c : Cursor) :
  for_each (fun a => for_each (fun jy => loop_vars_op mesh reg a jy op) ys)
           outer c
  = for_each (slot_step op) (flat_map (point_slots mesh reg) (grid outer ys)) c.
Proof.
  unfold grid. rewrite !for_each_flat_map.
  apply for_each_ext. intros a s.
  rewrite for_each_map. apply for_each_ext. intros jy s'.
  apply loop_vars_op_slots.
Qed.

Lemma inner_stripe_slots (op : SOLVER_VAR_OP) (xs : list Z) (c : Cursor) :
  for_each
    (fun jx => for_each (fun jy => loop_vars_op mesh reg jx (jy + ystart mesh) op)
                 (zrange 0 (yend mesh - ystart mesh + 1)))
    xs c
  = for_each (slot_step op)
      (flat_map (point_slots mesh reg)
         (grid xs (zrange (ystart mesh) (yend mesh + 1)))) c.
Proof.
  rewrite <- region_slots. apply for_each_ext. intros jx s.
  rewrite <- (zrange_shift (ystart mesh) (yend mesh + 1)).
  rewrite for_each_map.
  replace (yend mesh + 1 - ystart mesh) with (yend mesh - ystart mesh + 1) by lia.
  reflexivity.
Qed.

(** The position counter of the loops is the index in the list. *)
Lemma cursor_transfer (op : SOLVER_VAR_OP) (l : list Slot) (c : Cursor) :
  bind (for_each (slot_step op) l c) (fun c' => Ok (c_udata c', c_mem c'))
  = transfer_all op (c_p c) l (c_udata c, c_mem c).
Proof.
  revert c. induction l as [|s l IH]; intros c; simpl.
  - reflexivity.
  - destruct op; unfold slot_step, copy_in, copy_out; simpl.
    + destruct (poke (c_mem c) _ _) as [m'|]; simpl; [|reflexivity].
      apply (IH (mkCursor (c_p c + 1) (c_udata c) m')).
    + destruct (peek (c_mem c) _) as [x|]; simpl; [|reflexivity].
      apply (IH (mkCursor (c_p c + 1) (buffer_set (c_udata c) (c_p c) x) (c_mem c))).
    + destruct (peek (c_mem c) _) as [x|]; simpl; [|reflexivity].
      apply (IH (mkCursor (c_p c + 1) (buffer_set (c_udata c) (c_p c) x) (c_mem c))).
Qed.

Lemma loop_vars_for_each (udata : Buffer) (op : SOLVER_VAR_OP) (m : Memory) :
  loop_vars mesh reg udata op m
  = bind (for_each (slot_step op) (layout mesh reg) (mkCursor 0 udata m))
         (fun c => Ok (c_udata c, c_mem c)).
Proof.
  unfold loop_vars, layout, traversal.
  rewrite flat_map_app, for_each_app, bind_assoc. apply bind_congr.
  { unfold inner_x_stripe.
    destruct (firstX mesh); [apply inner_stripe_slots | reflexivity]. }
  intros c1. rewrite flat_map_app, for_each_app, bind_assoc. apply bind_congr.
  { apply region_slots. }
  intros c2. rewrite flat_map_app, for_each_app, bind_assoc. apply bind_congr.
  { apply region_slots. }
  intros c3. rewrite flat_map_app, for_each_app, bind_assoc. apply bind_congr.
  { apply region_slots. }
  intros c4. apply bind_congr; [|reflexivity].
  unfold outer_x_stripe.
  destruct (lastX mesh); [apply region_slots | reflexivity].
Qed.

End Refinement.

(** ** Folds over the registry *)

Lemma fold_left_invariant {A B : Type} (F : A -> B -> A) (P : A -> Prop)
    (l : list B) :
  (forall a b, In b l -> P a -> P (F a b)) ->
  forall a, P a -> P (fold_left F l a).
Proof.
  induction l as [|b l IH]; intros HF a Ha; simpl.
  - exact Ha.
  - apply IH.
    + intros a' b' Hb'. apply HF. now right.
    + apply HF; [now left | exact Ha].
Qed.

Lemma fold_left_establish {A B : Type} (F : A -> B -> A) (Q : B -> A -> Prop)
    (l : list B) :
  (forall a b, Q b (F a b)) ->
  (forall a b b', Q b a -> Q b (F a b')) ->
  forall a b, In b l -> Q b (fold_left F l a).
Proof.
  intros Hself Hkeep. induction l as [|x l IH]; intros a b Hb; simpl.
  - destruct Hb.
  - destruct Hb as [->|Hb].
    + apply fold_left_invariant; [|apply Hself].
      intros a' b' _. apply Hkeep.
    + now apply IH.
Qed.

Lemma fold_left_fixed {A B : Type} (F : A -> B -> A) (l : list B) (a : A) :
  (forall b, In b l -> F a b = a) -> fold_left F l a = a.
Proof.
  induction l as [|b l IH]; intros HF; simpl.
  - reflexivity.
  - rewrite HF by now left. apply IH. intros b' Hb'. apply HF. now right.
Qed.

Lemma existsb_false {A : Type} (f : A -> bool) (l : list A) :
  existsb f l = false <-> forall a, In a l -> f a = false.
Proof.
  split.
  - intros Hex a Ha. destruct (f a) eqn:Hfa; [|reflexivity].
    rewrite <- Hex. symmetry. apply existsb_exists. now exists a.
  - intros Hall. destruct (existsb f l) eqn:Hex; [|reflexivity].
    apply existsb_exists in Hex. destruct Hex as (a & Ha & Hfa).
    rewrite (Hall a Ha) in Hfa. discriminate.
Qed.

Lemma is_null_true {A : Type} (d : option A) : is_null d = true <-> d = None.
Proof. destruct d; simpl; split; congruence. Qed.

Lemma is_null_false {A : Type} (d : option A) : is_null d = false <-> d <> None.
Proof. destruct d; simpl; split; congruence. Qed.

Section CodecFacts.

Variable lib : Library.
Variable mesh : Mesh.
Variable reg : Registry.

Lemma slot_address_save_load (s : Slot) :
  slot_address SAVE_VARS s = slot_address LOAD_VARS s.
Proof. destruct s; reflexivity. Qed.

(** The slots of the layout are slots of registered variables. *)
Lemma In_layout_registered (s : Slot) :
  In s (layout mesh reg) ->
  match s with
  | Slot2D v _ _ => In v (f2d reg)
  | Slot3D v _ _ _ => In v (f3d reg)
  end.
Proof.
  unfold layout. rewrite in_flat_map. intros ([jx jy] & _ & Hs).
  unfold point_slots in Hs. apply in_app_or in Hs. destruct Hs as [Hs|Hs].
  - apply in_map_iff in Hs. destruct Hs as (v & <- & Hv). exact Hv.
  - apply in_flat_map in Hs. destruct Hs as (jz & _ & Hs).
    apply in_map_iff in Hs. destruct Hs as (v & <- & Hv). exact Hv.
Qed.

Lemma all_allocated_layout (op : SOLVER_VAR_OP) (m : Memory) :
  op <> SAVE_DERIVS ->
  all_allocated reg m ->
  forall s, In s (layout mesh reg) -> allocated m (slot_address op s).
Proof.
  intros Hop [H2 H3] s Hs. apply In_layout_registered in Hs.
  destruct s as [v jx jy|v jx jy jz]; simpl.
  - apply allocated_At2. destruct op; try congruence; now apply H2.
  - apply allocated_At3. destruct op; try congruence; now apply H3.
Qed.

(** *** Allocation in [load_vars] *)

Lemma allocate2_self (q : Field2D_ptr) (m : Memory) :
  data2 (deref2 (allocate2 lib q m) q) <> None.
Proof.
  unfold allocate2. destruct (data2 (deref2 m q)) eqn:Hd.
  - congruence.
  - rewrite deref2_store2_same. discriminate.
Qed.

Lemma allocate2_keeps (q q' : Field2D_ptr) (m : Memory) :
  data2 (deref2 m q') <> None ->
  data2 (deref2 (allocate2 lib q m) q') <> None.
Proof.
  intros Hq'. unfold allocate2. destruct (data2 (deref2 m q)) eqn:Hd.
  - exact Hq'.
  - destruct (Field2D_ptr_eq_dec q q') as [<-|Hne]; [congruence|].
    now rewrite deref2_store2_other.
Qed.

Lemma allocate3_self (q : Field3D_ptr) (m : Memory) :
  data3 (deref3 (allocate3 lib q m) q) <> None.
Proof.
  unfold allocate3. destruct (data3 (deref3 m q)) eqn:Hd.
  - congruence.
  - rewrite deref3_store3_same. discriminate.
Qed.

Lemma allocate3_keeps (q q' : Field3D_ptr) (m : Memory) :
  data3 (deref3 m q') <> None ->
  data3 (deref3 (allocate3 lib q m) q') <> None.
Proof.
  intros Hq'. unfold allocate3. destruct (data3 (deref3 m q)) eqn:Hd.
  - exact Hq'.
  - destruct (Field3D_ptr_eq_dec q q') as [<-|Hne]; [congruence|].
    now rewrite deref3_store3_other.
Qed.

Lemma allocate3_deref2 (q : Field3D_ptr) (m : Memory) (q' : Field2D_ptr) :
  deref2 (allocate3 lib q m) q' = deref2 m q'.
Proof.
  unfold allocate3. destruct (data3 (deref3 m q)); [reflexivity|].
  apply deref2_store3.
Qed.

Lemma setLocation3_data (q q' : Field3D_ptr) (loc : CELL_LOC) (m : Memory) :
  data3 (deref3 (setLocation3 q loc m) q') = data3 (deref3 m q').
Proof.
  unfold setLocation3. destruct (Field3D_ptr_eq_dec q q') as [<-|Hne].
  - now rewrite deref3_store3_same.
  - now rewrite deref3_store3_other.
Qed.

Lemma setLocation3_deref2 (q : Field3D_ptr) (loc : CELL_LOC) (m : Memory)
    (q' : Field2D_ptr) :
  deref2 (setLocation3 q loc m) q' = deref2 m q'.
Proof. apply deref2_store3. Qed.

(** After the two allocation loops every registered variable has storage. *)
Lemma load_vars_allocates (m : Memory) :
  all_allocated reg
    (fold_left
       (fun m v => setLocation3 (var v) (location v) (allocate3 lib (var v) m))
       (f3d reg)
       (fold_left (fun m v => allocate2 lib (var v) m) (f2d reg) m)).
Proof.
  split.
  - intros v Hv.
    apply (fold_left_invariant
             (fun m (v : VarStr Field3D_ptr) =>
                setLocation3 (var v) (location v) (allocate3 lib (var v) m))
             (fun m => data2 (deref2 m (var v)) <> None)).
    + intros a b _. now rewrite setLocation3_deref2, allocate3_deref2.
    + apply (fold_left_establish
               (fun m (v : VarStr Field2D_ptr) => allocate2 lib (var v) m)
               (fun v m => data2 (deref2 m (var v)) <> None)).
      * intros a b. apply allocate2_self.
      * intros a b b'. apply allocate2_keeps.
      * exact Hv.
  - intros v Hv.
    apply (fold_left_establish
             (fun m (v : VarStr Field3D_ptr) =>
                setLocation3 (var v) (location v) (allocate3 lib (var v) m))
             (fun v m => data3 (deref3 m (var v)) <> None)).
    + intros a b. rewrite setLocation3_data. apply allocate3_self.
    + intros a b b'. rewrite setLocation3_data. apply allocate3_keeps.
    + exact Hv.
Qed.

(** Setting a basis flag changes no cell. *)
Lemma peek_set_covariant2 (v : nat) (flag : bool) (m : Memory) (a : Address) :
  peek (set_covariant2 v flag m) a = peek m a.
Proof.
  destruct a as [q jx jy|q jx jy jz]; simpl.
  - replace (deref2 (set_covariant2 v flag m) q) with (deref2 m q);
      [reflexivity|].
    destruct q; simpl; try reflexivity; unfold update;
      destruct (Nat.eqb_spec v0 v); subst; reflexivity.
  - destruct q; reflexivity.
Qed.

Lemma peek_set_covariant3 (v : nat) (flag : bool) (m : Memory) (a : Address) :
  peek (set_covariant3 v flag m) a = peek m a.
Proof.
  destruct a as [q jx jy|q jx jy jz]; simpl.
  - destruct q; reflexivity.
  - replace (deref3 (set_covariant3 v flag m) q) with (deref3 m q);
      [reflexivity|].
    destruct q; simpl; try reflexivity; unfold update;
      destruct (Nat.eqb_spec v0 v); subst; reflexivity.
Qed.

(** *** Basis normalisation in [save_vars] *)

Lemma to_basis2_id (declared : bool) (v : nat) (m : Memory) :
  covariant2 (vectors2 m v) = declared -> to_basis2 lib declared v m = m.
Proof.
  intros <-. unfold to_basis2, toCovariant2, toContravariant2.
  now destruct (covariant2 (vectors2 m v)).
Qed.

Lemma to_basis3_id (declared : bool) (v : nat) (m : Memory) :
  covariant3 (vectors3 m v) = declared -> to_basis3 lib declared v m = m.
Proof.
  intros <-. unfold to_basis3, toCovariant3, toContravariant3.
  now destruct (covariant3 (vectors3 m v)).
Qed.

Lemma declared_basis_fixed (m : Memory) :
  declared_basis reg m ->
  fold_left (fun m v => to_basis3 lib (covariant v) (var v) m) (v3d reg)
    (fold_left (fun m v => to_basis2 lib (covariant v) (var v) m) (v2d reg) m)
  = m.
Proof.
  intros [H2 H3].
  rewrite (fold_left_fixed (fun m v => to_basis2 lib (covariant v) (var v) m)).
  - apply fold_left_fixed. intros v Hv. apply to_basis3_id. now apply H3.
  - intros v Hv. apply to_basis2_id. now apply H2.
Qed.

(** *** Positions in the flat vector *)

Lemma length_point_slots (pt : Z * Z) :
  length (point_slots mesh reg pt) = point_size mesh reg.
Proof.
  destruct pt as [jx jy]. unfold point_slots, point_size.
  rewrite length_app, length_map. f_equal.
  rewrite (@flat_map_constant_length _ _ (length (f3d reg))).
  - now rewrite length_zrange, Z.sub_0_r.
  - intros jz _. apply length_map.
Qed.

(** The [j]-th 2D variable at the [i]-th point of the traversal. *)
Lemma layout_position_2D (i j : nat) (jx jy : Z) (v : VarStr Field2D_ptr) :
  nth_error (traversal mesh) i = Some (jx, jy) ->
  nth_error (f2d reg) j = Some v ->
  nth_error (layout mesh reg) (i * point_size mesh reg + j)
  = Some (Slot2D v jx jy).
Proof.
  intros Hi Hj.
  assert (Hlt : (j < length (f2d reg))%nat)
    by (apply nth_error_Some; congruence).
  unfold layout.
  rewrite (@nth_error_flat_map_blocks _ _ (point_slots mesh reg)
             (point_size mesh reg) (traversal mesh) length_point_slots
             i (jx, jy) j Hi)
    by (unfold point_size; lia).
  unfold point_slots.
  rewrite nth_error_app1 by now rewrite length_map.
  now rewrite nth_error_map, Hj.
Qed.

(** The [j]-th 3D variable in plane [jz] at the [i]-th point. *)
Lemma layout_position_3D (i j : nat) (jx jy jz : Z) (v : VarStr Field3D_ptr) :
  nth_error (traversal mesh) i = Some (jx, jy) ->
  0 <= jz < planes mesh ->
  nth_error (f3d reg) j = Some v ->
  nth_error (layout mesh reg)
    (i * point_size mesh reg
     + (length (f2d reg) + Z.to_nat jz * length (f3d reg) + j))
  = Some (Slot3D v jx jy jz).
Proof.
  intros Hi Hjz Hj.
  assert (Hlt : (j < length (f3d reg))%nat)
    by (apply nth_error_Some; congruence).
  assert (Hin : (length (f2d reg) + Z.to_nat jz * length (f3d reg) + j
                 < point_size mesh reg)%nat).
  { unfold point_size. nia. }
  unfold layout.
  rewrite (@nth_error_flat_map_blocks _ _ (point_slots mesh reg)
             (point_size mesh reg) (traversal mesh) length_point_slots
             i (jx, jy) _ Hi Hin).
  unfold point_slots.
  rewrite nth_error_app2 by (rewrite length_map; lia).
  rewrite length_map.
  replace (length (f2d reg) + Z.to_nat jz * length (f3d reg) + j
           - length (f2d reg))%nat
    with (Z.to_nat jz * length (f3d reg) + j)%nat by lia.
  rewrite (@nth_error_flat_map_blocks _ _
             (fun jz => map (fun v => Slot3D v jx jy jz) (f3d reg))
             (length (f3d reg)) (zrange 0 (planes mesh))
             (fun jz => length_map _ _) (Z.to_nat jz) jz j).
  - now rewrite nth_error_map, Hj.
  - rewrite nth_error_zrange by lia. f_equal. lia.
  - exact Hlt.
Qed.

(** *** The traversal order *)

Lemma loop_vars_transfer (op : SOLVER_VAR_OP) (udata : Buffer) (m : Memory) :
  loop_vars mesh reg udata op m
  = transfer_all op 0 (layout mesh reg) (udata, m).
Proof.
  rewrite loop_vars_for_each.
  apply (cursor_transfer op (layout mesh reg) (mkCursor 0 udata m)).
Qed.

Lemma loop_vars_saved (op : SOLVER_VAR_OP) (udata udata' : Buffer)
    (m m' : Memory) :
  op <> LOAD_VARS ->
  loop_vars mesh reg udata op m = Ok (udata', m') ->
  m' = m
  /\ (forall (k : nat) (s : Slot),
        nth_error (layout mesh reg) k = Some s ->
        peek m (slot_address op s) = Ok (udata' (Z.of_nat k)))
  /\ (forall j : Z,
        j < 0 \/ Z.of_nat (length (layout mesh reg)) <= j ->
        udata' j = udata j).
Proof.
  intros Hop Hrun. rewrite loop_vars_transfer in Hrun.
  eapply transfer_all_save in Hrun; [|exact Hop].
  exact Hrun.
Qed.

Lemma loop_vars_loaded (udata udata' : Buffer) (m m' : Memory) :
  loop_vars mesh reg udata LOAD_VARS m = Ok (udata', m') ->
  udata' = udata
  /\ (NoDup (map (slot_address LOAD_VARS) (layout mesh reg)) ->
      forall (k : nat) (s : Slot),
        nth_error (layout mesh reg) k = Some s ->
        peek m' (slot_address LOAD_VARS s) = Ok (udata (Z.of_nat k))).
Proof.
  intros Hrun. rewrite loop_vars_transfer in Hrun. split.
  - now destruct (transfer_all_load_frame _ _ _ _ Hrun).
  - intros Hnodup k s Hk.
    exact (@transfer_all_load_distinct _ Hnodup 0 _ _ _ _ Hrun k s Hk).
Qed.

(** C1: [loop_vars], the one loop nest behind SAVE, LOAD and SAVE_DERIVS,
    does for each of the three operations exactly what the layout says:
    the slots of [layout] are copied in order, the [k]-th slot at position
    [k] of the flat vector.  [layout] goes through the points of
    [traversal]: the inner-X stripe (on the process that owns it; X outer,
    Y inner), the lower-Y region (iterator index outer, Y inner), the bulk
    (X outer, Y inner), the upper-Y region and the outer-X stripe (on the
    owning process).  At the [i]-th point the positions from
    [i * point_size] on belong to the 2D variables in registration order
    and then, for each plane [0 .. planes-1], to the 3D variables in
    registration order.  For the two saving operations position [k]
    ends up holding the value of the [k]-th slot, and nothing is written
    outside the layout; loading leaves the flat vector alone and, where no
    two slots stand for the same cell, the cell of the [k]-th slot ends up
    holding the value at position [k]. *)
Theorem loop_vars_layout :
  (forall (op : SOLVER_VAR_OP) (udata : Buffer) (m : Memory),
     loop_vars mesh reg udata op m
     = transfer_all op 0 (layout mesh reg) (udata, m))
  /\ layout mesh reg
     = flat_map (point_slots mesh reg)
         (inner_x_stripe mesh ++ lower_y_region mesh ++ bulk mesh
          ++ upper_y_region mesh ++ outer_x_stripe mesh)
  /\ (forall (i j : nat) (jx jy : Z) (v : VarStr Field2D_ptr),
        nth_error (traversal mesh) i = Some (jx, jy) ->
        nth_error (f2d reg) j = Some v ->
        nth_error (layout mesh reg) (i * point_size mesh reg + j)
        = Some (Slot2D v jx jy))
  /\ (forall (i j : nat) (jx jy jz : Z) (v : VarStr Field3D_ptr),
        nth_error (traversal mesh) i = Some (jx, jy) ->
        0 <= jz < planes mesh ->
        nth_error (f3d reg) j = Some v ->
        nth_error (layout mesh reg)
          (i * point_size mesh reg
           + (length (f2d reg) + Z.to_nat jz * length (f3d reg) + j))
        = Some (Slot3D v jx jy jz))
  /\ (forall (op : SOLVER_VAR_OP) (udata udata' : Buffer) (m m' : Memory),
        op <> LOAD_VARS ->
        loop_vars mesh reg udata op m = Ok (udata', m') ->
        m' = m
        /\ (forall (k : nat) (s : Slot),
              nth_error (layout mesh reg) k = Some s ->
              peek m (slot_address op s) = Ok (udata' (Z.of_nat k)))
        /\ (forall j : Z,
              j < 0 \/ Z.of_nat (length (layout mesh reg)) <= j ->
              udata' j = udata j))
  /\ (forall (udata udata' : Buffer) (m m' : Memory),
        loop_vars mesh reg udata LOAD_VARS m = Ok (udata', m') ->
        udata' = udata
        /\ (NoDup (map (slot_address LOAD_VARS) (layout mesh reg)) ->
            forall (k : nat) (s : Slot),
              nth_error (layout mesh reg) k = Some s ->
              peek m' (slot_address LOAD_VARS s) = Ok (udata (Z.of_nat k)))).
Proof.
  split; [exact loop_vars_transfer|].
  split; [reflexivity|].
  split; [exact layout_position_2D|].
  split; [exact layout_position_3D|].
  split.
  - intros op udata udata' m m' Hop Hrun.
    exact (@loop_vars_saved op udata udata' m m' Hop Hrun).
  - intros udata udata' m m' Hrun.
    exact (@loop_vars_loaded udata udata' m m' Hrun).
Qed.

(** *** SAVE *)

Lemma save_vars_unallocated (udata : Buffer) (m : Memory) :
  some_unallocated reg m ->
  save_vars lib mesh reg udata m = Ok (1, (udata, m)).
Proof.
  intros Hsome. unfold save_vars.
  destruct (existsb _ (f2d reg)) eqn:H2; [reflexivity|].
  destruct (existsb _ (f3d reg)) eqn:H3; [reflexivity|].
  exfalso. rewrite existsb_false in H2. rewrite existsb_false in H3.
  destruct Hsome as [(v & Hv & Hnull)|(v & Hv & Hnull)].
  - specialize (H2 v Hv). apply is_null_false in H2. contradiction.
  - specialize (H3 v Hv). apply is_null_false in H3. contradiction.
Qed.

Lemma save_vars_allocated (udata : Buffer) (m : Memory) :
  ~ some_unallocated reg m ->
  save_vars lib mesh reg udata m
  = bind (loop_vars mesh reg udata SAVE_VARS
            (fold_left (fun m v => to_basis3 lib (covariant v) (var v) m)
               (v3d reg)
               (fold_left (fun m v => to_basis2 lib (covariant v) (var v) m)
                  (v2d reg) m)))
         (fun r => Ok (0, r)).
Proof.
  intros Hnone. unfold save_vars.
  destruct (existsb _ (f2d reg)) eqn:H2.
  { exfalso. apply Hnone. left. apply existsb_exists in H2.
    destruct H2 as (v & Hv & Hnull). exists v. split; [exact Hv|].
    now apply is_null_true. }
  destruct (existsb _ (f3d reg)) eqn:H3.
  { exfalso. apply Hnone. right. apply existsb_exists in H3.
    destruct H3 as (v & Hv & Hnull). exists v. split; [exact Hv|].
    now apply is_null_true. }
  reflexivity.
Qed.

Lemma all_allocated_not_some (m : Memory) :
  all_allocated reg m <-> ~ some_unallocated reg m.
Proof.
  split.
  - intros [H2 H3] [(v & Hv & Hnull)|(v & Hv & Hnull)].
    + now apply (H2 v Hv).
    + now apply (H3 v Hv).
  - intros Hnone. split; intros v Hv Hnull; apply Hnone;
      [left | right]; now exists v.
Qed.

(** C4: [save_vars] reports the initialisation error, the return value 1
    handed back to the caller and not a crash, exactly when a registered
    2D or 3D variable has no storage; then the flat vector and the fields,
    the vectors and their basis flags included, are as they were. *)
Theorem save_vars_error (udata : Buffer) (m : Memory) :
  (some_unallocated reg m <->
   exists r, save_vars lib mesh reg udata m = Ok (1, r))
  /\ (forall r, save_vars lib mesh reg udata m = Ok (1, r) -> r = (udata, m)).
Proof.
  assert (Hback : forall r, save_vars lib mesh reg udata m = Ok (1, r) ->
                            some_unallocated reg m /\ r = (udata, m)).
  { intros r Hrun. unfold save_vars in Hrun.
    destruct (existsb _ (f2d reg)) eqn:H2.
    { injection Hrun as <-. split; [|reflexivity]. left.
      apply existsb_exists in H2. destruct H2 as (v & Hv & Hnull).
      exists v. split; [exact Hv | now apply is_null_true]. }
    destruct (existsb _ (f3d reg)) eqn:H3.
    { injection Hrun as <-. split; [|reflexivity]. right.
      apply existsb_exists in H3. destruct H3 as (v & Hv & Hnull).
      exists v. split; [exact Hv | now apply is_null_true]. }
    destruct (loop_vars mesh reg udata SAVE_VARS _); simpl in Hrun;
      discriminate. }
  split; [split|].
  - intros Hsome. exists (udata, m). now apply save_vars_unallocated.
  - intros [r Hrun]. now apply Hback in Hrun.
  - intros r Hrun. now apply Hback in Hrun.
Qed.

(** *** SAVE followed by LOAD *)

(** Whatever SAVE has put into the flat vector, LOAD takes out again: at
    every slot of the layout the loaded field holds the value the field had
    when SAVE copied it, that is the value after SAVE has brought the
    vectors to their declared basis.  LOAD may start from any fields. *)
Lemma load_after_save (udata u1 : Buffer) (m m1 : Memory) :
  save_vars lib mesh reg udata m = Ok (0, (u1, m1)) ->
  forall m' : Memory, exists m2 : Memory,
    load_vars lib mesh reg u1 m' = Ok m2
    /\ forall s, In s (layout mesh reg) ->
         exists x, peek m1 (slot_address SAVE_VARS s) = Ok x
                   /\ peek m2 (slot_address LOAD_VARS s) = Ok x.
Proof.
  intros Hsave m'.
  (* what SAVE stored *)
  assert (Hstored : forall k s, nth_error (layout mesh reg) k = Some s ->
            peek m1 (slot_address LOAD_VARS s) = Ok (u1 (0 + Z.of_nat k))).
  { unfold save_vars in Hsave.
    destruct (existsb _ (f2d reg)); [discriminate|].
    destruct (existsb _ (f3d reg)); [discriminate|].
    destruct (loop_vars mesh reg udata SAVE_VARS _) as [[u mm]|] eqn:Hloop;
      [|discriminate].
    simpl in Hsave. injection Hsave as -> ->.
    assert (Hop : SAVE_VARS <> LOAD_VARS) by discriminate.
    destruct (@loop_vars_saved SAVE_VARS _ _ _ _ Hop Hloop)
      as (Hm & Hval & _).
    intros k s Hk. rewrite <- slot_address_save_load, Hm.
    now apply Hval. }
  (* LOAD *)
  unfold load_vars.
  pose proof (load_vars_allocates m') as Halloc.
  set (ma := fold_left _ (f3d reg) _) in *.
  rewrite loop_vars_transfer.
  assert (Hcells : forall s, In s (layout mesh reg) ->
                     allocated ma (slot_address LOAD_VARS s))
    by (apply all_allocated_layout; [discriminate | exact Halloc]).
  destruct (@transfer_all_load_total (layout mesh reg) 0 u1 ma Hcells)
    as [ml Hml].
  rewrite Hml. simpl. eexists. split; [reflexivity|].
  intros s Hs.
  destruct (@transfer_all_load (peek m1) _ _ _ _ _ _ Hml Hstored)
    as (_ & Hin & _).
  destruct (In_nth_error _ _ Hs) as [k Hk].
  exists (u1 (0 + Z.of_nat k)). split.
  - rewrite slot_address_save_load. now apply Hstored.
  - rewrite <- (Hstored k s Hk), <- (Hin s Hs).
    apply (fold_left_invariant
             (fun m v => set_covariant3 (var v) (covariant v) m)
             (fun m => peek m (slot_address LOAD_VARS s)
                       = peek ml (slot_address LOAD_VARS s))).
    + intros a b _ Ha. now rewrite peek_set_covariant3.
    + apply (fold_left_invariant
               (fun m v => set_covariant2 (var v) (covariant v) m)
               (fun m => peek m (slot_address LOAD_VARS s)
                         = peek ml (slot_address LOAD_VARS s))).
      * intros a b _ Ha. now rewrite peek_set_covariant2.
      * reflexivity.
Qed.

(** With storage everywhere and the vectors in their declared basis, SAVE
    succeeds and leaves the fields as they are. *)
Lemma save_vars_succeeds (udata : Buffer) (m : Memory) :
  all_allocated reg m -> declared_basis reg m ->
  exists u1, save_vars lib mesh reg udata m = Ok (0, (u1, m)).
Proof.
  intros Hall Hbasis.
  rewrite save_vars_allocated by now apply all_allocated_not_some.
  rewrite (@declared_basis_fixed m Hbasis).
  rewrite loop_vars_transfer.
  assert (Hop : SAVE_VARS <> LOAD_VARS) by discriminate.
  assert (Hcells : forall s, In s (layout mesh reg) ->
                     allocated m (slot_address SAVE_VARS s))
    by (apply all_allocated_layout; [discriminate | exact Hall]).
  destruct (@transfer_all_save_total SAVE_VARS (layout mesh reg) Hop 0 udata
              m Hcells) as [u1 Hu1].
  exists u1. now rewrite Hu1.
Qed.

(** C3 (amended): for a registry whose variables all have storage, a LOAD
    from the flat vector a successful SAVE has filled, into whatever the
    fields hold by then, brings back at every slot of the traversal exactly
    the value the variable had when SAVE copied it, that is after SAVE has
    brought the vectors to their declared basis.  When every registered
    vector is in its declared basis to begin with, SAVE does succeed and
    changes no field, so that the values brought back are the values from
    before SAVE.  Nothing is assumed about the numbers of 2D and 3D
    variables or of planes. *)
Theorem save_load_roundtrip (udata : Buffer) (m : Memory) :
  all_allocated reg m ->
  (forall (u1 : Buffer) (m1 : Memory),
     save_vars lib mesh reg udata m = Ok (0, (u1, m1)) ->
     forall m' : Memory, exists m2 : Memory,
       load_vars lib mesh reg u1 m' = Ok m2
       /\ forall s, In s (layout mesh reg) ->
            exists x, peek m1 (slot_address SAVE_VARS s) = Ok x
                      /\ peek m2 (slot_address LOAD_VARS s) = Ok x)
  /\ (declared_basis reg m ->
      exists u1 : Buffer,
        save_vars lib mesh reg udata m = Ok (0, (u1, m))
        /\ forall m' : Memory, exists m2 : Memory,
             load_vars lib mesh reg u1 m' = Ok m2
             /\ forall s, In s (layout mesh reg) ->
                  exists x, peek m (slot_address SAVE_VARS s) = Ok x
                            /\ peek m2 (slot_address LOAD_VARS s) = Ok x).
Proof.
  intros Hall. split.
  - intros u1 m1 Hsave. exact (@load_after_save udata u1 m m1 Hsave).
  - intros Hbasis.
    destruct (@save_vars_succeeds udata m Hall Hbasis) as [u1 Hsave].
    exists u1. split; [exact Hsave|].
    exact (@load_after_save udata u1 m m Hsave).
Qed.

End CodecFacts.

(** *** The output schedule *)

(** [int] arithmetic inside the range is exact. *)
Lemma int_wrap_in_range (z : Z) :
  INT_MIN <= z <= INT_MAX -> int_wrap z = z.
Proof.
  unfold INT_MIN, INT_MAX, int_wrap. intros Hz.
  rewrite Z.mod_small by lia. lia.
Qed.

Lemma int_wrap_range (z : Z) : INT_MIN <= int_wrap z <= INT_MAX.
Proof.
  unfold INT_MIN, INT_MAX, int_wrap.
  pose proof (Z.mod_pos_bound (z + 2 ^ 31) (2 ^ 32) eq_refl). lia.
Qed.

(** C2 (amended): when [t] has reached or passed the next output time, the
    test being the comparison [t >= next_time] and no test for equality,
    [rhs] increments the iteration counter, resets the residual-call count
    and the wall time, and sets the next output time to [t] plus the output
    interval, [t] being the simulation time it has just recorded; otherwise
    it leaves the schedule alone.  In both cases the recorded simulation
    time becomes [t].  The counter is an [int]: below [INT_MAX] the
    increment adds one, at [INT_MAX] it comes back as [INT_MIN]. *)
Theorem rhs_output_schedule (lib : Library) (mesh : Mesh) (reg : Registry)
    (t : BoutReal) (udata dudata dudata' : Buffer) (s s' : PetscSolver)
    (m m' : Memory) (code : Z) :
  rhs lib mesh reg t udata dudata s m = Ok (code, dudata', s', m') ->
  simtime s' = t
  /\ tstep s' = tstep s
  /\ if geb t (next_time s)
     then iteration s' = int_wrap (iteration s + 1)
          /\ (INT_MIN <= iteration s < INT_MAX ->
              iteration s' = iteration s + 1)
          /\ (iteration s = INT_MAX -> iteration s' = INT_MIN)
          /\ rhs_ncalls s' = 0
          /\ rhs_wtime s' = 0%float
          /\ next_time s' = PrimFloat.add t (tstep s)
          /\ outputnext s' = false
     else iteration s' = iteration s
          /\ next_time s' = next_time s
          /\ outputnext s' = outputnext s.
Proof.
  unfold rhs. intros Hrun.
  destruct (load_vars lib mesh reg udata m) as [m1|]; [|discriminate].
  simpl in Hrun.
  destruct (run_rhs lib t (rhs_ncalls s, rhs_wtime s) m1)
    as [[flag [ncalls wtime]] m2].
  destruct (save_derivs lib mesh reg dudata m2) as [[du m3]|]; [|discriminate].
  simpl in Hrun.
  destruct (geb t (next_time s)); injection Hrun as <- <- <- <-; simpl;
    [|repeat split; reflexivity].
  split; [reflexivity|]. split; [reflexivity|]. split; [reflexivity|].
  split; [intros Hrange; apply int_wrap_in_range; lia|].
  split; [intros ->; reflexivity|].
  repeat split; reflexivity.
Qed.

(** On the small mesh: a residual evaluation at time 3 with the output due
    at time 2. *)
Lemma rhs_output_schedule_witness :
  rhs Example.lib Example.mesh Example.reg 3%float Example.zeros Example.zeros
      Example.solver (Example.fields true)
  = Ok Example.rhs_result
  /\ simtime (Example.solver_of Example.rhs_result) = 3%float
  /\ iteration (Example.solver_of Example.rhs_result) = 1
  /\ next_time (Example.solver_of Example.rhs_result) = 4%float.
Proof.
  assert (Hruns : Example.res_map (fun _ => tt)
                    (rhs Example.lib Example.mesh Example.reg 3%float
                         Example.zeros Example.zeros Example.solver
                         (Example.fields true))
                  = Ok tt)
    by (vm_compute; reflexivity).
  unfold Example.rhs_result, Example.solver_of.
  destruct (rhs Example.lib Example.mesh Example.reg 3%float Example.zeros
                Example.zeros Example.solver (Example.fields true))
    as [[[[code du] s'] m']|] eqn:Hrun; [|discriminate].
  split; [reflexivity|]. simpl.
  destruct (rhs_output_schedule _ _ _ _ _ _ _ _ Hrun)
    as (Htime & _ & Hsched).
  change (geb 3%float (next_time Example.solver)) with true in Hsched.
  destruct Hsched as (_ & Hiter & _ & _ & _ & Hnext & _).
  split; [exact Htime|]. split; [|exact Hnext].
  apply Hiter. unfold INT_MIN, INT_MAX. simpl. lia.
Defined.

(** The next output time is not the previous one plus the interval: at
    [t = 3] with the output due at 2 and the interval 1, the next output
    time becomes 4, not 3. *)
Lemma rhs_next_time_counts_from_t :
  exists s' : PetscSolver,
    Example.res_map Example.solver_of
      (rhs Example.lib Example.mesh Example.reg 3%float Example.zeros
           Example.zeros Example.solver (Example.fields true))
    = Ok s'
    /\ geb 3%float (next_time Example.solver) = true
    /\ next_time s'
       <> PrimFloat.add (next_time Example.solver) (tstep Example.solver).
Proof.
  exists (mkPetscSolver 3%float 4%float 1%float 10 1 0 0%float false).
  split; [vm_compute; reflexivity|]. split; [reflexivity|].
  apply float_neq; reflexivity.
Qed.

(** *** The pre-step hook *)

(** C8: what [PreStep] does.  It sets the flag exactly when [t + dt]
    reaches the next output time, and it never touches the step of the
    integrator: with [t = 0], [dt = 2] and the output due at 1 the flag is
    set and the integrator still holds the step 2, which overshoots the
    output time; a clamped step would be 1. *)
Theorem PreStep_keeps_time_step :
  (forall (ts : TS) (s : PetscSolver),
     snd (fst (PreStep ts s)) = ts
     /\ outputnext (snd (PreStep ts s))
        = geb (PrimFloat.add (ts_time ts) (ts_time_step ts)) (next_time s)
     /\ next_time (snd (PreStep ts s)) = next_time s)
  /\ PreStep (mkTS 0%float 2%float)
             (mkPetscSolver 0%float 1%float 1%float 10 0 0 0%float false)
     = (0, mkTS 0%float 2%float,
        mkPetscSolver 0%float 1%float 1%float 10 0 0 0%float true).
Proof.
  split; [|reflexivity].
  intros ts s. unfold PreStep.
  destruct (geb (PrimFloat.add (ts_time ts) (ts_time_step ts)) (next_time s));
    repeat split; reflexivity.
Qed.

(** *** Runs on the small mesh *)

(** The order of the points: the inner stripe [jx = 0], the lower region
    [jy = 0], the four interior points, the upper region [jy = 3], the outer
    stripe [jx = 3]. *)
Lemma traversal_small_mesh :
  traversal Example.mesh
  = [(0, 1); (0, 2); (1, 0); (2, 0); (1, 1); (1, 2); (2, 1); (2, 2);
     (1, 3); (2, 3); (3, 1); (3, 2)].
Proof. reflexivity. Qed.

Lemma point_slots_small_mesh :
  map (slot_address SAVE_VARS) (point_slots Example.mesh Example.reg (1, 2))
  = [At2 (Ptr2 0) 1 2; At2 (Ptr2_x 0) 1 2; At2 (Ptr2_y 0) 1 2;
     At2 (Ptr2_z 0) 1 2; At3 (Ptr3 0) 1 2 0; At3 (Ptr3 0) 1 2 1].
Proof. reflexivity. Qed.

(** On the small mesh no two slots stand for the same cell. *)
Lemma layout_small_mesh_distinct :
  NoDup (map (slot_address LOAD_VARS) (layout Example.mesh Example.reg)).
Proof.
  assert (Hfixed : nodup Address_eq_dec
                     (map (slot_address LOAD_VARS)
                          (layout Example.mesh Example.reg))
                   = map (slot_address LOAD_VARS)
                         (layout Example.mesh Example.reg))
    by (vm_compute; reflexivity).
  rewrite <- Hfixed. apply NoDup_nodup.
Qed.

Lemma all_allocated_small_mesh (basis : bool) :
  all_allocated Example.reg (Example.fields basis).
Proof.
  split; intros v Hv; simpl in Hv;
    repeat (destruct Hv as [<-|Hv]; [simpl; discriminate|]);
    destruct Hv.
Defined.

Lemma declared_basis_small_mesh :
  declared_basis Example.reg (Example.fields true).
Proof.
  split; intros v Hv; simpl in Hv;
    repeat (destruct Hv as [<-|Hv]; [reflexivity|]);
    destruct Hv.
Defined.

(** SAVE and LOAD on the small mesh, the vector being covariant as
    declared. *)
Lemma save_load_roundtrip_witness :
  all_allocated Example.reg (Example.fields true)
  /\ exists u1 : Buffer,
       save_vars Example.lib Example.mesh Example.reg Example.zeros
                 (Example.fields true)
       = Ok (0, (u1, Example.fields true))
       /\ forall m' : Memory, exists m2 : Memory,
            load_vars Example.lib Example.mesh Example.reg u1 m' = Ok m2
            /\ forall s, In s (layout Example.mesh Example.reg) ->
                 exists x,
                   peek (Example.fields true) (slot_address SAVE_VARS s) = Ok x
                   /\ peek m2 (slot_address LOAD_VARS s) = Ok x.
Proof.
  split; [exact (all_allocated_small_mesh true)|].
  exact (proj2 (@save_load_roundtrip Example.lib Example.mesh Example.reg
                  Example.zeros (Example.fields true)
                  (all_allocated_small_mesh true))
               declared_basis_small_mesh).
Defined.

(** The same registry with the vector populated in contravariant form:
    every variable has storage and SAVE succeeds, but it first lowers the
    index of the vector, whose x component is a registered variable.  At
    the interior point (1,1) that variable held 111; after SAVE and LOAD it
    holds 222. *)
Lemma save_load_changes_mismatched_vector :
  all_allocated Example.reg (Example.fields false)
  /\ Example.res_map fst
       (save_vars Example.lib Example.mesh Example.reg Example.zeros
                  (Example.fields false))
     = Ok 0
  /\ nth_error (layout Example.mesh Example.reg) 25
     = Some (Slot2D (mkVarStr (Ptr2_x 0) (Ptr2_x 1) CELL_CENTRE false) 1 1)
  /\ peek (Example.fields false) (At2 (Ptr2_x 0) 1 1) = Ok 111%float
  /\ Example.res_map (fun m => peek m (At2 (Ptr2_x 0) 1 1))
       (Example.save_then_load (Example.fields false))
     = Ok (Ok 222%float)
  /\ Ok 222%float <> Ok 111%float.
Proof.
  split; [exact (all_allocated_small_mesh false)|].
  split; [vm_compute; reflexivity|].
  split; [reflexivity|].
  split; [vm_compute; reflexivity|].
  split; [vm_compute; reflexivity|].
  intros H. assert (H' : 222%float = 111%float) by congruence.
  revert H'. apply float_neq; reflexivity.
Qed.

(** An unallocated variable: SAVE returns 1 and hands back what it got. *)
Lemma save_vars_error_small_mesh :
  let m := store2 (Example.fields true) (Ptr2 0) Field2D_default in
  save_vars Example.lib Example.mesh Example.reg Example.zeros m
  = Ok (1, (Example.zeros, m)).
Proof. reflexivity. Qed.

End PetscTheory.

(** * Properties of the derivative operators *)

Module DerivsTheory.
Import Bout BoutTheory Derivs.

(** ** Second derivatives on a non-uniform grid *)



(** ** The Z derivative of vectors *)

(** C6: each component of [DDZ(v)] for a 3D vector is the component's scalar
    Z derivative corrected by the Christoffel terms, subtracted with the
    pattern [Gamma k i] when [v] is covariant and added with the transposed
    pattern [Gamma i k] when it is contravariant; the result has the basis
    flag of [v]; and the two formulas differ: on the uniform unit mesh the
    x component for the components (1, 10, 100) is -3321 in the
    covariant case and 1431 in the contravariant one. *)
Theorem DDZ_Vector3D_christoffel :
  (forall (ops : FieldOps) (mesh : Mesh) (v : Vector3D) (outloc : CELL_LOC)
          (method : DIFF_METHOD),
     covariant3 (DDZ_Vector3D ops mesh v outloc method) = covariant3 v
     /\ forall i : Axis,
          component (DDZ_Vector3D ops mesh v outloc method) i
          = covariant_derivative ops mesh v outloc method i)
  /\ (let x := Example.uniform3 1%float CELL_CENTRE in
      let y := Example.uniform3 (Example.real_of_Z 10) CELL_CENTRE in
      let z := Example.uniform3 (Example.real_of_Z 100) CELL_CENTRE in
      let ddz b :=
        v3x (DDZ_Vector3D Example.pointwise Example.uniform_mesh
               (mkVector3D x y z b) CELL_DEFAULT DIFF_DEFAULT) in
      value3 (ddz true) 0 0 0 = Some (Example.real_of_Z (-3321))
      /\ value3 (ddz false) 0 0 0 = Some (Example.real_of_Z 1431)
      /\ value3 (ddz true) 0 0 0 <> value3 (ddz false) 0 0 0).
Proof.
  split.
  - intros ops mesh v outloc method.
    unfold DDZ_Vector3D, covariant_derivative.
    destruct (covariant3 v) eqn:Hcov; simpl; rewrite ?Hcov;
      (split; [reflexivity | intros []; reflexivity]).
  - cbv zeta.
    split; [vm_compute; reflexivity|].
    split; [vm_compute; reflexivity|].
    intros Heq. vm_compute in Heq.
    assert (Hne : (-3321)%float = 1431%float) by congruence.
    revert Hne. apply float_neq; reflexivity.
Qed.

(** C10: [DDZ] of a 2D vector has the basis flag of its argument and three
    components that are zero at every point. *)
Theorem DDZ_Vector2D_zero (v : Vector2D) :
  covariant2 (DDZ_Vector2D v) = covariant2 v
  /\ forall jx jy : Z,
       value2 (v2x (DDZ_Vector2D v)) jx jy = Some 0%float
       /\ value2 (v2y (DDZ_Vector2D v)) jx jy = Some 0%float
       /\ value2 (v2z (DDZ_Vector2D v)) jx jy = Some 0%float.
Proof.
  split; [reflexivity|].
  intros jx jy. unfold DDZ_Vector2D, value2; simpl.
  repeat split; reflexivity.
Qed.

(** ** The Z derivatives of 2D fields *)

(** C7: [DDZ] and [D2DZ2] of a 2D field return the zero field, but not at
    the location of their argument, which they do not look at: two fields
    at different locations get the same result, and for a field on the
    lower X faces both results sit at the cell centre, where a newly made
    field sits.  [D4DZ4], next to them, copies the location. *)
Theorem Z_derivatives_2D_location :
  (forall (f : Field2D) (jx jy : Z),
     value2 (DDZ_2D f) jx jy = Some 0%float
     /\ value2 (D2DZ2_2D f) jx jy = Some 0%float)
  /\ (forall f g : Field2D, DDZ_2D f = DDZ_2D g /\ D2DZ2_2D f = D2DZ2_2D g)
  /\ location2 Example.f_xlow = CELL_XLOW
  /\ location2 (DDZ_2D Example.f_xlow) = CELL_CENTRE
  /\ location2 (D2DZ2_2D Example.f_xlow) = CELL_CENTRE
  /\ (forall f : Field2D, location2 (D4DZ4_2D f) = location2 f).
Proof.
  split; [intros f jx jy; split; reflexivity|].
  split; [intros f g; split; reflexivity|].
  repeat split; reflexivity.
Qed.

(** ** The order of the location and the method *)

(** C9 (amended): every overload that takes a differencing method and then
    an output location returns what the overload with the two in the other
    order returns.  Two overloads that take a location and a method have no
    such counterpart, [VDDX] and [VDDY] on two 2D fields: called with the
    method first they are not called at all, the call goes to the general
    overload, and what comes back is the 3D field of the general index
    operator, no 2D field. *)
Theorem method_location_order (ops : FieldOps) (mesh : Mesh)
    (f v3 f3 : Field3D) (v2 f2 : Field2D) (v f0 : Field) (w : Vector3D)
    (method : DIFF_METHOD) (outloc : CELL_LOC) (inc_xbndry : bool) :
  DDX_method_loc ops mesh f method outloc = DDX ops mesh f outloc method
  /\ DDY_method_loc ops mesh f method outloc = DDY ops mesh f outloc method
  /\ DDZ_method_loc ops mesh f method outloc inc_xbndry
     = DDZ ops mesh f outloc method inc_xbndry
  /\ DDZ_Vector3D_method_loc ops mesh w method outloc
     = DDZ_Vector3D ops mesh w outloc method
  /\ D2DX2_method_loc ops mesh f method outloc
     = D2DX2 ops mesh f outloc method
  /\ D2DY2_method_loc ops mesh f method outloc
     = D2DY2 ops mesh f outloc method
  /\ D2DZ2_method_loc ops mesh f method outloc inc_xbndry
     = D2DZ2 ops mesh f outloc method inc_xbndry
  /\ VDDX_method_loc ops mesh v f0 method outloc
     = VDDX ops mesh v f0 outloc method
  /\ VDDY_method_loc ops mesh v f0 method outloc
     = VDDY ops mesh v f0 outloc method
  /\ VDDZ_method_loc ops mesh v f0 method outloc
     = VDDZ ops mesh v f0 outloc method
  /\ FDDX_2D_method_loc ops mesh v2 f2 method outloc
     = FDDX_2D ops mesh v2 f2 outloc method
  /\ FDDX_method_loc ops mesh v3 f3 method outloc
     = FDDX ops mesh v3 f3 outloc method
  /\ FDDY_2D_method_loc ops mesh v2 f2 method outloc
     = FDDY_2D ops mesh v2 f2 outloc method
  /\ FDDY_method_loc ops mesh v3 f3 method outloc
     = FDDY ops mesh v3 f3 outloc method
  /\ FDDZ_2D_method_loc v2 f2 method outloc = FDDZ_2D v2 f2 outloc method
  /\ FDDZ_method_loc ops mesh v3 f3 method outloc
     = FDDZ ops mesh v3 f3 outloc method
  /\ VDDX_2D_method_loc ops mesh v2 f2 method outloc
     = div32 ops (indexVDDX mesh (F2 v2) (F2 f2) outloc method)
         (dx (coordinates mesh))
  /\ VDDX_2D ops mesh v2 f2 outloc method
     = div22 ops (indexVDDX_2D mesh v2 f2 outloc method)
         (dx (coordinates mesh))
  /\ F3 (VDDX_2D_method_loc ops mesh v2 f2 method outloc)
     <> F2 (VDDX_2D ops mesh v2 f2 outloc method)
  /\ VDDY_2D_method_loc ops mesh v2 f2 method outloc
     = div32 ops (indexVDDY mesh (F2 v2) (F2 f2) outloc method)
         (dy (coordinates mesh))
  /\ VDDY_2D ops mesh v2 f2 outloc method
     = div22 ops (indexVDDY_2D mesh v2 f2 outloc method)
         (dy (coordinates mesh))
  /\ F3 (VDDY_2D_method_loc ops mesh v2 f2 method outloc)
     <> F2 (VDDY_2D ops mesh v2 f2 outloc method).
Proof.
  unfold DDX_method_loc, DDY_method_loc, DDZ_method_loc,
    DDZ_Vector3D_method_loc, D2DX2_method_loc, D2DY2_method_loc,
    D2DZ2_method_loc, VDDX_2D_method_loc, VDDY_2D_method_loc,
    VDDX_method_loc, VDDY_method_loc, VDDZ_method_loc,
    FDDX_2D_method_loc, FDDX_method_loc, FDDY_2D_method_loc, FDDY_method_loc,
    FDDZ_2D, FDDZ_method_loc.
  do 16 (split; [reflexivity|]).
  split; [reflexivity|]. split; [reflexivity|]. split; [discriminate|].
  split; [reflexivity|]. split; [reflexivity|]. discriminate.
Qed.

(** [VDDX] of two 2D fields on the uniform unit mesh, at the cell centre
    with the default method: with the location first the call returns the
    [Field2D] of the special case, with the method first the [Field3D] of
    the general overload. *)
Lemma VDDX_2D_order_changes_overload :
  F3 (VDDX_2D_method_loc Example.pointwise Example.uniform_mesh
        (Field2D_real 1%float) (Field2D_real 2%float) DIFF_DEFAULT
        CELL_CENTRE)
  <> F2 (VDDX_2D Example.pointwise Example.uniform_mesh
           (Field2D_real 1%float) (Field2D_real 2%float) CELL_CENTRE
           DIFF_DEFAULT).
Proof. discriminate. Qed.

End DerivsTheory.

(** * More on the codec *)

Module CodecTheory.
Import Bout BoutTheory Petsc Conditions PetscTheory.

(** ** The size of the flat vector *)

Lemma length_grid (outer ys : list Z) :
  length (grid outer ys) = (length outer * length ys)%nat.
Proof.
  unfold grid. apply flat_map_constant_length.
  intros a _. apply length_map.
Qed.

Lemma length_traversal (mesh : Mesh) :
  length (traversal mesh) = traversal_size mesh.
Proof.
  unfold traversal, traversal_size, inner_x_stripe, lower_y_region, bulk,
    upper_y_region, outer_x_stripe.
  rewrite !length_app.
  assert (Hin : length (if firstX mesh
                        then grid (zrange 0 (xstart mesh))
                                  (zrange (ystart mesh) (yend mesh + 1))
                        else [])
                = if firstX mesh
                  then (Z.to_nat (xstart mesh)
                        * Z.to_nat (yend mesh + 1 - ystart mesh))%nat
                  else 0%nat).
  { destruct (firstX mesh); [|reflexivity].
    rewrite length_grid, !length_zrange. now rewrite Z.sub_0_r. }
  assert (Hout : length (if lastX mesh
                         then grid (zrange (xend mesh + 1) (ngx mesh))
                                   (zrange (ystart mesh) (yend mesh + 1))
                         else [])
                 = if lastX mesh
                   then (Z.to_nat (ngx mesh - (xend mesh + 1))
                         * Z.to_nat (yend mesh + 1 - ystart mesh))%nat
                   else 0%nat).
  { destruct (lastX mesh); [|reflexivity].
    now rewrite length_grid, !length_zrange. }
  rewrite Hin, Hout, !length_grid, !length_zrange, Z.sub_0_r. lia.
Qed.

Lemma length_layout (mesh : Mesh) (reg : Registry) :
  length (layout mesh reg)
  = (traversal_size mesh * point_size mesh reg)%nat.
Proof.
  unfold layout.
  rewrite (@flat_map_constant_length _ _ (point_size mesh reg)).
  - now rewrite length_traversal.
  - intros pt _. apply length_point_slots.
Qed.

(** X1: the two saving operations fill the positions [0 .. N-1] of the
    flat vector and no other, [N] being the number of points of the five
    regions times the number of values per point: every position below [N]
    receives the value of a cell, every other position keeps what it
    held. *)
Theorem saving_fills_local_size (mesh : Mesh) (reg : Registry)
    (op : SOLVER_VAR_OP) (udata udata' : Buffer) (m m' : Memory) :
  op <> LOAD_VARS ->
  loop_vars mesh reg udata op m = Ok (udata', m') ->
  let N := Z.of_nat (traversal_size mesh * point_size mesh reg) in
  (forall k, 0 <= k < N ->
     exists s, nth_error (layout mesh reg) (Z.to_nat k) = Some s
               /\ peek m (slot_address op s) = Ok (udata' k))
  /\ (forall k, k < 0 \/ N <= k -> udata' k = udata k).
Proof.
  intros Hop Hrun N.
  destruct (@loop_vars_saved mesh reg op udata udata' m m' Hop Hrun)
    as (_ & Hval & Hout).
  subst N. rewrite <- length_layout. split.
  - intros k Hk.
    destruct (nth_error (layout mesh reg) (Z.to_nat k)) as [s|] eqn:Hs.
    + exists s. split; [reflexivity|].
      rewrite (Hval _ _ Hs). do 2 f_equal. lia.
    + apply nth_error_None in Hs. lia.
  - exact Hout.
Qed.

(** ** The points of the traversal *)

Lemma In_grid (outer ys : list Z) (a jy : Z) :
  In (a, jy) (grid outer ys) <-> In a outer /\ In jy ys.
Proof.
  unfold grid. rewrite in_flat_map. split.
  - intros (b & Hb & Hin). apply in_map_iff in Hin.
    destruct Hin as (y & [= <- <-] & Hy). now split.
  - intros [Ha Hy]. exists a. split; [exact Ha|]. now apply in_map.
Qed.

(** The five regions, by the indices of their points. *)
Lemma In_traversal (mesh : Mesh) (jx jy : Z) :
  In (jx, jy) (traversal mesh) <->
  (firstX mesh = true /\ 0 <= jx < xstart mesh
   /\ ystart mesh <= jy <= yend mesh)
  \/ (In jx (iterateBndryLowerY mesh) /\ 0 <= jy < ystart mesh)
  \/ (xstart mesh <= jx <= xend mesh /\ ystart mesh <= jy <= yend mesh)
  \/ (In jx (iterateBndryUpperY mesh) /\ yend mesh < jy < ngy mesh)
  \/ (lastX mesh = true /\ xend mesh < jx < ngx mesh
      /\ ystart mesh <= jy <= yend mesh).
Proof.
  unfold traversal, inner_x_stripe, lower_y_region, bulk, upper_y_region,
    outer_x_stripe.
  rewrite !in_app_iff.
  assert (Hin : In (jx, jy)
                  (if firstX mesh
                   then grid (zrange 0 (xstart mesh))
                             (zrange (ystart mesh) (yend mesh + 1))
                   else [])
                <-> firstX mesh = true /\ 0 <= jx < xstart mesh
                    /\ ystart mesh <= jy <= yend mesh).
  { destruct (firstX mesh).
    - rewrite In_grid, !In_zrange. intuition lia.
    - simpl. intuition discriminate. }
  assert (Hout : In (jx, jy)
                   (if lastX mesh
                    then grid (zrange (xend mesh + 1) (ngx mesh))
                              (zrange (ystart mesh) (yend mesh + 1))
                    else [])
                 <-> lastX mesh = true /\ xend mesh < jx < ngx mesh
                     /\ ystart mesh <= jy <= yend mesh).
  { destruct (lastX mesh).
    - rewrite In_grid, !In_zrange. intuition lia.
    - simpl. intuition discriminate. }
  rewrite Hin, Hout, !In_grid, !In_zrange. intuition lia.
Qed.

(** The slots of the layout, by the point and the plane they belong to. *)
Lemma In_layout (mesh : Mesh) (reg : Registry) (s : Slot) :
  In s (layout mesh reg) <->
  match s with
  | Slot2D v jx jy => In v (f2d reg) /\ In (jx, jy) (traversal mesh)
  | Slot3D v jx jy jz =>
      In v (f3d reg) /\ In (jx, jy) (traversal mesh)
      /\ 0 <= jz < ngz mesh - 1
  end.
Proof.
  unfold layout. rewrite in_flat_map. split.
  - intros ([x y] & Hpt & Hs). unfold point_slots in Hs.
    apply in_app_or in Hs. destruct Hs as [Hs|Hs].
    + apply in_map_iff in Hs. destruct Hs as (v & <- & Hv). now split.
    + apply in_flat_map in Hs. destruct Hs as (jz & Hjz & Hs).
      apply in_map_iff in Hs. destruct Hs as (v & <- & Hv).
      apply In_zrange in Hjz. unfold planes in Hjz. now repeat split.
  - destruct s as [v jx jy|v jx jy jz].
    + intros [Hv Hpt]. exists (jx, jy). split; [exact Hpt|].
      unfold point_slots. apply in_or_app. left.
      apply in_map_iff. now exists v.
    + intros (Hv & Hpt & Hjz). exists (jx, jy). split; [exact Hpt|].
      unfold point_slots. apply in_or_app. right.
      apply in_flat_map. exists jz. split.
      * apply In_zrange. unfold planes. lia.
      * apply in_map_iff. now exists v.
Qed.

(** X2: on a mesh whose index ranges and boundary iterators lie in the
    local grid, every cell the codec touches has its X index in
    [0 .. ngx-1], its Y index in [0 .. ngy-1] and, for a 3D variable, its Z
    index in [0 .. ngz-2]. *)
Theorem layout_in_grid (mesh : Mesh) (reg : Registry) (s : Slot) :
  mesh_in_grid mesh ->
  In s (layout mesh reg) ->
  match s with
  | Slot2D _ jx jy => 0 <= jx < ngx mesh /\ 0 <= jy < ngy mesh
  | Slot3D _ jx jy jz =>
      0 <= jx < ngx mesh /\ 0 <= jy < ngy mesh /\ 0 <= jz < ngz mesh - 1
  end.
Proof.
  intros (Hx & Hxe & Hy & Hye & Hlow & Hup) Hs.
  rewrite Forall_forall in Hlow, Hup.
  assert (Hpt : forall jx jy, In (jx, jy) (traversal mesh) ->
                  0 <= jx < ngx mesh /\ 0 <= jy < ngy mesh).
  { intros jx jy Hin. apply In_traversal in Hin.
    destruct Hin as [H|[[Hi H]|[H|[[Hi H]|H]]]];
      try (specialize (Hlow _ Hi)); try (specialize (Hup _ Hi)); lia. }
  apply In_layout in Hs. destruct s as [v jx jy|v jx jy jz].
  - destruct Hs as [_ Hin]. now apply Hpt.
  - destruct Hs as (_ & Hin & Hjz).
    destruct (Hpt _ _ Hin). now repeat split.
Qed.

Lemma layout_in_grid_witness :
  mesh_in_grid Example.mesh
  /\ In (Slot3D (mkVarStr (Ptr3 0) (Ptr3 1) CELL_CENTRE false) 3 2 1)
        (layout Example.mesh Example.reg)
  /\ (0 <= 3 < ngx Example.mesh /\ 0 <= 2 < ngy Example.mesh
      /\ 0 <= 1 < ngz Example.mesh - 1).
Proof.
  assert (Hmesh : mesh_in_grid Example.mesh).
  { unfold mesh_in_grid; simpl.
    repeat split; try lia; repeat constructor; lia. }
  assert (Hin : In (Slot3D (mkVarStr (Ptr3 0) (Ptr3 1) CELL_CENTRE false)
                           3 2 1)
                   (layout Example.mesh Example.reg)).
  { apply (nth_error_In _ 71). reflexivity. }
  split; [exact Hmesh|]. split; [exact Hin|].
  exact (@layout_in_grid Example.mesh Example.reg _ Hmesh Hin).
Defined.

(** ** No cell twice *)

Lemma NoDup_flat_map {A B : Type} (g : A -> list B) (l : list A) :
  NoDup l ->
  (forall a, In a l -> NoDup (g a)) ->
  (forall a b x, In a l -> In b l -> In x (g a) -> In x (g b) -> a = b) ->
  NoDup (flat_map g l).
Proof.
  induction l as [|a l IH]; intros Hl Hg Hsep; simpl.
  - constructor.
  - apply NoDup_cons_iff in Hl. destruct Hl as [Ha Hl].
    apply NoDup_app.
    + apply Hg. now left.
    + apply IH; [exact Hl | |].
      * intros b Hb. apply Hg. now right.
      * intros b c x Hb Hc. apply Hsep; now right.
    + intros x Hxa Hxl. apply in_flat_map in Hxl.
      destruct Hxl as (b & Hb & Hxb).
      apply Ha. rewrite (Hsep a b x); auto; [now left | now right].
Qed.

Lemma NoDup_map_injective {A B : Type} (f : A -> B) (l : list A) :
  (forall a b, f a = f b -> a = b) -> NoDup l -> NoDup (map f l).
Proof.
  intros Hinj Hl. apply NoDup_map_NoDup_ForallPairs; [|exact Hl].
  intros a b _ _. apply Hinj.
Qed.

Lemma NoDup_zrange (lo hi : Z) : NoDup (zrange lo hi).
Proof.
  unfold zrange. apply NoDup_map_injective; [|apply seq_NoDup].
  intros a b. lia.
Qed.

Lemma NoDup_grid (outer ys : list Z) :
  NoDup outer -> NoDup ys -> NoDup (grid outer ys).
Proof.
  intros Ho Hy. unfold grid. apply NoDup_flat_map; [exact Ho | |].
  - intros a _. apply NoDup_map_injective; [|exact Hy]. congruence.
  - intros a b [x y] _ _ Ha Hb.
    apply in_map_iff in Ha. destruct Ha as (? & [= <- _] & _).
    apply in_map_iff in Hb. destruct Hb as (? & [= <- _] & _).
    reflexivity.
Qed.

(** When the boundary iterators give no index twice, the traversal visits
    no point twice: the regions do not overlap. *)
Lemma NoDup_traversal (mesh : Mesh) :
  regions_separate mesh -> NoDup (traversal mesh).
Proof.
  intros (Hxs & Hys & Hlow & Hup).
  assert (Hsplit : forall l1 l2 : list (Z * Z),
            NoDup l1 -> NoDup l2 ->
            (forall jx jy, In (jx, jy) l1 -> In (jx, jy) l2 -> False) ->
            NoDup (l1 ++ l2)).
  { intros l1 l2 H1 H2 Hsep. apply NoDup_app; [exact H1 | exact H2|].
    intros [jx jy] Hin1 Hin2. exact (Hsep _ _ Hin1 Hin2). }
  assert (Hinner : NoDup (inner_x_stripe mesh)).
  { unfold inner_x_stripe. destruct (firstX mesh); [|constructor].
    apply NoDup_grid; apply NoDup_zrange. }
  assert (Houter : NoDup (outer_x_stripe mesh)).
  { unfold outer_x_stripe. destruct (lastX mesh); [|constructor].
    apply NoDup_grid; apply NoDup_zrange. }
  assert (Hin_inner : forall jx jy, In (jx, jy) (inner_x_stripe mesh) ->
            jx < xstart mesh /\ ystart mesh <= jy <= yend mesh).
  { unfold inner_x_stripe. intros jx jy.
    destruct (firstX mesh); [|intros []].
    rewrite In_grid, !In_zrange. lia. }
  assert (Hin_outer : forall jx jy, In (jx, jy) (outer_x_stripe mesh) ->
            xend mesh < jx /\ ystart mesh <= jy <= yend mesh).
  { unfold outer_x_stripe. intros jx jy.
    destruct (lastX mesh); [|intros []].
    rewrite In_grid, !In_zrange. lia. }
  unfold traversal.
  apply Hsplit; [exact Hinner | |].
  2:{ intros jx jy H1 H2. apply Hin_inner in H1.
      rewrite !in_app_iff in H2. unfold lower_y_region, bulk, upper_y_region in H2.
      rewrite !In_grid, !In_zrange in H2.
      destruct H2 as [H2|[H2|[H2|H2]]]; [lia | lia | lia |].
      apply Hin_outer in H2. lia. }
  apply Hsplit; [apply NoDup_grid; [exact Hlow | apply NoDup_zrange] | |].
  2:{ intros jx jy H1 H2. unfold lower_y_region in H1.
      rewrite In_grid, In_zrange in H1.
      rewrite !in_app_iff in H2. unfold bulk, upper_y_region in H2.
      rewrite !In_grid, !In_zrange in H2.
      destruct H2 as [H2|[H2|H2]]; [lia | lia |].
      apply Hin_outer in H2. lia. }
  apply Hsplit; [apply NoDup_grid; apply NoDup_zrange | |].
  2:{ intros jx jy H1 H2. unfold bulk in H1.
      rewrite In_grid, !In_zrange in H1.
      rewrite in_app_iff in H2. unfold upper_y_region in H2.
      rewrite In_grid, In_zrange in H2.
      destruct H2 as [H2|H2]; [lia|].
      apply Hin_outer in H2. lia. }
  apply Hsplit;
    [apply NoDup_grid; [exact Hup | apply NoDup_zrange] | exact Houter |].
  intros jx jy H1 H2. unfold upper_y_region in H1.
  rewrite In_grid, In_zrange in H1. apply Hin_outer in H2. lia.
Qed.

(** The cells of the slots of one point. *)
Lemma NoDup_point_cells (mesh : Mesh) (reg : Registry) (op : SOLVER_VAR_OP)
    (pt : Z * Z) :
  op <> SAVE_DERIVS ->
  registered_once reg ->
  NoDup (map (slot_address op) (point_slots mesh reg pt)).
Proof.
  intros Hop [H2 H3]. destruct pt as [jx jy]. unfold point_slots.
  rewrite map_app. apply NoDup_app.
  - rewrite map_map.
    replace (map (fun v => slot_address op (Slot2D v jx jy)) (f2d reg))
      with (map (fun q => At2 q jx jy) (map (@var Field2D_ptr) (f2d reg))).
    + apply NoDup_map_injective; [congruence | exact H2].
    + rewrite map_map. apply map_ext. intros v.
      destruct op; try reflexivity; congruence.
  - replace (map (slot_address op)
               (flat_map (fun jz => map (fun v => Slot3D v jx jy jz) (f3d reg))
                  (zrange 0 (planes mesh))))
      with (flat_map
              (fun jz => map (fun q => At3 q jx jy jz)
                           (map (@var Field3D_ptr) (f3d reg)))
              (zrange 0 (planes mesh))).
    + apply NoDup_flat_map; [apply NoDup_zrange | |].
      * intros jz _. apply NoDup_map_injective; [congruence | exact H3].
      * intros a b x _ _ Ha Hb.
        apply in_map_iff in Ha. destruct Ha as (? & <- & _).
        apply in_map_iff in Hb. destruct Hb as (? & [= _ ->] & _).
        reflexivity.
    + induction (zrange 0 (planes mesh)) as [|jz l IH]; simpl.
      * reflexivity.
      * rewrite map_app, IH. f_equal. rewrite !map_map.
        apply map_ext. intros v. destruct op; try reflexivity; congruence.
  - intros a Ha Hb.
    apply in_map_iff in Ha. destruct Ha as (s2 & <- & Hs2).
    apply in_map_iff in Hs2. destruct Hs2 as (v & <- & _).
    apply in_map_iff in Hb. destruct Hb as (s3 & Heq & Hs3).
    apply in_flat_map in Hs3. destruct Hs3 as (jz & _ & Hs3).
    apply in_map_iff in Hs3. destruct Hs3 as (w & <- & _).
    discriminate.
Qed.

Lemma layout_cells_distinct (mesh : Mesh) (reg : Registry)
    (op : SOLVER_VAR_OP) :
  op <> SAVE_DERIVS ->
  regions_separate mesh ->
  registered_once reg ->
  NoDup (map (slot_address op) (layout mesh reg)).
Proof.
  intros Hop Hiter Hreg. unfold layout.
  replace (map (slot_address op) (flat_map (point_slots mesh reg) (traversal mesh)))
    with (flat_map (fun pt => map (slot_address op) (point_slots mesh reg pt))
                   (traversal mesh)).
  - apply NoDup_flat_map; [now apply NoDup_traversal | |].
    + intros pt _. now apply NoDup_point_cells.
    + intros [x y] [x' y'] a _ _ Ha Hb.
      apply in_map_iff in Ha. destruct Ha as (s & <- & Hs).
      apply in_map_iff in Hb. destruct Hb as (s' & Heq & Hs').
      assert (Hat : forall pt s, In s (point_slots mesh reg pt) ->
                match slot_address op s with
                | At2 _ jx jy | At3 _ jx jy _ => pt = (jx, jy)
                end).
      { intros [px py] t Ht. unfold point_slots in Ht.
        apply in_app_or in Ht. destruct Ht as [Ht|Ht].
        - apply in_map_iff in Ht. destruct Ht as (v & <- & _). reflexivity.
        - apply in_flat_map in Ht. destruct Ht as (jz & _ & Ht).
          apply in_map_iff in Ht. destruct Ht as (v & <- & _). reflexivity. }
      pose proof (Hat _ _ Hs) as H1. pose proof (Hat _ _ Hs') as H2.
      rewrite Heq in H2.
      destruct (slot_address op s); congruence.
  - induction (traversal mesh) as [|pt l IH]; simpl.
    + reflexivity.
    + now rewrite map_app, IH.
Qed.

(** ** [load_vars], step by step *)

Section Load.

Variable lib : Library.
Variable mesh : Mesh.
Variable reg : Registry.

(** The fields after the two allocation loops. *)
Definition load_allocated (m : Memory) : Memory :=
  fold_left
    (fun m v => setLocation3 (var v) (location v) (allocate3 lib (var v) m))
    (f3d reg)
    (fold_left (fun m v => allocate2 lib (var v) m) (f2d reg) m).

(** The fields after the two loops that mark the vectors. *)
Definition load_marked (m : Memory) : Memory :=
  fold_left (fun m v => set_covariant3 (var v) (covariant v) m) (v3d reg)
    (fold_left (fun m v => set_covariant2 (var v) (covariant v) m)
       (v2d reg) m).

Lemma load_vars_steps (udata : Buffer) (m : Memory) :
  load_vars lib mesh reg udata m
  = bind (loop_vars mesh reg udata LOAD_VARS (load_allocated m))
         (fun r => Ok (load_marked (snd r))).
Proof. reflexivity. Qed.

Lemma load_allocated_all (m : Memory) :
  all_allocated reg (load_allocated m).
Proof. apply load_vars_allocates. Qed.

(** LOAD cannot fault. *)
Lemma load_vars_runs (udata : Buffer) (m : Memory) :
  exists ml, loop_vars mesh reg udata LOAD_VARS (load_allocated m)
             = Ok (udata, ml)
             /\ load_vars lib mesh reg udata m = Ok (load_marked ml).
Proof.
  assert (Hcells : forall s, In s (layout mesh reg) ->
            allocated (load_allocated m) (slot_address LOAD_VARS s)).
  { apply all_allocated_layout; [discriminate | apply load_allocated_all]. }
  destruct (@transfer_all_load_total (layout mesh reg) 0 udata
              (load_allocated m) Hcells) as [ml Hml].
  exists ml. rewrite load_vars_steps, loop_vars_transfer, Hml.
  split; reflexivity.
Qed.

(** Marking the vectors leaves every scalar field, the components of the
    vectors included, as it is. *)
Lemma deref2_set_covariant2 (v : nat) (flag : bool) (m : Memory)
    (q : Field2D_ptr) :
  deref2 (set_covariant2 v flag m) q = deref2 m q.
Proof.
  destruct q; simpl; try reflexivity; unfold update;
    destruct (Nat.eqb_spec v0 v); subst; reflexivity.
Qed.

Lemma deref3_set_covariant3 (v : nat) (flag : bool) (m : Memory)
    (q : Field3D_ptr) :
  deref3 (set_covariant3 v flag m) q = deref3 m q.
Proof.
  destruct q; simpl; try reflexivity; unfold update;
    destruct (Nat.eqb_spec v0 v); subst; reflexivity.
Qed.

Lemma deref_load_marked (m : Memory) :
  (forall q, deref2 (load_marked m) q = deref2 m q)
  /\ (forall q, deref3 (load_marked m) q = deref3 m q).
Proof.
  unfold load_marked.
  apply (fold_left_invariant
           (fun m v => set_covariant3 (var v) (covariant v) m)
           (fun m' => (forall q, deref2 m' q = deref2 m q)
                      /\ (forall q, deref3 m' q = deref3 m q))).
  - intros a b _ [H2 H3]. split; intros q.
    + rewrite <- H2. destruct q; reflexivity.
    + now rewrite deref3_set_covariant3.
  - apply (fold_left_invariant
             (fun m v => set_covariant2 (var v) (covariant v) m)
             (fun m' => (forall q, deref2 m' q = deref2 m q)
                        /\ (forall q, deref3 m' q = deref3 m q))).
    + intros a b _ [H2 H3]. split; intros q.
      * now rewrite deref2_set_covariant2.
      * rewrite <- H3. destruct q; reflexivity.
    + split; reflexivity.
Qed.

Lemma peek_load_marked (m : Memory) (a : Address) :
  peek (load_marked m) a = peek m a.
Proof.
  destruct (deref_load_marked m) as [H2 H3].
  destruct a; simpl; now rewrite ?H2, ?H3.
Qed.

(** *** What a LOAD keeps *)

(** From [m] to [m']: locations and basis flags are the same and no field
    has lost its storage. *)
Definition same_shape (m m' : Memory) : Prop :=
  (forall q, location2 (deref2 m' q) = location2 (deref2 m q))
  /\ (forall q, location3 (deref3 m' q) = location3 (deref3 m q))
  /\ (forall v, covariant2 (vectors2 m' v) = covariant2 (vectors2 m v))
  /\ (forall v, covariant3 (vectors3 m' v) = covariant3 (vectors3 m v))
  /\ (forall q, data2 (deref2 m q) <> None -> data2 (deref2 m' q) <> None)
  /\ (forall q, data3 (deref3 m q) <> None -> data3 (deref3 m' q) <> None).

Lemma same_shape_refl (m : Memory) : same_shape m m.
Proof. unfold same_shape. intuition. Qed.

Lemma same_shape_trans (m1 m2 m3 : Memory) :
  same_shape m1 m2 -> same_shape m2 m3 -> same_shape m1 m3.
Proof.
  intros (A2 & A3 & B2 & B3 & C2 & C3) (D2 & D3 & E2 & E3 & F2 & F3).
  unfold same_shape.
  split; [intros q; now rewrite D2|].
  split; [intros q; now rewrite D3|].
  split; [intros v; now rewrite E2|].
  split; [intros v; now rewrite E3|].
  split; intros q Hq; [apply F2, C2 | apply F3, C3]; exact Hq.
Qed.

Lemma poke_same_shape (m m' : Memory) (a : Address) (x : BoutReal) :
  poke m a x = Ok m' -> same_shape m m'.
Proof.
  destruct a as [q jx jy|q jx jy jz]; simpl.
  - destruct (data2 (deref2 m q)) as [d|] eqn:Hd; [|discriminate].
    intros [= <-]. unfold same_shape.
    split.
    { intros q0. destruct (Field2D_ptr_eq_dec q q0) as [<-|Hne].
      - now rewrite deref2_store2_same.
      - now rewrite deref2_store2_other. }
    split; [intros q0; now rewrite deref3_store2|].
    split.
    { intros v. destruct q; simpl; try reflexivity; unfold update;
        destruct (Nat.eqb_spec v v0); subst; reflexivity. }
    split; [intros v; destruct q; reflexivity|].
    split.
    { intros q0 Hq0. destruct (Field2D_ptr_eq_dec q q0) as [<-|Hne].
      - rewrite deref2_store2_same. discriminate.
      - now rewrite deref2_store2_other. }
    intros q0. now rewrite deref3_store2.
  - destruct (data3 (deref3 m q)) as [d|] eqn:Hd; [|discriminate].
    intros [= <-]. unfold same_shape.
    split; [intros q0; now rewrite deref2_store3|].
    split.
    { intros q0. destruct (Field3D_ptr_eq_dec q q0) as [<-|Hne].
      - now rewrite deref3_store3_same.
      - now rewrite deref3_store3_other. }
    split; [intros v; destruct q; reflexivity|].
    split.
    { intros v. destruct q; simpl; try reflexivity; unfold update;
        destruct (Nat.eqb_spec v v0); subst; reflexivity. }
    split; [intros q0; now rewrite deref2_store3|].
    intros q0 Hq0. destruct (Field3D_ptr_eq_dec q q0) as [<-|Hne].
    + rewrite deref3_store3_same. discriminate.
    + now rewrite deref3_store3_other.
Qed.

Lemma transfer_all_load_same_shape (l : list Slot) :
  forall (k : Z) (u u' : Buffer) (m m' : Memory),
  transfer_all LOAD_VARS k l (u, m) = Ok (u', m') -> same_shape m m'.
Proof.
  induction l as [|s l IH]; intros k u u' m m' Hrun.
  - simpl in Hrun. injection Hrun as <- <-. apply same_shape_refl.
  - simpl in Hrun.
    destruct (poke m (slot_address LOAD_VARS s) (u k)) as [m1|] eqn:Hpoke;
      [|discriminate].
    simpl in Hrun.
    eapply same_shape_trans;
      [exact (@poke_same_shape _ _ _ _ Hpoke) | exact (IH _ _ _ _ _ Hrun)].
Qed.

Lemma fold_left_establish_in {A B : Type} (F : A -> B -> A)
    (Q : B -> A -> Prop) (l : list B) :
  (forall a b, In b l -> Q b (F a b)) ->
  (forall a b b', In b l -> In b' l -> Q b a -> Q b (F a b')) ->
  forall a b, In b l -> Q b (fold_left F l a).
Proof.
  induction l as [|x l IH]; intros Hself Hkeep a b Hb; simpl.
  - destruct Hb.
  - assert (Hrest : forall a, Q b a -> Q b (fold_left F l a)).
    { intros a0 Ha0.
      apply (fold_left_invariant F (Q b)); [|exact Ha0].
      intros a' b' Hb' Ha'. apply Hkeep; [exact Hb | now right | exact Ha']. }
    destruct Hb as [->|Hb'].
    + apply Hrest. apply Hself. now left.
    + apply IH; [| |exact Hb'].
      * intros a0 b0 Hb0. apply Hself. now right.
      * intros a0 b0 b1 Hb0 Hb1. apply Hkeep; now right.
Qed.

Lemma allocate3_location (q q' : Field3D_ptr) (m : Memory) :
  location3 (deref3 (allocate3 lib q m) q') = location3 (deref3 m q').
Proof.
  unfold allocate3. destruct (data3 (deref3 m q)) eqn:Hd; [reflexivity|].
  destruct (Field3D_ptr_eq_dec q q') as [<-|Hne].
  - now rewrite deref3_store3_same.
  - now rewrite deref3_store3_other.
Qed.

(** After the allocation loops a 3D variable is at its declared location. *)
Lemma load_allocated_locations (m : Memory) :
  declared_consistently reg ->
  forall it, In it (f3d reg) ->
    location3 (deref3 (load_allocated m) (var it)) = location it.
Proof.
  intros (Hloc & _ & _). unfold load_allocated.
  apply (fold_left_establish_in
           (fun m (v : VarStr Field3D_ptr) =>
              setLocation3 (var v) (location v) (allocate3 lib (var v) m))
           (fun it m => location3 (deref3 m (var it)) = location it)).
  - intros a b _. unfold setLocation3. now rewrite deref3_store3_same.
  - intros a b b' Hb Hb' Ha. unfold setLocation3.
    destruct (Field3D_ptr_eq_dec (var b') (var b)) as [Heq|Hne].
    + rewrite Heq, deref3_store3_same. simpl. now apply Hloc.
    + rewrite deref3_store3_other by exact Hne.
      now rewrite allocate3_location.
Qed.

(** After the marking loops a vector has its declared basis flag. *)
Lemma load_marked_basis (m : Memory) :
  declared_consistently reg -> declared_basis reg (load_marked m).
Proof.
  intros (_ & Hc2 & Hc3). unfold load_marked. split.
  - intros v Hv.
    apply (fold_left_invariant
             (fun m w => set_covariant3 (var w) (covariant w) m)
             (fun m => covariant2 (vectors2 m (var v)) = covariant v)).
    + intros a b _ Ha. exact Ha.
    + apply (fold_left_establish_in
               (fun m w => set_covariant2 (var w) (covariant w) m)
               (fun v m => covariant2 (vectors2 m (var v)) = covariant v));
        [| |exact Hv].
      * intros a b _. simpl. now rewrite update_same.
      * intros a b b' Hb Hb' Ha. simpl.
        destruct (Nat.eq_dec (var b') (var b)) as [Heq|Hne].
        -- rewrite Heq, update_same. simpl. now apply Hc2.
        -- now rewrite update_other.
  - intros v Hv.
    apply (fold_left_establish_in
             (fun m w => set_covariant3 (var w) (covariant w) m)
             (fun v m => covariant3 (vectors3 m (var v)) = covariant v));
      [| |exact Hv].
    + intros a b _. simpl. now rewrite update_same.
    + intros a b b' Hb Hb' Ha. simpl.
      destruct (Nat.eq_dec (var b') (var b)) as [Heq|Hne].
      * rewrite Heq, update_same. simpl. now apply Hc3.
      * now rewrite update_other.
Qed.

(** What LOAD leaves behind. *)
Lemma load_vars_result (udata : Buffer) (m : Memory) :
  exists ml,
    load_vars lib mesh reg udata m = Ok (load_marked ml)
    /\ transfer_all LOAD_VARS 0 (layout mesh reg) (udata, load_allocated m)
       = Ok (udata, ml)
    /\ all_allocated reg (load_marked ml)
    /\ (declared_consistently reg ->
        declared_basis reg (load_marked ml)
        /\ forall it, In it (f3d reg) ->
             location3 (deref3 (load_marked ml) (var it)) = location it).
Proof.
  destruct (load_vars_runs udata m) as (ml & Hloop & Hload).
  rewrite loop_vars_transfer in Hloop.
  exists ml. split; [exact Hload|]. split; [exact Hloop|].
  pose proof (@transfer_all_load_same_shape _ _ _ _ _ _ Hloop)
    as (_ & Hl3 & _ & _ & Hd2 & Hd3).
  destruct (deref_load_marked ml) as [Hm2 Hm3].
  destruct (load_allocated_all m) as [Ha2 Ha3].
  split.
  - split; intros v Hv.
    + rewrite Hm2. apply Hd2. now apply Ha2.
    + rewrite Hm3. apply Hd3. now apply Ha3.
  - intros Hcons. split; [now apply load_marked_basis|].
    intros it Hit. rewrite Hm3, Hl3.
    now apply load_allocated_locations.
Qed.

(** A cell of a field that has storage is not changed by the allocation
    loops. *)
Lemma peek_load_allocated (m : Memory) (a : Address) :
  allocated m a -> peek (load_allocated m) a = peek m a.
Proof.
  intros Ha. unfold load_allocated.
  assert (Hstep2 : forall q m0, peek m0 a = peek m a ->
                     peek (allocate2 lib q m0) a = peek m a).
  { intros q m0 H0. unfold allocate2.
    destruct (data2 (deref2 m0 q)) eqn:Hd; [exact H0|].
    rewrite <- H0. destruct a as [q' jx jy|q' jx jy jz]; simpl.
    - destruct (Field2D_ptr_eq_dec q q') as [<-|Hne].
      + exfalso. destruct Ha as [x Hx]. rewrite <- H0 in Hx.
        simpl in Hx. rewrite Hd in Hx. discriminate.
      + now rewrite deref2_store2_other.
    - now rewrite deref3_store2. }
  assert (Hstep3 : forall q loc m0, peek m0 a = peek m a ->
                     peek (setLocation3 q loc (allocate3 lib q m0)) a
                     = peek m a).
  { intros q loc m0 H0.
    assert (Halloc : peek (allocate3 lib q m0) a = peek m a).
    { unfold allocate3.
      destruct (data3 (deref3 m0 q)) eqn:Hd; [exact H0|].
      rewrite <- H0. destruct a as [q' jx jy|q' jx jy jz]; simpl.
      - now rewrite deref2_store3.
      - destruct (Field3D_ptr_eq_dec q q') as [<-|Hne].
        + exfalso. destruct Ha as [x Hx]. rewrite <- H0 in Hx.
          simpl in Hx. rewrite Hd in Hx. discriminate.
        + now rewrite deref3_store3_other. }
    rewrite <- Halloc. destruct a as [q' jx jy|q' jx jy jz]; simpl.
    - now rewrite setLocation3_deref2.
    - now rewrite setLocation3_data. }
  apply (fold_left_invariant
           (fun m v => setLocation3 (var v) (location v)
                         (allocate3 lib (var v) m))
           (fun m0 => peek m0 a = peek m a)).
  - intros m0 v _ H0. now apply Hstep3.
  - apply (fold_left_invariant (fun m v => allocate2 lib (var v) m)
             (fun m0 => peek m0 a = peek m a)).
    + intros m0 v _ H0. now apply Hstep2.
    + reflexivity.
Qed.

End Load.

(** ** The small mesh meets the conditions *)

Lemma regions_separate_small_mesh : regions_separate Example.mesh.
Proof.
  unfold regions_separate; simpl.
  split; [lia|]. split; [lia|].
  split; repeat constructor; simpl; intuition discriminate.
Defined.

Lemma registered_once_small_mesh : registered_once Example.reg.
Proof.
  unfold registered_once; simpl.
  split; repeat constructor; simpl; intuition discriminate.
Defined.

Lemma declared_consistently_small_mesh : declared_consistently Example.reg.
Proof.
  unfold declared_consistently; simpl.
  repeat split; intros v w Hv Hw _;
    repeat (destruct Hv as [<-|Hv]); try contradiction;
    repeat (destruct Hw as [<-|Hw]); try contradiction; reflexivity.
Defined.

(** ** LOAD *)

(** X4: [load_vars] cannot fault.  Whatever the flat vector and whatever
    the fields, with or without storage, the call completes, and afterwards
    every registered 2D and 3D variable has storage. *)
Theorem load_vars_never_faults (lib : Library) (mesh : Mesh) (reg : Registry)
    (udata : Buffer) (m : Memory) :
  exists m' : Memory,
    load_vars lib mesh reg udata m = Ok m' /\ all_allocated reg m'.
Proof.
  destruct (load_vars_result lib mesh reg udata m)
    as (ml & Hload & _ & Hall & _).
  exists (load_marked reg ml). now split.
Qed.

(** X5: when no variable is registered twice with different declarations,
    [load_vars] leaves every registered vector with its declared basis flag
    and every registered 3D variable at its declared cell location,
    whatever they were before. *)
Theorem load_vars_restores_declarations (lib : Library) (mesh : Mesh)
    (reg : Registry) (udata : Buffer) (m : Memory) :
  declared_consistently reg ->
  exists m' : Memory,
    load_vars lib mesh reg udata m = Ok m'
    /\ declared_basis reg m'
    /\ forall it, In it (f3d reg) ->
         location3 (deref3 m' (var it)) = location it.
Proof.
  intros Hcons.
  destruct (load_vars_result lib mesh reg udata m)
    as (ml & Hload & _ & _ & Hdecl).
  exists (load_marked reg ml). split; [exact Hload|]. now apply Hdecl.
Qed.

Lemma load_vars_restores_declarations_witness :
  declared_consistently Example.reg
  /\ exists m' : Memory,
       load_vars Example.lib Example.mesh Example.reg Example.zeros
                 (Example.fields false)
       = Ok m'
       /\ declared_basis Example.reg m'
       /\ forall it, In it (f3d Example.reg) ->
            location3 (deref3 m' (var it)) = location it.
Proof.
  split; [exact declared_consistently_small_mesh|].
  exact (@load_vars_restores_declarations Example.lib Example.mesh
           Example.reg Example.zeros (Example.fields false)
           declared_consistently_small_mesh).
Defined.

(** X6: [load_vars] writes only to the cells of the layout.  A cell of a
    field with storage that is no cell of a slot, a guard cell in a corner
    of the grid or a cell of a field that is not registered, holds after
    the call what it held before. *)
Theorem load_vars_frame (lib : Library) (mesh : Mesh) (reg : Registry)
    (udata : Buffer) (m : Memory) (a : Address) :
  allocated m a ->
  (forall s, In s (layout mesh reg) -> slot_address LOAD_VARS s <> a) ->
  exists m' : Memory,
    load_vars lib mesh reg udata m = Ok m' /\ peek m' a = peek m a.
Proof.
  intros Ha Hout.
  destruct (load_vars_result lib mesh reg udata m)
    as (ml & Hload & Hloop & _).
  exists (load_marked reg ml). split; [exact Hload|].
  rewrite peek_load_marked.
  destruct (@transfer_all_load_frame _ _ _ _ _ _ Hloop) as [_ Hframe].
  rewrite (Hframe a Hout). now apply peek_load_allocated.
Qed.

(** The corner guard cell (0,0) of the registered 2D variable, on the small
    mesh. *)
Lemma load_vars_frame_witness :
  allocated (Example.fields true) (At2 (Ptr2 0) 0 0)
  /\ (forall s, In s (layout Example.mesh Example.reg) ->
        slot_address LOAD_VARS s <> At2 (Ptr2 0) 0 0)
  /\ exists m' : Memory,
       load_vars Example.lib Example.mesh Example.reg Example.zeros
                 (Example.fields true)
       = Ok m'
       /\ peek m' (At2 (Ptr2 0) 0 0)
          = peek (Example.fields true) (At2 (Ptr2 0) 0 0).
Proof.
  assert (Ha : allocated (Example.fields true) (At2 (Ptr2 0) 0 0))
    by (eexists; reflexivity).
  assert (Hout : forall s, In s (layout Example.mesh Example.reg) ->
                   slot_address LOAD_VARS s <> At2 (Ptr2 0) 0 0).
  { intros s Hs Heq. apply In_layout in Hs.
    destruct s as [v jx jy|v jx jy jz]; [|discriminate].
    destruct Hs as [_ Hpt]. simpl in Heq. injection Heq as _ -> ->.
    apply In_traversal in Hpt. simpl in Hpt. lia. }
  split; [exact Ha|]. split; [exact Hout|].
  exact (@load_vars_frame Example.lib Example.mesh Example.reg Example.zeros
           (Example.fields true) _ Ha Hout).
Defined.

(** X3: when the interior ranges are not reversed, the boundary iterators
    give no index twice and no field is registered twice, no cell has two
    positions in the flat vector, and after [load_vars] the cell of the
    [k]-th slot of the layout holds the value at position [k], for every
    [k]. *)
Theorem load_vars_fills_cells (lib : Library) (mesh : Mesh) (reg : Registry)
    (udata : Buffer) (m : Memory) :
  regions_separate mesh ->
  registered_once reg ->
  NoDup (map (slot_address LOAD_VARS) (layout mesh reg))
  /\ exists m' : Memory,
       load_vars lib mesh reg udata m = Ok m'
       /\ forall (k : nat) (s : Slot),
            nth_error (layout mesh reg) k = Some s ->
            peek m' (slot_address LOAD_VARS s) = Ok (udata (Z.of_nat k)).
Proof.
  intros Hsep Hreg.
  assert (Hop : LOAD_VARS <> SAVE_DERIVS) by discriminate.
  pose proof (@layout_cells_distinct mesh reg LOAD_VARS Hop Hsep Hreg)
    as Hcells.
  split; [exact Hcells|].
  destruct (load_vars_result lib mesh reg udata m)
    as (ml & Hload & Hloop & _).
  exists (load_marked reg ml). split; [exact Hload|].
  intros k s Hk. rewrite peek_load_marked.
  exact (@transfer_all_load_distinct _ Hcells 0 _ _ _ _ Hloop k s Hk).
Qed.

Lemma load_vars_fills_cells_witness :
  regions_separate Example.mesh
  /\ registered_once Example.reg
  /\ exists m' : Memory,
       load_vars Example.lib Example.mesh Example.reg Example.zeros
                 (Example.fields true)
       = Ok m'
       /\ forall (k : nat) (s : Slot),
            nth_error (layout Example.mesh Example.reg) k = Some s ->
            peek m' (slot_address LOAD_VARS s)
            = Ok (Example.zeros (Z.of_nat k)).
Proof.
  split; [exact regions_separate_small_mesh|].
  split; [exact registered_once_small_mesh|].
  exact (proj2 (@load_vars_fills_cells Example.lib Example.mesh Example.reg
                  Example.zeros (Example.fields true)
                  regions_separate_small_mesh registered_once_small_mesh)).
Defined.

(** ** LOAD followed by SAVE *)

Lemma save_vars_loop (lib : Library) (mesh : Mesh) (reg : Registry)
    (udata u1 : Buffer) (m : Memory) :
  all_allocated reg m -> declared_basis reg m ->
  save_vars lib mesh reg udata m = Ok (0, (u1, m)) ->
  loop_vars mesh reg udata SAVE_VARS m = Ok (u1, m).
Proof.
  intros Hall Hbasis Hsave.
  rewrite save_vars_allocated in Hsave by now apply all_allocated_not_some.
  rewrite (@declared_basis_fixed lib reg m Hbasis) in Hsave.
  destruct (loop_vars mesh reg udata SAVE_VARS m) as [[u m2]|];
    simpl in Hsave; [|discriminate].
  now injection Hsave as -> ->.
Qed.

(** X7: the other round trip.  Under the conditions of X3 and X5,
    [load_vars] from a flat vector followed by [save_vars] into any flat
    vector succeeds, changes no field, and reproduces the loaded vector at
    every position [0 .. N-1]; the other positions of the target keep what
    they held. *)
Theorem load_save_roundtrip (lib : Library) (mesh : Mesh) (reg : Registry)
    (udata u0 : Buffer) (m : Memory) :
  regions_separate mesh ->
  registered_once reg ->
  declared_consistently reg ->
  let N := Z.of_nat (traversal_size mesh * point_size mesh reg) in
  exists (m1 : Memory) (u1 : Buffer),
    load_vars lib mesh reg udata m = Ok m1
    /\ save_vars lib mesh reg u0 m1 = Ok (0, (u1, m1))
    /\ (forall k, 0 <= k < N -> u1 k = udata k)
    /\ (forall k, k < 0 \/ N <= k -> u1 k = u0 k).
Proof.
  intros Hsep Hreg Hcons N.
  assert (Hop : LOAD_VARS <> SAVE_DERIVS) by discriminate.
  pose proof (@layout_cells_distinct mesh reg LOAD_VARS Hop Hsep Hreg)
    as Hcells.
  destruct (load_vars_result lib mesh reg udata m)
    as (ml & Hload & Hloop & Hall & Hdecl).
  destruct (Hdecl Hcons) as [Hbasis _].
  destruct (@save_vars_succeeds lib mesh reg u0 _ Hall Hbasis) as [u1 Hsave].
  exists (load_marked reg ml), u1.
  split; [exact Hload|]. split; [exact Hsave|].
  pose proof (@save_vars_loop lib mesh reg u0 u1 _ Hall Hbasis Hsave) as Hrun.
  assert (Hsaving : SAVE_VARS <> LOAD_VARS) by discriminate.
  destruct (@loop_vars_saved mesh reg SAVE_VARS _ _ _ _ Hsaving Hrun)
    as (_ & Hval & Hkeep).
  subst N. rewrite <- length_layout. split; [|exact Hkeep].
  intros k Hk.
  destruct (nth_error (layout mesh reg) (Z.to_nat k)) as [s|] eqn:Hs.
  - pose proof (Hval _ _ Hs) as Hsaved.
    rewrite slot_address_save_load, peek_load_marked in Hsaved.
    rewrite (@transfer_all_load_distinct _ Hcells 0 _ _ _ _ Hloop _ s Hs)
      in Hsaved.
    injection Hsaved as Heq.
    rewrite ?Z.add_0_l, Z2Nat.id in Heq by lia. now symmetry.
  - apply nth_error_None in Hs. lia.
Qed.

Lemma load_save_roundtrip_witness :
  regions_separate Example.mesh
  /\ registered_once Example.reg
  /\ declared_consistently Example.reg
  /\ exists (m1 : Memory) (u1 : Buffer),
       load_vars Example.lib Example.mesh Example.reg
                 (fun k => Example.real_of_Z k) (Example.fields false)
       = Ok m1
       /\ save_vars Example.lib Example.mesh Example.reg Example.zeros m1
          = Ok (0, (u1, m1))
       /\ (forall k, 0 <= k < 72 -> u1 k = Example.real_of_Z k)
       /\ (forall k, k < 0 \/ 72 <= k -> u1 k = Example.zeros k).
Proof.
  split; [exact regions_separate_small_mesh|].
  split; [exact registered_once_small_mesh|].
  split; [exact declared_consistently_small_mesh|].
  exact (@load_save_roundtrip Example.lib Example.mesh Example.reg
           (fun k => Example.real_of_Z k) Example.zeros (Example.fields false)
           regions_separate_small_mesh registered_once_small_mesh
           declared_consistently_small_mesh).
Defined.

Lemma saving_fills_local_size_witness :
  SAVE_VARS <> LOAD_VARS
  /\ exists (udata' : Buffer) (m' : Memory),
       loop_vars Example.mesh Example.reg Example.zeros SAVE_VARS
                 (Example.fields true)
       = Ok (udata', m')
       /\ (forall k, 0 <= k < 72 ->
             exists s,
               nth_error (layout Example.mesh Example.reg) (Z.to_nat k)
               = Some s
               /\ peek (Example.fields true) (slot_address SAVE_VARS s)
                  = Ok (udata' k))
       /\ (forall k, k < 0 \/ 72 <= k -> udata' k = Example.zeros k).
Proof.
  assert (Hop : SAVE_VARS <> LOAD_VARS) by discriminate.
  assert (Hruns : Example.res_map (fun _ => tt)
                    (loop_vars Example.mesh Example.reg Example.zeros
                               SAVE_VARS (Example.fields true))
                  = Ok tt)
    by (vm_compute; reflexivity).
  split; [exact Hop|].
  destruct (loop_vars Example.mesh Example.reg Example.zeros SAVE_VARS
                      (Example.fields true))
    as [[udata' m']|] eqn:Hrun; [|discriminate].
  exists udata', m'. split; [reflexivity|].
  exact (@saving_fills_local_size Example.mesh Example.reg SAVE_VARS
           Example.zeros udata' (Example.fields true) m' Hop Hrun).
Defined.

(** ** SAVE_DERIVS *)

Lemma CELL_LOC_eqb_refl (loc : CELL_LOC) : CELL_LOC_eqb loc loc = true.
Proof. now destruct loc. Qed.

Lemma derivs_allocated_layout (mesh : Mesh) (reg : Registry) (m : Memory) :
  derivs_allocated reg m ->
  forall s, In s (layout mesh reg) -> allocated m (slot_address SAVE_DERIVS s).
Proof.
  intros [H2 H3] s Hs. apply In_layout in Hs.
  destruct s as [v jx jy|v jx jy jz]; simpl.
  - apply allocated_At2. now apply H2.
  - apply allocated_At3. now apply H3.
Qed.

(** With nothing to bring to a basis or a location, [save_derivs] is the
    copying loop. *)
Lemma save_derivs_as_declared (lib : Library) (mesh : Mesh) (reg : Registry)
    (dudata : Buffer) (m : Memory) :
  derivs_as_declared reg m ->
  save_derivs lib mesh reg dudata m
  = loop_vars mesh reg dudata SAVE_DERIVS m.
Proof.
  intros (H2 & H3 & Hloc). unfold save_derivs.
  rewrite (@fold_left_fixed _ _
             (fun m v => to_basis2 lib (covariant v) (F_var v) m) (v2d reg) m)
    by (intros v Hv; apply to_basis2_id; now apply H2).
  rewrite (@fold_left_fixed _ _
             (fun m v => to_basis3 lib (covariant v) (F_var v) m) (v3d reg) m)
    by (intros v Hv; apply to_basis3_id; now apply H3).
  rewrite (@fold_left_fixed _ _
             (fun m it =>
                if CELL_LOC_eqb (location it)
                                (location3 (deref3 m (F_var it)))
                then m
                else store3 m (F_var it)
                       (interp_to lib (deref3 m (F_var it)) (location it)))
             (f3d reg) m); [reflexivity|].
  intros it Hit. now rewrite (Hloc it Hit), CELL_LOC_eqb_refl.
Qed.

(** X8: when the time derivatives have storage, the vectors among them are
    in their declared basis and the 3D fields at their declared location,
    [save_derivs] succeeds and changes no field; position [k] of the flat
    vector receives the value of the time derivative of the [k]-th slot,
    and the positions outside the layout keep what they held. *)
Theorem save_derivs_copies (lib : Library) (mesh : Mesh) (reg : Registry)
    (dudata : Buffer) (m : Memory) :
  derivs_allocated reg m ->
  derivs_as_declared reg m ->
  exists dudata' : Buffer,
    save_derivs lib mesh reg dudata m = Ok (dudata', m)
    /\ (forall (k : nat) (s : Slot),
          nth_error (layout mesh reg) k = Some s ->
          peek m (slot_address SAVE_DERIVS s) = Ok (dudata' (Z.of_nat k)))
    /\ (forall j : Z,
          j < 0 \/ Z.of_nat (traversal_size mesh * point_size mesh reg) <= j ->
          dudata' j = dudata j).
Proof.
  intros Halloc Hdecl.
  rewrite (@save_derivs_as_declared lib mesh reg dudata m Hdecl).
  assert (Hop : SAVE_DERIVS <> LOAD_VARS) by discriminate.
  destruct (@transfer_all_save_total SAVE_DERIVS (layout mesh reg) Hop 0
              dudata m (@derivs_allocated_layout mesh reg m Halloc))
    as [du Hdu].
  exists du. rewrite loop_vars_transfer, Hdu. split; [reflexivity|].
  rewrite <- loop_vars_transfer in Hdu.
  destruct (@loop_vars_saved mesh reg SAVE_DERIVS _ _ _ _ Hop Hdu)
    as (_ & Hval & Hkeep).
  rewrite <- length_layout. now split.
Qed.

Lemma derivs_as_declared_small_mesh :
  derivs_allocated Example.reg (Example.fields true)
  /\ derivs_as_declared Example.reg (Example.fields true).
Proof.
  split.
  - split; intros v Hv; simpl in Hv;
      repeat (destruct Hv as [<-|Hv]; [simpl; discriminate|]);
      destruct Hv.
  - repeat split; intros v Hv; simpl in Hv;
      repeat (destruct Hv as [<-|Hv]; [reflexivity|]);
      destruct Hv.
Defined.

Lemma save_derivs_copies_witness :
  derivs_allocated Example.reg (Example.fields true)
  /\ derivs_as_declared Example.reg (Example.fields true)
  /\ exists dudata' : Buffer,
       save_derivs Example.lib Example.mesh Example.reg Example.zeros
                   (Example.fields true)
       = Ok (dudata', Example.fields true)
       /\ (forall (k : nat) (s : Slot),
             nth_error (layout Example.mesh Example.reg) k = Some s ->
             peek (Example.fields true) (slot_address SAVE_DERIVS s)
             = Ok (dudata' (Z.of_nat k)))
       /\ (forall j : Z, j < 0 \/ 72 <= j -> dudata' j = Example.zeros j).
Proof.
  split; [exact (proj1 derivs_as_declared_small_mesh)|].
  split; [exact (proj2 derivs_as_declared_small_mesh)|].
  exact (@save_derivs_copies Example.lib Example.mesh Example.reg
           Example.zeros (Example.fields true)
           (proj1 derivs_as_declared_small_mesh)
           (proj2 derivs_as_declared_small_mesh)).
Defined.

(** The fields [save_derivs] copies from. *)
Lemma save_derivs_inv (lib : Library) (mesh : Mesh) (reg : Registry)
    (dudata dudata' : Buffer) (m m' : Memory) :
  save_derivs lib mesh reg dudata m = Ok (dudata', m') ->
  m' = fold_left
         (fun m it =>
            if CELL_LOC_eqb (location it) (location3 (deref3 m (F_var it)))
            then m
            else store3 m (F_var it)
                   (interp_to lib (deref3 m (F_var it)) (location it)))
         (f3d reg)
         (fold_left (fun m v => to_basis3 lib (covariant v) (F_var v) m)
            (v3d reg)
            (fold_left (fun m v => to_basis2 lib (covariant v) (F_var v) m)
               (v2d reg) m)).
Proof.
  unfold save_derivs. intros Hrun.
  assert (Hop : SAVE_DERIVS <> LOAD_VARS) by discriminate.
  now destruct (@loop_vars_saved mesh reg SAVE_DERIVS _ _ _ _ Hop Hrun)
    as (-> & _).
Qed.

(** X9: when [interp_to] returns its result at the location asked for and
    no time derivative is registered with two different locations, every
    registered 3D time derivative is at its declared location after
    [save_derivs], wherever the residual function has left it. *)
Theorem save_derivs_relocates (lib : Library) (mesh : Mesh) (reg : Registry)
    (dudata dudata' : Buffer) (m m' : Memory) :
  interp_to_delivers lib reg ->
  derivs_declared_consistently reg ->
  save_derivs lib mesh reg dudata m = Ok (dudata', m') ->
  forall it, In it (f3d reg) ->
    location3 (deref3 m' (F_var it)) = location it.
Proof.
  intros Hinterp Hcons Hrun.
  rewrite (@save_derivs_inv lib mesh reg dudata dudata' m m' Hrun).
  apply (fold_left_establish_in
           (fun m it =>
              if CELL_LOC_eqb (location it) (location3 (deref3 m (F_var it)))
              then m
              else store3 m (F_var it)
                     (interp_to lib (deref3 m (F_var it)) (location it)))
           (fun it m => location3 (deref3 m (F_var it)) = location it)).
  - intros a b Hb.
    destruct (BoutTheory.CELL_LOC_eqb_spec (location b)
                (location3 (deref3 a (F_var b)))) as [Heq|Hne].
    + now symmetry.
    + rewrite deref3_store3_same. now apply Hinterp.
  - intros a b b' Hb Hb' Ha.
    destruct (CELL_LOC_eqb (location b') (location3 (deref3 a (F_var b'))));
      [exact Ha|].
    destruct (Field3D_ptr_eq_dec (F_var b') (F_var b)) as [Heq|Hne].
    + rewrite <- Heq, deref3_store3_same.
      rewrite (Hinterp b' _ Hb'). now apply Hcons.
    + now rewrite deref3_store3_other.
Qed.

Lemma save_derivs_relocates_witness :
  interp_to_delivers Example.lib Example.reg
  /\ derivs_declared_consistently Example.reg
  /\ location3 (deref3 Example.fields_moved (Ptr3 1)) = CELL_XLOW
  /\ exists (dudata' : Buffer) (m' : Memory),
       save_derivs Example.lib Example.mesh Example.reg Example.zeros
                   Example.fields_moved
       = Ok (dudata', m')
       /\ forall it, In it (f3d Example.reg) ->
            location3 (deref3 m' (F_var it)) = location it.
Proof.
  assert (Hinterp : interp_to_delivers Example.lib Example.reg).
  { intros it f Hit. simpl in Hit. destruct Hit as [<-|[]]. simpl.
    unfold Example.relocate. simpl.
    destruct (BoutTheory.CELL_LOC_eqb_spec (location3 f) CELL_CENTRE)
      as [Heq|Hne]; [exact Heq | reflexivity]. }
  assert (Hcons : derivs_declared_consistently Example.reg).
  { intros v w Hv Hw _. simpl in Hv, Hw.
    destruct Hv as [<-|[]], Hw as [<-|[]]. reflexivity. }
  assert (Hruns : Example.res_map (fun _ => tt)
                    (save_derivs Example.lib Example.mesh Example.reg
                                 Example.zeros Example.fields_moved)
                  = Ok tt)
    by (vm_compute; reflexivity).
  split; [exact Hinterp|]. split; [exact Hcons|]. split; [reflexivity|].
  destruct (save_derivs Example.lib Example.mesh Example.reg Example.zeros
                        Example.fields_moved)
    as [[dudata' m']|] eqn:Hrun; [|discriminate].
  exists dudata', m'. split; [reflexivity|].
  exact (@save_derivs_relocates Example.lib Example.mesh Example.reg
           Example.zeros dudata' Example.fields_moved m' Hinterp Hcons Hrun).
Defined.

(** ** The residual callback *)

(** X10: [rhs] returns 0 whenever it returns; the status the residual
    function reports is dropped.  LOAD cannot fault, so a call faults
    exactly when [save_derivs] faults on the fields the residual function
    leaves, and a call that returns hands back the flat vector and the
    fields of [save_derivs]. *)
Theorem rhs_drops_status (lib : Library) (mesh : Mesh) (reg : Registry)
    (t : BoutReal) (udata dudata : Buffer) (s : PetscSolver) (m : Memory) :
  exists m1 : Memory,
    load_vars lib mesh reg udata m = Ok m1
    /\ (rhs lib mesh reg t udata dudata s m = Fault <->
        save_derivs lib mesh reg dudata
          (snd (run_rhs lib t (rhs_ncalls s, rhs_wtime s) m1))
        = Fault)
    /\ (forall code dudata' s' m',
          rhs lib mesh reg t udata dudata s m = Ok (code, dudata', s', m') ->
          code = 0
          /\ save_derivs lib mesh reg dudata
               (snd (run_rhs lib t (rhs_ncalls s, rhs_wtime s) m1))
             = Ok (dudata', m')).
Proof.
  destruct (load_vars_result lib mesh reg udata m) as (ml & Hload & _).
  exists (load_marked reg ml). split; [exact Hload|].
  unfold rhs. rewrite Hload. simpl.
  destruct (run_rhs lib t (rhs_ncalls s, rhs_wtime s) (load_marked reg ml))
    as [[flag [ncalls wtime]] m2].
  simpl.
  destruct (save_derivs lib mesh reg dudata m2) as [[du m3]|]; simpl.
  - split.
    + destruct (geb t (next_time s)); split; discriminate.
    + intros code dudata' s' m' Hrun.
      destruct (geb t (next_time s)); injection Hrun as <- <- _ <-;
        now split.
  - split; [split; reflexivity|]. discriminate.
Qed.

End CodecTheory.

(** * Properties of the mixed derivative [D2DYDZ] *)

Module MixedTheory.
Import Bout Derivs Petsc Mixed PetscTheory.
Open Scope res_scope.

(** ** The neighbours in Z *)

Lemma rem_next (Nz k : Z) :
  0 <= k < Nz -> Z.rem (k + 1) Nz = z_next Nz k.
Proof.
  intros Hk. unfold z_next. rewrite Z.rem_mod_nonneg by lia.
  destruct (Z.ltb_spec (k + 1) Nz) as [Hlt|Hge].
  - apply Z.mod_small. lia.
  - replace (k + 1) with Nz by lia. apply Z.mod_same. lia.
Qed.

Lemma rem_prev (Nz k : Z) :
  0 <= k < Nz -> Z.rem (k - 1 + Nz) Nz = z_prev Nz k.
Proof.
  intros Hk. unfold z_prev. rewrite Z.rem_mod_nonneg by lia.
  destruct (Z.eqb_spec k 0) as [->|Hne].
  - rewrite Z.mod_small; lia.
  - replace (k - 1 + Nz) with (k - 1 + 1 * Nz) by lia.
    rewrite Z.mod_add by lia. apply Z.mod_small. lia.
Qed.

Lemma z_next_range (Nz k : Z) : 0 <= k < Nz -> 0 <= z_next Nz k < Nz.
Proof. intros Hk. unfold z_next. destruct (Z.ltb_spec (k + 1) Nz); lia. Qed.

Lemma z_prev_range (Nz k : Z) : 0 <= k < Nz -> 0 <= z_prev Nz k < Nz.
Proof. intros Hk. unfold z_prev. destruct (Z.eqb_spec k 0); lia. Qed.

(** ** The three loops as one *)

Definition points (more : MeshMore) : list (Z * Z * Z) :=
  flat_map
    (fun i => flat_map
       (fun j => map (fun k => (i, j, k)) (zrange 0 (LocalNz more)))
       (zrange (ystart more) (yend more + 1)))
    (zrange (xstart more) (xend more + 1)).

Lemma In_points (more : MeshMore) (i j k : Z) :
  In (i, j, k) (points more) <-> interior more i j k.
Proof.
  unfold points, interior. rewrite in_flat_map. split.
  - intros [i' [Hi Hin]]. apply in_flat_map in Hin.
    destruct Hin as [j' [Hj Hin]]. apply in_map_iff in Hin.
    destruct Hin as [k' [Heq Hk]]. injection Heq as -> -> ->.
    apply In_zrange in Hi, Hj, Hk. lia.
  - intros [Hi [Hj Hk]]. exists i. split; [apply In_zrange; lia|].
    apply in_flat_map. exists j. split; [apply In_zrange; lia|].
    apply in_map_iff. exists k. split; [reflexivity|apply In_zrange; lia].
Qed.

Lemma D2DYDZ_loops (mesh : Derivs.Mesh) (more : MeshMore) (f : Field3D)
    (r : Z -> Z -> Z -> BoutReal) :
  for_each
    (fun i => for_each
       (fun j => for_each (fun k => D2DYDZ_point mesh more f i j k)
                   (zrange 0 (LocalNz more)))
       (zrange (ystart more) (yend more + 1)))
    (zrange (xstart more) (xend more + 1)) r
  = for_each (fun p => D2DYDZ_point mesh more f (fst (fst p)) (snd (fst p))
                         (snd p))
      (points more) r.
Proof.
  unfold points. rewrite for_each_flat_map.
  apply for_each_ext. intros i r'. rewrite for_each_flat_map.
  apply for_each_ext. intros j r''. rewrite for_each_map. reflexivity.
Qed.

(** ** One point *)

Lemma D2DYDZ_point_value (mesh : Derivs.Mesh) (more : MeshMore) (f : Field3D)
    (d : Z -> Z -> Z -> BoutReal) (h : Z -> Z -> BoutReal) (i j k : Z)
    (r : Z -> Z -> Z -> BoutReal) :
  data3 f = Some d ->
  data2 (dy (coordinates mesh)) = Some h ->
  0 <= k < LocalNz more ->
  D2DYDZ_point mesh more f i j k r
  = Ok (set3 r i j k
          (stencil d h (dz (coordinates mesh)) (LocalNz more) i j k)).
Proof.
  intros Hd Hh Hk. unfold D2DYDZ_point, read3, read2.
  rewrite Hd, Hh. simpl. rewrite (rem_next Hk), (rem_prev Hk). reflexivity.
Qed.

Lemma D2DYDZ_point_fault (mesh : Derivs.Mesh) (more : MeshMore) (f : Field3D)
    (i j k : Z) (r : Z -> Z -> Z -> BoutReal) :
  data3 f = None \/ data2 (dy (coordinates mesh)) = None ->
  D2DYDZ_point mesh more f i j k r = Fault.
Proof.
  intros H. unfold D2DYDZ_point, read3, read2.
  destruct (data3 f); destruct H as [H|H]; try discriminate; try reflexivity.
  rewrite H. reflexivity.
Qed.

Lemma set3_same (r : Z -> Z -> Z -> BoutReal) (i j k : Z) (val : BoutReal) :
  set3 r i j k val i j k = val.
Proof. unfold set3. now rewrite !Z.eqb_refl. Qed.

Lemma set3_other (r : Z -> Z -> Z -> BoutReal) (i j k x y z : Z)
    (val : BoutReal) :
  (x, y, z) <> (i, j, k) -> set3 r i j k val x y z = r x y z.
Proof.
  intros Hne. unfold set3.
  destruct (Z.eqb_spec x i); [|reflexivity].
  destruct (Z.eqb_spec y j); [|reflexivity].
  destruct (Z.eqb_spec z k); [|reflexivity].
  congruence.
Qed.

Lemma point_eq_dec (p q : Z * Z * Z) : {p = q} + {p <> q}.
Proof. repeat decide equality. Defined.

(** ** A loop that writes, at each point of a list, a value that depends on
    the point only *)

Lemma for_each_writes (body : Z * Z * Z -> (Z -> Z -> Z -> BoutReal)
                              -> Res (Z -> Z -> Z -> BoutReal))
    (val : Z -> Z -> Z -> BoutReal) (l : list (Z * Z * Z)) :
  (forall i j k r, In (i, j, k) l ->
     body (i, j, k) r = Ok (set3 r i j k (val i j k))) ->
  forall r, exists r',
    for_each body l r = Ok r'
    /\ (forall i j k, In (i, j, k) l -> r' i j k = val i j k)
    /\ (forall i j k, ~ In (i, j, k) l -> r' i j k = r i j k).
Proof.
  induction l as [|[[i0 j0] k0] l IH]; intros Hbody r.
  - exists r. split; [reflexivity|]. split; [intros ? ? ? []|reflexivity].
  - destruct (IH (fun i j k r Hin => Hbody i j k r (or_intror Hin))
                 (set3 r i0 j0 k0 (val i0 j0 k0)))
      as [r' [Hrun [Hin Hout]]].
    exists r'. split; [|split].
    + simpl. rewrite Hbody by (left; reflexivity). exact Hrun.
    + intros i j k Hijk.
      destruct (in_dec point_eq_dec (i, j, k) l) as [Hl|Hl];
        [apply Hin; exact Hl|].
      destruct Hijk as [Heq|Hl']; [|contradiction].
      injection Heq as -> -> ->. rewrite Hout by exact Hl.
      apply set3_same.
    + intros i j k Hijk. rewrite Hout by (intros Hl; apply Hijk; now right).
      apply set3_other. intros Heq. apply Hijk. left. now symmetry.
Qed.

Lemma for_each_faults {A S : Type} (body : A -> S -> Res S) (l : list A)
    (s : S) :
  l <> [] -> (forall a s', In a l -> body a s' = Fault) ->
  for_each body l s = Fault.
Proof.
  intros Hne Hbody. destruct l as [|a l]; [congruence|].
  simpl. rewrite Hbody by (left; reflexivity). reflexivity.
Qed.

(** ** The operator *)

Lemma D2DYDZ_run (mesh : Derivs.Mesh) (more : MeshMore)
    (fresh : Z -> Z -> Z -> BoutReal) (f : Field3D)
    (d : Z -> Z -> Z -> BoutReal) (h : Z -> Z -> BoutReal) :
  data3 f = Some d ->
  data2 (dy (coordinates mesh)) = Some h ->
  exists r,
    D2DYDZ mesh more fresh f = Ok (mkField3D (Some r) CELL_CENTRE)
    /\ (forall i j k, interior more i j k ->
          r i j k = stencil d h (dz (coordinates mesh)) (LocalNz more) i j k)
    /\ (forall i j k, ~ interior more i j k -> r i j k = fresh i j k).
Proof.
  intros Hd Hh.
  destruct (@for_each_writes
              (fun p => D2DYDZ_point mesh more f (fst (fst p)) (snd (fst p))
                          (snd p))
              (stencil d h (dz (coordinates mesh)) (LocalNz more))
              (points more)) with (r := fresh) as [r [Hrun [Hin Hout]]].
  { intros i j k r Hijk. apply In_points in Hijk. simpl.
    apply D2DYDZ_point_value; [exact Hd|exact Hh|].
    destruct Hijk as [_ [_ Hk]]. exact Hk. }
  exists r. split; [|split].
  - unfold D2DYDZ. rewrite D2DYDZ_loops, Hrun. reflexivity.
  - intros i j k Hijk. apply Hin, In_points, Hijk.
  - intros i j k Hijk. apply Hout. intros Hp. apply Hijk, In_points, Hp.
Qed.

Lemma D2DYDZ_empty (mesh : Derivs.Mesh) (more : MeshMore)
    (fresh : Z -> Z -> Z -> BoutReal) (f : Field3D) :
  points more = [] ->
  D2DYDZ mesh more fresh f = Ok (mkField3D (Some fresh) CELL_CENTRE).
Proof.
  intros Hnil. unfold D2DYDZ. rewrite D2DYDZ_loops, Hnil. reflexivity.
Qed.

(** X11: on a field with storage, over a grid spacing with storage,
    [D2DYDZ] returns a field at the cell centre, whatever the location of
    its argument, which holds at every interior point [(i, j, k)]
    [0.25 * ((f(i,j+1,k+) - f(i,j-1,k+)) / dy(i,j+1)
             - (f(i,j+1,k-) - f(i,j-1,k-)) / dy(i,j-1)) / dz],
    [k+] and [k-] being the planes next to [k] on the periodic Z axis
    ([k+ = 0] for the last plane, [k- = LocalNz - 1] for plane 0), and at
    every other point what the new storage held: no guard or boundary cell
    is set. *)
Theorem D2DYDZ_stencil (mesh : Derivs.Mesh) (more : MeshMore)
    (fresh : Z -> Z -> Z -> BoutReal) (f : Field3D)
    (d : Z -> Z -> Z -> BoutReal) (h : Z -> Z -> BoutReal) :
  data3 f = Some d ->
  data2 (dy (coordinates mesh)) = Some h ->
  exists r,
    D2DYDZ mesh more fresh f = Ok (mkField3D (Some r) CELL_CENTRE)
    /\ (forall i j k, interior more i j k ->
          r i j k = stencil d h (dz (coordinates mesh)) (LocalNz more) i j k)
    /\ (forall i j k, ~ interior more i j k -> r i j k = fresh i j k).
Proof.
  intros Hd Hh.
  destruct (D2DYDZ_run mesh more fresh f Hd Hh) as [r [Hrun [Hin Hout]]].
  exists r. split; [exact Hrun|]. split.
  - exact Hin.
  - exact Hout.
Qed.

(** At the point (1, 1, 0) of the example the planes are 1 and 2, and the
    value is [0.25 * ((2 - 0) - (4 - 0)) = -0.5]; the corner (0, 0, 0) keeps
    what the new storage held. *)
Lemma D2DYDZ_stencil_witness :
  exists r,
    D2DYDZ Example.uniform_mesh MixedExample.more MixedExample.fresh
           MixedExample.f
    = Ok (mkField3D (Some r) CELL_CENTRE)
    /\ r 1 1 0 = (-0.5)%float
    /\ r 0 0 0 = 0%float.
Proof.
  destruct (@D2DYDZ_stencil Example.uniform_mesh MixedExample.more
              MixedExample.fresh MixedExample.f MixedExample.values
              MixedExample.spacing eq_refl eq_refl)
    as [r [Hrun [Hin Hout]]].
  exists r. split; [exact Hrun|]. split.
  - rewrite Hin by (unfold interior; simpl; lia). vm_compute. reflexivity.
  - rewrite Hout by (unfold interior; simpl; lia). reflexivity.
Defined.

(** X12: [D2DYDZ] faults exactly when there is an interior point and the
    field or the grid spacing [dy] has no storage.  With no interior point
    (a reversed X or Y range, or [LocalNz <= 0]) it reads nothing and returns
    the new storage untouched, even for a field without storage. *)
Theorem D2DYDZ_faults (mesh : Derivs.Mesh) (more : MeshMore)
    (fresh : Z -> Z -> Z -> BoutReal) (f : Field3D) :
  (D2DYDZ mesh more fresh f = Fault <->
   (exists i j k, interior more i j k)
   /\ (data3 f = None \/ data2 (dy (coordinates mesh)) = None))
  /\ ((forall i j k, ~ interior more i j k) ->
      D2DYDZ mesh more fresh f = Ok (mkField3D (Some fresh) CELL_CENTRE)).
Proof.
  assert (Hempty : (forall i j k, ~ interior more i j k) -> points more = []).
  { intros Hno. destruct (points more) as [|[[i j] k] l] eqn:Hp;
      [reflexivity|].
    exfalso. apply (Hno i j k), In_points. rewrite Hp. now left. }
  split; [split|].
  - intros Hfault. destruct (points more) as [|[[i j] k] l] eqn:Hp.
    + rewrite (@D2DYDZ_empty mesh more fresh f Hp) in Hfault. discriminate.
    + split.
      * exists i, j, k. apply In_points. rewrite Hp. now left.
      * destruct (data3 f) as [d|] eqn:Hd; [|now left].
        destruct (data2 (dy (coordinates mesh))) as [h|] eqn:Hh; [|now right].
        destruct (D2DYDZ_run mesh more fresh f Hd Hh) as [r [Hrun _]].
        rewrite Hrun in Hfault. discriminate.
  - intros [[i [j [k Hijk]]] Hnull].
    unfold D2DYDZ. rewrite D2DYDZ_loops.
    rewrite for_each_faults; [reflexivity| |].
    + intros Hnil. apply In_points in Hijk. rewrite Hnil in Hijk.
      destruct Hijk.
    + intros p s' _. apply D2DYDZ_point_fault. exact Hnull.
  - intros Hno. apply D2DYDZ_empty, Hempty, Hno.
Qed.

(** X13: what [D2DYDZ] reads.  Two fields with storage that agree on the
    interior X range, on the Y range widened by one cell on each side and on
    the planes [0 .. LocalNz-1] have the same mixed derivative at every
    point: the X guard cells, a second Y guard cell and the location of the
    field are never read. *)
Theorem D2DYDZ_reads (mesh : Derivs.Mesh) (more : MeshMore)
    (fresh : Z -> Z -> Z -> BoutReal) (f f' : Field3D)
    (d d' : Z -> Z -> Z -> BoutReal) (h : Z -> Z -> BoutReal) :
  data3 f = Some d ->
  data3 f' = Some d' ->
  data2 (dy (coordinates mesh)) = Some h ->
  (forall i j k,
     xstart more <= i <= xend more ->
     ystart more - 1 <= j <= yend more + 1 ->
     0 <= k < LocalNz more ->
     d i j k = d' i j k) ->
  exists r r',
    D2DYDZ mesh more fresh f = Ok r
    /\ D2DYDZ mesh more fresh f' = Ok r'
    /\ location3 r = location3 r'
    /\ forall i j k, value3 r i j k = value3 r' i j k.
Proof.
  intros Hd Hd' Hh Hagree.
  destruct (D2DYDZ_run mesh more fresh f Hd Hh) as [r [Hrun [Hin Hout]]].
  destruct (D2DYDZ_run mesh more fresh f' Hd' Hh) as [r' [Hrun' [Hin' Hout']]].
  exists (mkField3D (Some r) CELL_CENTRE), (mkField3D (Some r') CELL_CENTRE).
  split; [exact Hrun|]. split; [exact Hrun'|]. split; [reflexivity|].
  intros i j k. unfold value3. simpl. f_equal.
  destruct (in_dec point_eq_dec (i, j, k) (points more)) as [Hp|Hp].
  - apply In_points in Hp. rewrite Hin, Hin' by exact Hp.
    destruct Hp as [Hi [Hj Hk]].
    pose proof (z_next_range Hk) as Hn. pose proof (z_prev_range Hk) as Hv.
    unfold stencil. rewrite !Hagree by lia. reflexivity.
  - rewrite Hout, Hout' by (intros Hi; apply Hp, In_points, Hi).
    reflexivity.
Qed.

Lemma D2DYDZ_reads_witness :
  exists r r',
    D2DYDZ Example.uniform_mesh MixedExample.more MixedExample.fresh
           MixedExample.f = Ok r
    /\ D2DYDZ Example.uniform_mesh MixedExample.more MixedExample.fresh
              MixedExample.f' = Ok r'
    /\ location3 r = location3 r'
    /\ forall i j k, value3 r i j k = value3 r' i j k.
Proof.
  apply (@D2DYDZ_reads Example.uniform_mesh MixedExample.more
           MixedExample.fresh MixedExample.f MixedExample.f'
           MixedExample.values MixedExample.values' MixedExample.spacing
           eq_refl eq_refl eq_refl).
  intros i j k Hi Hj Hk. simpl in Hi, Hj, Hk.
  unfold MixedExample.values, MixedExample.values'.
  destruct (Z.ltb_spec i 1); [lia|]. destruct (Z.ltb_spec 2 i); [lia|].
  destruct (Z.ltb_spec k 0); [lia|]. destruct (Z.leb_spec 3 k); [lia|].
  reflexivity.
Defined.

End MixedTheory.

(** * Properties of the boundary data of a field *)

Module BoundaryTheory.
Import Petsc PetscTheory Boundary.
Import String.StringSyntax.
Open Scope res_scope.

Section Facts.

Variable w : Interface.

(** ** Generators *)

Lemma get_assign_same (key : BndryLoc w) (gen : option (FieldGenerator w))
    (fd : FieldData w) :
  BndryLoc_eqb_decides w ->
  getBndryGenerator key (assign_generator key gen fd) = gen.
Proof.
  intros Heqb. unfold getBndryGenerator, assign_generator. simpl.
  replace (BndryLoc_eqb w key key) with true; [reflexivity|].
  symmetry. apply Heqb. reflexivity.
Qed.

Lemma get_assign_other (key loc : BndryLoc w)
    (gen : option (FieldGenerator w)) (fd : FieldData w) :
  BndryLoc_eqb_decides w ->
  loc <> key ->
  getBndryGenerator loc (assign_generator key gen fd)
  = getBndryGenerator loc fd.
Proof.
  intros Heqb Hne. unfold getBndryGenerator, assign_generator. simpl.
  destruct (BndryLoc_eqb w loc key) eqn:He; [|reflexivity].
  apply Heqb in He. contradiction.
Qed.

Lemma get_assign_regions (gen : option (FieldGenerator w))
    (loc : BndryLoc w) (regs : list (BoundaryRegion w)) :
  BndryLoc_eqb_decides w ->
  forall fd : FieldData w,
    ((exists reg, In reg regs /\ location w reg = loc) ->
     getBndryGenerator loc
       (fold_left (fun fd reg => assign_generator (location w reg) gen fd)
          regs fd) = gen)
    /\ ((forall reg, In reg regs -> location w reg <> loc) ->
        getBndryGenerator loc
          (fold_left (fun fd reg => assign_generator (location w reg) gen fd)
             regs fd) = getBndryGenerator loc fd).
Proof.
  intros Heqb. induction regs as [|reg regs IH] using rev_ind; intros fd.
  - split; [intros [reg [[] _]]|reflexivity].
  - rewrite fold_left_app. simpl. split.
    + intros [reg' [Hin Hloc]].
      destruct (BndryLoc_eqb w loc (location w reg)) eqn:He.
      * apply Heqb in He. rewrite He. apply get_assign_same, Heqb.
      * assert (Hne : loc <> location w reg).
        { intros Heq. apply Heqb in Heq. congruence. }
        rewrite get_assign_other by assumption.
        apply IH. exists reg'. split; [|exact Hloc].
        apply in_app_or in Hin. destruct Hin as [Hin|[Heq|[]]];
          [exact Hin|]. subst reg'. congruence.
    + intros Hnone.
      rewrite get_assign_other;
        [|exact Heqb
         |intros Heq; apply (Hnone reg);
          [apply in_or_app; right; now left|now symmetry]].
      apply IH. intros reg' Hin. apply Hnone, in_or_app. now left.
Qed.

(** ** [setBoundary(name)] *)

Lemma setBoundary_loop {R O : Type} (create : R -> option O) (regs : list R)
    (ops : list O) (output : Output) :
  fold_left
    (fun '(ops, output) reg =>
       let op := create reg in
       let ops := match op with
                  | Some o => ops ++ [o]
                  | None => ops
                  end in
       (ops, output ++ [Endl]))
    regs (ops, output)
  = (ops ++ created create regs, output ++ repeat Endl (length regs)).
Proof.
  revert ops output. induction regs as [|reg regs IH]; intros ops output.
  - simpl. now rewrite !app_nil_r.
  - simpl. rewrite IH. unfold created. simpl.
    destruct (create reg) as [o|]; simpl; now rewrite <- !app_assoc.
Qed.

Lemma setBoundary_result (name : String.string) (fd : FieldData w)
    (output : Output) :
  setBoundary name fd output
  = (mkFieldData w
       (bndry_op fd ++ created (createFromOptions w name) (getBoundaries w))
       (bndry_op_par fd
        ++ created (createFromOptions_par w name) (getBoundariesPar w))
       false true (bndry_generator fd),
     ((output
       ++ [Text "Setting boundary for variable "%string; Text name; Endl])
      ++ repeat Endl (length (getBoundaries w)))
     ++ repeat Endl (length (getBoundariesPar w))).
Proof.
  unfold setBoundary.
  rewrite (setBoundary_loop (createFromOptions w name)).
  rewrite (setBoundary_loop (createFromOptions_par w name)).
  reflexivity.
Qed.

(** ** [setBoundary(region, op)] *)

Lemma setBoundary_op_loop (o : BoundaryOp w) (ops : list (BoundaryOp w))
    (output : Output) :
  for_each
    (fun b output =>
       if BoundaryRegion_eqb w (bndry w b) (bndry w o)
       then Ok (output ++ [Text "Replacing "%string])
       else Ok output)
    ops output
  = Ok (output
        ++ repeat (Text "Replacing "%string)
             (length (filter (fun b => BoundaryRegion_eqb w (bndry w b)
                                         (bndry w o)) ops))).
Proof.
  revert output. induction ops as [|b ops IH]; intros output; simpl.
  - now rewrite app_nil_r.
  - destruct (BoundaryRegion_eqb w (bndry w b) (bndry w o)); simpl;
      rewrite IH; [|reflexivity].
    now rewrite <- app_assoc.
Qed.

End Facts.

(** X14: the generators of a field, when the comparison of locations
    decides equality.  After [addBndryGenerator(gen, location)] with a
    location other than [BNDRY_ALL], [getBndryGenerator] returns [gen] at
    that location and what it returned before at every other.  After
    [addBndryGenerator(gen, BNDRY_ALL)] it returns [gen] at the location of
    each boundary region of the mesh and what it returned before at every
    other location: [BNDRY_ALL] itself gets no entry unless a region sits
    there, and on a mesh without boundary regions nothing is stored. *)
Theorem generator_lookup (w : Interface) (gen : option (FieldGenerator w))
    (loc : BndryLoc w) (fd : FieldData w) :
  BndryLoc_eqb_decides w ->
  (loc <> BNDRY_ALL w ->
   getBndryGenerator loc (addBndryGenerator gen loc fd) = gen
   /\ forall other, other <> loc ->
        getBndryGenerator other (addBndryGenerator gen loc fd)
        = getBndryGenerator other fd)
  /\ (loc = BNDRY_ALL w ->
      forall l : BndryLoc w,
        ((exists reg, In reg (getBoundaries w) /\ location w reg = l) ->
         getBndryGenerator l (addBndryGenerator gen loc fd) = gen)
        /\ ((forall reg, In reg (getBoundaries w) -> location w reg <> l) ->
            getBndryGenerator l (addBndryGenerator gen loc fd)
            = getBndryGenerator l fd)).
Proof.
  intros Heqb. unfold addBndryGenerator. split.
  - intros Hne.
    destruct (BndryLoc_eqb w loc (BNDRY_ALL w)) eqn:He;
      [apply Heqb in He; contradiction|].
    split; [apply get_assign_same, Heqb|].
    intros other Hother. apply get_assign_other; assumption.
  - intros ->.
    replace (BndryLoc_eqb w (BNDRY_ALL w) (BNDRY_ALL w)) with true
      by (symmetry; apply Heqb; reflexivity).
    intros l. apply get_assign_regions, Heqb.
Qed.

(** On the example, a function added everywhere is found at the location 4
    of the third region, and not at [BNDRY_ALL = 15]. *)
Lemma generator_lookup_witness :
  @getBndryGenerator BoundaryExample.w 4
    (@addBndryFunction BoundaryExample.w 7 15
       (FieldData_new BoundaryExample.w))
  = Some 107
  /\ @getBndryGenerator BoundaryExample.w 15
       (@addBndryFunction BoundaryExample.w 7 15
          (FieldData_new BoundaryExample.w))
     = None.
Proof.
  assert (Heqb : BndryLoc_eqb_decides BoundaryExample.w)
    by (intros a b; apply Z.eqb_eq).
  destruct (@generator_lookup BoundaryExample.w (Some 107) 15
              (FieldData_new BoundaryExample.w) Heqb) as [_ Hall].
  split.
  - apply (Hall eq_refl 4). exists 4. split; [simpl; tauto|reflexivity].
  - destruct (Hall eq_refl 15) as [_ Hkeep].
    change (@addBndryFunction BoundaryExample.w 7 15
              (FieldData_new BoundaryExample.w))
      with (@addBndryGenerator BoundaryExample.w (Some 107) 15
              (FieldData_new BoundaryExample.w)).
    rewrite Hkeep; [reflexivity|].
    intros reg Hin. simpl in Hin. simpl. lia.
Defined.

(** X15: [setBoundary(name)] adds to the operations the field has, and
    removes none: afterwards the field holds its former operations followed
    by those the factory makes for the boundary regions of the mesh, in
    their order, without the regions for which the factory returns [NULL],
    and likewise for the parallel regions; it is marked as set and as no
    copy, whatever it was; its generators are unchanged; and the output
    has received the heading and one line end for each region. *)
Theorem setBoundary_appends (w : Interface) (name : String.string)
    (fd : FieldData w) (output : Output) :
  let fd' := fst (setBoundary name fd output) in
  bndry_op fd'
  = bndry_op fd ++ created (createFromOptions w name) (getBoundaries w)
  /\ bndry_op_par fd'
     = bndry_op_par fd
       ++ created (createFromOptions_par w name) (getBoundariesPar w)
  /\ boundaryIsCopy fd' = false
  /\ boundaryIsSet fd' = true
  /\ (forall loc, getBndryGenerator loc fd' = getBndryGenerator loc fd)
  /\ snd (setBoundary name fd output)
     = output
       ++ [Text "Setting boundary for variable "%string; Text name; Endl]
       ++ repeat Endl (length (getBoundaries w)
                       + length (getBoundariesPar w)).
Proof.
  intros fd'. subst fd'. rewrite setBoundary_result. simpl.
  split; [reflexivity|]. split; [reflexivity|]. split; [reflexivity|].
  split; [reflexivity|]. split; [reflexivity|].
  rewrite repeat_app. simpl. now rewrite <- !app_assoc.
Qed.

(** X16: who deletes the boundary operations.  A field that has copied the
    boundary of another deletes nothing when it is destroyed.  Once
    [setBoundary(name)] is called on it, its destructor deletes every
    operation it has copied, and the destructor of the field they were
    copied from, when that field owns them, deletes them as well. *)
Theorem copied_boundary_ownership (w : Interface) (f fd : FieldData w)
    (name : String.string) (output : Output) (op : BoundaryOp w) :
  boundaryIsCopy f = false ->
  In op (bndry_op f) ->
  FieldData_delete (copyBoundary f fd) = []
  /\ In op (FieldData_delete f)
  /\ In op (FieldData_delete
              (fst (setBoundary name (copyBoundary f fd) output))).
Proof.
  intros Hown Hin. split; [reflexivity|]. split.
  - unfold FieldData_delete. rewrite Hown. exact Hin.
  - rewrite setBoundary_result. unfold FieldData_delete. simpl.
    apply in_or_app. left. exact Hin.
Qed.

Lemma copied_boundary_ownership_witness :
  FieldData_delete
    (copyBoundary BoundaryExample.donor (FieldData_new BoundaryExample.w))
  = []
  /\ In 40 (FieldData_delete BoundaryExample.donor)
  /\ In 40 (FieldData_delete
              (fst (setBoundary "n"%string
                      (copyBoundary BoundaryExample.donor
                         (FieldData_new BoundaryExample.w))
                      []))).
Proof.
  apply (@copied_boundary_ownership BoundaryExample.w BoundaryExample.donor
           (FieldData_new BoundaryExample.w) "n"%string [] 40 eq_refl).
  simpl. tauto.
Defined.

(** X17: [setBoundary(region, op)] installs nothing.  On a field without
    operations it returns at once, even for a null [op]; on a field with
    operations a null [op] is dereferenced; otherwise the field is left as
    it was, [op] is not among its operations unless it was before, and the
    output receives [Replacing ] once for each operation of the field on the
    region of [op]. *)
Theorem setBoundary_op_installs_nothing (w : Interface)
    (region : String.string) (op : option (BoundaryOp w)) (fd : FieldData w)
    (output : Output) :
  (setBoundary_op region op fd output = Fault <->
   op = None /\ bndry_op fd <> [])
  /\ (bndry_op fd = [] -> setBoundary_op region op fd output = Ok (fd, output))
  /\ (forall o, op = Some o ->
        setBoundary_op region op fd output
        = Ok (fd,
              output
              ++ repeat (Text "Replacing "%string)
                   (length (filter
                              (fun b => BoundaryRegion_eqb w (bndry w b)
                                          (bndry w o))
                              (bndry_op fd))))).
Proof.
  assert (Hsome : forall o, op = Some o ->
            setBoundary_op region op fd output
            = Ok (fd,
                  output
                  ++ repeat (Text "Replacing "%string)
                       (length (filter
                                  (fun b => BoundaryRegion_eqb w (bndry w b)
                                              (bndry w o))
                                  (bndry_op fd))))).
  { intros o ->. unfold setBoundary_op.
    rewrite setBoundary_op_loop. reflexivity. }
  split; [split|split].
  - intros Hfault. destruct op as [o|].
    + rewrite (Hsome o eq_refl) in Hfault. discriminate.
    + split; [reflexivity|]. intros Hnil. unfold setBoundary_op in Hfault.
      rewrite Hnil in Hfault. discriminate.
  - intros [-> Hne]. unfold setBoundary_op.
    destruct (bndry_op fd) as [|b ops]; [congruence|]. reflexivity.
  - intros Hnil. unfold setBoundary_op. rewrite Hnil. reflexivity.
  - exact Hsome.
Qed.

End BoundaryTheory.

(** * SAVE as a normal form *)

Module SaveTheory.
Import Bout Petsc Conditions PetscTheory CodecTheory.
Open Scope res_scope.

Section Basis.

Variable lib : Library.

Lemma to_basis2_flag (declared : bool) (v : nat) (m : Memory) :
  covariant2 (vectors2 (to_basis2 lib declared v m) v) = declared.
Proof.
  unfold to_basis2, toCovariant2, toContravariant2.
  destruct declared; destruct (covariant2 (vectors2 m v)) eqn:Hflag;
    try exact Hflag.
  - destruct (lower2 lib _) as [[gx gy] gz]. simpl. now rewrite update_same.
  - destruct (raise2 lib _) as [[gx gy] gz]. simpl. now rewrite update_same.
Qed.

Lemma to_basis2_other (declared : bool) (v v' : nat) (m : Memory) :
  v <> v' ->
  vectors2 (to_basis2 lib declared v m) v' = vectors2 m v'.
Proof.
  intros Hne. unfold to_basis2, toCovariant2, toContravariant2.
  destruct declared; destruct (covariant2 (vectors2 m v)); try reflexivity.
  - destruct (lower2 lib _) as [[gx gy] gz]. simpl. now rewrite update_other.
  - destruct (raise2 lib _) as [[gx gy] gz]. simpl. now rewrite update_other.
Qed.

Lemma to_basis3_flag (declared : bool) (v : nat) (m : Memory) :
  covariant3 (vectors3 (to_basis3 lib declared v m) v) = declared.
Proof.
  unfold to_basis3, toCovariant3, toContravariant3.
  destruct declared; destruct (covariant3 (vectors3 m v)) eqn:Hflag;
    try exact Hflag.
  - destruct (lower3 lib _) as [[gx gy] gz]. simpl. now rewrite update_same.
  - destruct (raise3 lib _) as [[gx gy] gz]. simpl. now rewrite update_same.
Qed.

Lemma to_basis3_other (declared : bool) (v v' : nat) (m : Memory) :
  v <> v' ->
  vectors3 (to_basis3 lib declared v m) v' = vectors3 m v'.
Proof.
  intros Hne. unfold to_basis3, toCovariant3, toContravariant3.
  destruct declared; destruct (covariant3 (vectors3 m v)); try reflexivity.
  - destruct (lower3 lib _) as [[gx gy] gz]. simpl. now rewrite update_other.
  - destruct (raise3 lib _) as [[gx gy] gz]. simpl. now rewrite update_other.
Qed.

Lemma to_basis3_vectors2 (declared : bool) (v : nat) (m : Memory) :
  vectors2 (to_basis3 lib declared v m) = vectors2 m.
Proof.
  unfold to_basis3, toCovariant3, toContravariant3.
  destruct declared; destruct (covariant3 (vectors3 m v)); try reflexivity.
  - now destruct (lower3 lib _) as [[gx gy] gz].
  - now destruct (raise3 lib _) as [[gx gy] gz].
Qed.

(** The two loops over the vectors at the head of [save_vars]. *)
Definition in_basis (reg : Registry) (m : Memory) : Memory :=
  fold_left (fun m v => to_basis3 lib (covariant v) (var v) m) (v3d reg)
    (fold_left (fun m v => to_basis2 lib (covariant v) (var v) m) (v2d reg) m).

Lemma in_basis_declared (reg : Registry) (m : Memory) :
  declared_consistently reg -> declared_basis reg (in_basis reg m).
Proof.
  intros (_ & Hc2 & Hc3). unfold in_basis. split.
  - intros v Hv.
    apply (fold_left_invariant
             (fun m w => to_basis3 lib (covariant w) (var w) m)
             (fun m => covariant2 (vectors2 m (var v)) = covariant v)).
    + intros a b _ Ha. now rewrite to_basis3_vectors2.
    + apply (fold_left_establish_in
               (fun m w => to_basis2 lib (covariant w) (var w) m)
               (fun v m => covariant2 (vectors2 m (var v)) = covariant v));
        [| |exact Hv].
      * intros a b _. apply to_basis2_flag.
      * intros a b b' Hb Hb' Ha.
        destruct (Nat.eq_dec (var b') (var b)) as [Heq|Hne].
        -- rewrite <- Heq, to_basis2_flag. now apply Hc2.
        -- now rewrite to_basis2_other.
  - intros v Hv.
    apply (fold_left_establish_in
             (fun m w => to_basis3 lib (covariant w) (var w) m)
             (fun v m => covariant3 (vectors3 m (var v)) = covariant v));
      [| |exact Hv].
    + intros a b _. apply to_basis3_flag.
    + intros a b b' Hb Hb' Ha.
      destruct (Nat.eq_dec (var b') (var b)) as [Heq|Hne].
      * rewrite <- Heq, to_basis3_flag. now apply Hc3.
      * now rewrite to_basis3_other.
Qed.

Lemma save_vars_zero (mesh : Mesh) (reg : Registry) (udata u1 : Buffer)
    (m m1 : Memory) :
  save_vars lib mesh reg udata m = Ok (0, (u1, m1)) ->
  m1 = in_basis reg m
  /\ loop_vars mesh reg udata SAVE_VARS m1 = Ok (u1, m1).
Proof.
  intros Hsave. unfold save_vars in Hsave. fold (in_basis reg m) in Hsave.
  destruct (existsb _ (f2d reg)); [discriminate|].
  destruct (existsb _ (f3d reg)); [discriminate|].
  destruct (loop_vars mesh reg udata SAVE_VARS (in_basis reg m))
    as [[u m']|] eqn:Hrun; simpl in Hsave; [|discriminate].
  injection Hsave as -> ->.
  assert (Hop : SAVE_VARS <> LOAD_VARS) by discriminate.
  destruct (@loop_vars_saved mesh reg SAVE_VARS _ _ _ _ Hop Hrun)
    as (Hm & _). subst m1. split; [reflexivity|exact Hrun].
Qed.

End Basis.

(** X18: SAVE brings the fields to a normal form.  When no vector is
    registered with two different declarations, a [save_vars] that returns 0
    leaves every registered vector in its declared basis; and as long as the
    conversion has left every variable its storage, a second [save_vars],
    into any flat vector, returns 0 again, changes no field and writes the
    same values at the positions [0 .. N-1]. *)
Theorem save_vars_normalises (lib : Library) (mesh : Mesh) (reg : Registry)
    (udata u1 : Buffer) (m m1 : Memory) :
  declared_consistently reg ->
  save_vars lib mesh reg udata m = Ok (0, (u1, m1)) ->
  declared_basis reg m1
  /\ (all_allocated reg m1 ->
      forall u' : Buffer,
      exists u2 : Buffer,
        save_vars lib mesh reg u' m1 = Ok (0, (u2, m1))
        /\ forall k,
             0 <= k < Z.of_nat (traversal_size mesh * point_size mesh reg) ->
             u2 k = u1 k).
Proof.
  intros Hcons Hsave.
  destruct (save_vars_zero _ _ _ _ _ Hsave) as [Hm1 Hrun].
  assert (Hbasis : declared_basis reg m1)
    by (rewrite Hm1; apply in_basis_declared, Hcons).
  split; [exact Hbasis|].
  intros Hall u'.
  destruct (@save_vars_succeeds lib mesh reg u' m1 Hall Hbasis) as [u2 Hsave2].
  exists u2. split; [exact Hsave2|].
  pose proof (@save_vars_loop lib mesh reg u' u2 m1 Hall Hbasis Hsave2)
    as Hrun2.
  assert (Hop : SAVE_VARS <> LOAD_VARS) by discriminate.
  destruct (@loop_vars_saved mesh reg SAVE_VARS _ _ _ _ Hop Hrun)
    as (_ & Hval & _).
  destruct (@loop_vars_saved mesh reg SAVE_VARS _ _ _ _ Hop Hrun2)
    as (_ & Hval2 & _).
  intros k Hk. rewrite <- length_layout in Hk.
  destruct (nth_error (layout mesh reg) (Z.to_nat k)) as [s|] eqn:Hs.
  - pose proof (Hval _ _ Hs) as H1. pose proof (Hval2 _ _ Hs) as H2.
    rewrite H1 in H2. injection H2 as Heq.
    rewrite Z2Nat.id in Heq by lia. now symmetry.
  - apply nth_error_None in Hs. lia.
Qed.

(** On the small mesh, from fields whose vectors are contravariant while
    they are declared covariant. *)
Lemma save_vars_normalises_witness :
  exists (u1 : Buffer) (m1 : Memory),
    save_vars Example.lib Example.mesh Example.reg Example.zeros
              (Example.fields false)
    = Ok (0, (u1, m1))
    /\ declared_basis Example.reg m1
    /\ (all_allocated Example.reg m1 ->
        forall u' : Buffer,
        exists u2 : Buffer,
          save_vars Example.lib Example.mesh Example.reg u' m1
          = Ok (0, (u2, m1))
          /\ forall k, 0 <= k < 72 -> u2 k = u1 k).
Proof.
  assert (Hcode : Example.res_map fst
                    (save_vars Example.lib Example.mesh Example.reg
                               Example.zeros (Example.fields false))
                  = Ok 0)
    by (vm_compute; reflexivity).
  destruct (save_vars Example.lib Example.mesh Example.reg Example.zeros
                      (Example.fields false))
    as [[code [u1 m1]]|] eqn:Hsave; [|discriminate].
  simpl in Hcode. injection Hcode as ->.
  exists u1, m1. split; [reflexivity|].
  exact (@save_vars_normalises Example.lib Example.mesh Example.reg
           Example.zeros u1 (Example.fields false) m1
           declared_consistently_small_mesh Hsave).
Defined.

End SaveTheory.
